(** * CineLog: the list-processing pipeline of the watch log

    A shallow embedding of the search / sort / paginate / aggregate /
    import-export code of the application, together with the properties its
    specification states.  The sources are the application component
    [src/unnamed/part_001] (the [App] function; "App" below), the statistics
    panel [src/components/Stats.tsx] and the record type [src/types.ts].

    Conventions.
    - A JavaScript string is the list of its UTF-16 code units.
    - A JavaScript number that the code only uses as an integer (lengths,
      indices, counts, minutes, epoch milliseconds, star ratings) is a [Z]
      or, where it is a length or a distance, a [nat].
    - An optional field ([x?: T], or a field that legacy records lack) is an
      [option]; [None] is [undefined].
    - Built-ins whose result depends on the host (case folding, collation,
      JSON, number and date formatting, UUIDs, the clock) are parameters. *)

From Stdlib Require Import ZArith NArith List Bool Lia Permutation Sorted Ascii.
From stdpp Require Import base option list gmap strings.

Local Open Scope Z_scope.

(** ** Part I. The embedding *)

(** *** JavaScript strings *)

Abbreviation jsstring := (list N).

(** An ASCII literal as a JavaScript string. *)
Definition str (s : string) : jsstring :=
  Ascii.N_of_ascii <$> String.list_ascii_of_string s.

(** The code units matched by [\s] and removed by [String.prototype.trim]:
    WhiteSpace and LineTerminator of ECMAScript. *)
Definition isWhiteSpace (c : N) : bool :=
  bool_decide (c ∈ [9; 10; 11; 12; 13; 32; 160; 5760; 8232; 8233; 8239;
                    8287; 12288; 65279]%N)
  || ((8192 <=? c)%N && (c <=? 8202)%N).

Fixpoint trimStart (s : jsstring) : jsstring :=
  match s with
  | c :: s' => if isWhiteSpace c then trimStart s' else s
  | [] => []
  end.

Definition trim (s : jsstring) : jsstring :=
  reverse (trimStart (reverse (trimStart s))).

Fixpoint startsWith (s t : jsstring) : bool :=
  match t, s with
  | [], _ => true
  | _ :: _, [] => false
  | d :: t', c :: s' => bool_decide (c = d) && startsWith s' t'
  end.

(** [s.includes(t)]: [t] occurs in [s] as a contiguous run. *)
Fixpoint includes (s t : jsstring) : bool :=
  startsWith s t ||
  match s with
  | [] => false
  | _ :: s' => includes s' t
  end.

Definition endsWith (s t : jsstring) : bool :=
  startsWith (reverse s) (reverse t).

(** [s.split(/[...]+/)] for a character class [sep]: the pieces between
    maximal runs of separators.  A run at the very start or end leaves an
    empty first or last piece, and the empty string splits into [[""]].
    [inRun] records that the previous code unit was a separator. *)
Fixpoint split_go (sep : N → bool) (inRun : bool) (cur : jsstring)
    (s : jsstring) : list jsstring :=
  match s with
  | [] => [cur]
  | c :: s' =>
      if sep c then
        if inRun then split_go sep true cur s'
        else cur :: split_go sep true [] s'
      else split_go sep false (cur ++ [c]) s'
  end.

Definition split (sep : N → bool) (s : jsstring) : list jsstring :=
  split_go sep false [] s.

(** [arr.join(",")]. *)
Fixpoint join_comma (fields : list jsstring) : jsstring :=
  match fields with
  | [] => []
  | [f] => f
  | f :: rest => f ++ [44%N] ++ join_comma rest
  end.

(** [parseInt(s)] without a radix: leading white space, an optional sign,
    an optional [0x] prefix, then the longest run of digits.  [None] is
    [NaN].  (Values beyond 2^53 are rounded by JavaScript; not here.) *)
Definition digitValue (c : N) : option Z :=
  if ((48 <=? c) && (c <=? 57))%N then Some (Z.of_N c - 48)
  else if ((97 <=? c) && (c <=? 122))%N then Some (Z.of_N c - 87)
  else if ((65 <=? c) && (c <=? 90))%N then Some (Z.of_N c - 55)
  else None.

Fixpoint parseDigits (radix : Z) (acc : option Z) (s : jsstring) : option Z :=
  match s with
  | [] => acc
  | c :: s' =>
      match digitValue c with
      | Some d =>
          if d <? radix then parseDigits radix (Some (default 0 acc * radix + d)) s'
          else acc
      | None => acc
      end
  end.

Definition parseInt (s : jsstring) : option Z :=
  let s1 := trimStart s in
  let '(sign, s2) :=
    match s1 with
    | 45%N :: r => (-1, r)
    | 43%N :: r => (1, r)
    | _ => (1, s1)
    end in
  let '(radix, s3) :=
    match s2 with
    | 48%N :: 120%N :: r => (16, r)
    | 48%N :: 88%N :: r => (16, r)
    | _ => (10, s2)
    end in
  (λ v, sign * v) <$> parseDigits radix None s3.

(** *** [levenshtein] (App, lines 10-27)

    The table is an array of [b.length + 1] rows of [a.length + 1] cells,
    every cell [null] at first; [None] is [null], which reads as [0] in
    arithmetic. *)

Definition new_matrix (a b : jsstring) : list (list (option nat)) :=
  replicate (length b + 1) (replicate (length a + 1) None).

(** [matrix[j][i]] read as a number. *)
Definition mget (M : list (list (option nat))) (j i : nat) : nat :=
  match M !! j with
  | Some row => match row !! i with Some (Some v) => v | _ => 0%nat end
  | None => 0%nat
  end.

(** [matrix[j][i] = v]. *)
Definition mset (M : list (list (option nat))) (j i v : nat)
    : list (list (option nat)) :=
  alter (λ row, <[i := Some v]> row) j M.

(** [a[i - 1] === b[j - 1] ? 0 : 1]. *)
Definition indicator (a b : jsstring) (i j : nat) : nat :=
  if decide (a !! (i - 1)%nat = b !! (j - 1)%nat) then 0%nat else 1%nat.

(** The body of the inner loop. *)
Definition fill_cell (a b : jsstring) (j : nat)
    (M : list (list (option nat))) (i : nat) : list (list (option nat)) :=
  mset M j i
    (Nat.min (mget M j (i - 1) + 1)
       (Nat.min (mget M (j - 1) i + 1)
          (mget M (j - 1) (i - 1) + indicator a b i j))).

Definition levenshtein (a b : jsstring) : nat :=
  let M0 := new_matrix a b in
  let M1 := foldl (λ M i, mset M 0 i i) M0 (seq 0 (length a + 1)) in
  let M2 := foldl (λ M j, mset M j 0 j) M1 (seq 0 (length b + 1)) in
  let M3 := foldl (λ M j, foldl (fill_cell a b j) M (seq 1 (length a)))
              M2 (seq 1 (length b)) in
  mget M3 (length b) (length a).

(** *** [fuzzyMatch] (App, lines 29-60) *)

(** The class [[\s\-_：:，,。]]. *)
Definition isWordSeparator (c : N) : bool :=
  isWhiteSpace c
  || bool_decide (c ∈ [45; 95; 65306; 58; 65292; 44; 12290]%N).

Definition lengthDiff (s t : jsstring) : Z :=
  Z.abs (Z.of_nat (length s) - Z.of_nat (length t)).

Section FuzzyMatch.
Variable toLowerCase : jsstring → jsstring.

Definition fuzzyMatch (text : option jsstring) (search : jsstring) : bool :=
  match search with
  | [] => true
  | _ :: _ =>
      match text with
      | None | Some [] => false
      | Some ((_ :: _) as text) =>
          let cleanText := toLowerCase text in
          let cleanSearch := toLowerCase search in
          if includes cleanText cleanSearch then true
          else if (length cleanSearch <? 2)%nat then false
          else
            let maxErrors := if (4 <? length cleanSearch)%nat then 2 else 1 in
            if (lengthDiff cleanText cleanSearch <=? maxErrors + 1)
               && (Z.of_nat (levenshtein cleanText cleanSearch) <=? maxErrors)
            then true
            else
              let words := split isWordSeparator cleanText in
              existsb
                (λ word,
                   if maxErrors <? lengthDiff word cleanSearch then false
                   else Z.of_nat (levenshtein cleanSearch word) <=? maxErrors)
                words
      end
  end.
End FuzzyMatch.

(** *** Records (types.ts) *)

Inductive MovieStatus := WATCHED | PLANNING | DROPPED | WATCHING.

Inductive MediaType := movie | tv.

#[global] Instance MovieStatus_eq_dec : EqDecision MovieStatus.
Proof. solve_decision. Defined.

#[global] Instance MediaType_eq_dec : EqDecision MediaType.
Proof. solve_decision. Defined.

(** [genre] and [mediaType] are declared mandatory, but the code tests both
    for absence ([!m.genre], [!m.mediaType]): records saved before the
    fields existed, or imported without them, lack them. *)
Record Movie := mkMovie {
  id : jsstring;
  title : jsstring;
  year : jsstring;
  country : option jsstring;
  genre : option jsstring;
  director : option jsstring;
  rating : Z;
  status : MovieStatus;
  review : jsstring;
  posterColor : jsstring;
  posterImage : option jsstring;
  addedAt : Z;
  lastUpdated : Z;
  mediaType : option MediaType;
  currentEpisode : option Z;
  totalEpisodes : option Z;
  duration : option Z
}.

#[global] Instance Movie_eq_dec : EqDecision Movie.
Proof. solve_decision. Defined.

(** [x || d] for a number [x] ([0] is falsy) and for a possibly undefined
    number. *)
Definition numOr (x d : Z) : Z := if x =? 0 then d else x.

Definition optNumOr (x : option Z) (d : Z) : Z :=
  match x with
  | Some v => numOr v d
  | None => d
  end.

(** [!s] for a possibly undefined string: undefined and the empty string
    are falsy. *)
Definition isBlank (s : option jsstring) : bool :=
  match s with
  | None | Some [] => true
  | Some (_ :: _) => false
  end.

(** *** The record set and its mutations (App, lines 146-210) *)

(** [{...movieData, id: uuid, addedAt: movieData.addedAt || now,
    lastUpdated: now}]; [uuid] is the result of [crypto.randomUUID()] and
    [now] of [Date.now()]. *)
Definition newMovie (uuid : jsstring) (now : Z) (movieData : Movie) : Movie :=
  mkMovie uuid (title movieData) (year movieData) (country movieData)
    (genre movieData) (director movieData) (rating movieData)
    (status movieData) (review movieData) (posterColor movieData)
    (posterImage movieData) (numOr (addedAt movieData) now) now
    (mediaType movieData) (currentEpisode movieData)
    (totalEpisodes movieData) (duration movieData).

Definition handleAddMovie (uuid : jsstring) (now : Z) (movieData : Movie)
    (prev : list Movie) : list Movie :=
  newMovie uuid now movieData :: prev.

(** [{...m, ...movieData, lastUpdated: now}] for the object the form
    submits, which carries every key of a record but [lastUpdated] (its
    [id] is the id of the record being edited), so every other field of
    [m] is overwritten. *)
Definition updatedMovie (now : Z) (m movieData : Movie) : Movie :=
  mkMovie (id movieData) (title movieData) (year movieData)
    (country movieData) (genre movieData) (director movieData)
    (rating movieData) (status movieData) (review movieData)
    (posterColor movieData) (posterImage movieData) (addedAt movieData) now
    (mediaType movieData) (currentEpisode movieData)
    (totalEpisodes movieData) (duration movieData).

Definition handleUpdateMovie (now : Z) (movieData : Movie)
    (prev : list Movie) : list Movie :=
  (λ m, if decide (id m = id movieData) then updatedMovie now m movieData
        else m) <$> prev.

(** [confirmed] is the answer to [window.confirm]. *)
Definition handleDeleteMovie (confirmed : bool) (id0 : jsstring)
    (prev : list Movie) : list Movie :=
  if confirmed then filter (λ m, id m ≠ id0) prev else prev.

Definition handleBulkDelete (confirmed : bool) (selectedIds : gset jsstring)
    (prev : list Movie) : list Movie :=
  if decide (size selectedIds = 0%nat) then prev
  else if confirmed then filter (λ m, id m ∉ selectedIds) prev
  else prev.

(** *** CSV fields (App, lines 216-223 and 284-306) *)

Definition escapeCsv (s : option jsstring) : jsstring :=
  match s with
  | None | Some [] => []
  | Some ((_ :: _) as stringValue) =>
      if includes stringValue [44%N] || includes stringValue [34%N]
         || includes stringValue [10%N]
      then [34%N]
           ++ flat_map (λ c, if decide (c = 34%N) then [34%N; 34%N] else [c])
                stringValue
           ++ [34%N]
      else stringValue
  end.

(** The loop of [parseCSVLine] over the remaining text; the look-ahead
    [text[i + 1]] is the head of the rest, and [i++] drops it. *)
Fixpoint parseCSVLine_go (text : jsstring) (result : list jsstring)
    (current : jsstring) (inQuote : bool) : list jsstring :=
  match text with
  | [] => result ++ [current]
  | char :: rest =>
      if decide (char = 34%N) then
        match rest with
        | next :: rest' =>
            if inQuote && bool_decide (next = 34%N)
            then parseCSVLine_go rest' result (current ++ [34%N]) inQuote
            else parseCSVLine_go rest result current (negb inQuote)
        | [] => parseCSVLine_go rest result current (negb inQuote)
        end
      else if bool_decide (char = 44%N) && negb inQuote then
        parseCSVLine_go rest (result ++ [current]) [] inQuote
      else parseCSVLine_go rest result (current ++ [char]) inQuote
  end.

Definition parseCSVLine (text : jsstring) : list jsstring :=
  parseCSVLine_go text [] [] false.

(** *** Export (App, lines 213-261) *)

Inductive ExportFormat := json | csv.

(** The enum values of [MovieStatus]: 已看, 想看, 弃坑, 在看. *)
Definition statusText (s : MovieStatus) : jsstring :=
  match s with
  | WATCHED => [24050; 30475]%N
  | PLANNING => [24819; 30475]%N
  | DROPPED => [24323; 22353]%N
  | WATCHING => [22312; 30475]%N
  end.

(** ID, 标题, 年份, 国家/地区, 类型, 导演, 评分, 状态, 评价, 添加时间,
    最后更新, 媒体类型, 当前集数, 总集数, 时长. *)
Definition headers : list jsstring :=
  [ [73; 68]; [26631; 39064]; [24180; 20221];
    [22269; 23478; 47; 22320; 21306]; [31867; 22411]; [23548; 28436];
    [35780; 20998]; [29366; 24577]; [35780; 20215];
    [28155; 21152; 26102; 38388]; [26368; 21518; 26356; 26032];
    [23186; 20307; 31867; 22411]; [24403; 21069; 38598; 25968];
    [24635; 38598; 25968]; [26102; 38271] ]%N.

(** [lines.join("\n")]. *)
Fixpoint join_lines (lines : list jsstring) : jsstring :=
  match lines with
  | [] => []
  | [l] => l
  | l :: rest => l ++ [10%N] ++ join_lines rest
  end.

Section ExportFile.
(** [String(n)] for a number, [new Date(t).toLocaleString('zh-CN')],
    [JSON.stringify(movies, null, 2)]. *)
Variable numberToString : Z → jsstring.
Variable toLocaleString : Z → jsstring.
Variable JSON_stringify : list Movie → jsstring.

(** [n || ''] joined into a row. *)
Definition numberOrEmpty (n : option Z) : jsstring :=
  match n with
  | Some v => if v =? 0 then [] else numberToString v
  | None => []
  end.

Definition csvRow (m : Movie) : list jsstring :=
  [ id m; escapeCsv (Some (title m)); escapeCsv (Some (year m));
    escapeCsv (country m); escapeCsv (genre m); escapeCsv (director m);
    numberToString (rating m); statusText (status m);
    escapeCsv (Some (review m)); toLocaleString (addedAt m);
    toLocaleString (lastUpdated m);
    (if decide (mediaType m = Some tv) then [30005; 35270; 21095]%N
     else [30005; 24433]%N);
    numberOrEmpty (currentEpisode m); numberOrEmpty (totalEpisodes m);
    numberOrEmpty (duration m) ].

Definition convertToCSV (data : list Movie) : jsstring :=
  join_lines (join_comma headers :: (join_comma ∘ csvRow <$> data)).

(** The downloaded file: its name and its content.  [today] is
    [new Date().toISOString().split('T')[0]]. *)
Definition handleExport (format : ExportFormat) (today : jsstring)
    (movies : list Movie) : jsstring * jsstring :=
  let '(content, extension) :=
    match format with
    | json => (JSON_stringify movies, str "json")
    | csv => (65279%N :: convertToCSV movies, str "csv")
    end in
  (str "cinelog_backup_" ++ today ++ str "." ++ extension, content).
End ExportFile.

(** *** Import (App, lines 308-407) *)

(** What [JSON.parse] makes of a text: it throws, or yields a value that is
    not an array, or an array (of records). *)
Inductive JsonParsed :=
  | JsonThrows
  | JsonNotArray
  | JsonArray (parsed : list Movie).

(** The message shown at the end of an import. *)
Inductive ImportAlert :=
  | AlertImported (imported skipped : nat)
  | AlertNoNewRecords
  | AlertNotArray
  | AlertUnsupported
  | AlertFailed.

(** Lines 390-399: the merge of a candidate batch into the record set. *)
Definition mergeImport (movies newMovies : list Movie)
    : list Movie * ImportAlert :=
  let currentIds : gset jsstring := list_to_set (id <$> movies) in
  let uniqueNewMovies := filter (λ m, id m ∉ currentIds) newMovies in
  if (0 <? length uniqueNewMovies)%nat then
    (uniqueNewMovies ++ movies,
     AlertImported (length uniqueNewMovies)
       (length newMovies - length uniqueNewMovies))
  else (movies, AlertNoNewRecords).

Section ImportFile.
Variable JSON_parse : jsstring → JsonParsed.
(** The rows decoded from a delimited text (lines 327-384), [None] when the
    decoding throws. *)
Variable decodeCsv : jsstring → option (list Movie).

Definition handleFileChange (fileName content : jsstring)
    (movies : list Movie) : list Movie * ImportAlert :=
  if endsWith fileName (str ".json") then
    match JSON_parse content with
    | JsonArray parsed => mergeImport movies parsed
    | JsonNotArray => (movies, AlertNotArray)
    | JsonThrows => (movies, AlertFailed)
    end
  else if endsWith fileName (str ".csv") then
    match decodeCsv content with
    | Some newMovies => mergeImport movies newMovies
    | None => (movies, AlertFailed)
    end
  else (movies, AlertUnsupported).
End ImportFile.

(** *** Arrays *)

(** [arr.slice(start, end)], with its treatment of negative and
    out-of-range indices. *)
Definition slice {A} (arr : list A) (start end_ : Z) : list A :=
  let len := Z.of_nat (length arr) in
  let k := if start <? 0 then Z.max (len + start) 0 else Z.min start len in
  let final := if end_ <? 0 then Z.max (len + end_) 0 else Z.min end_ len in
  take (Z.to_nat (final - k)) (drop (Z.to_nat k) arr).

(** [arr.sort(cmp)]: the sort is stable, so for a consistent comparator the
    result is the one of an insertion sort that keeps an element before the
    later elements it does not exceed. *)
Fixpoint sort_insert {A} (cmp : A → A → Z) (x : A) (sorted : list A) : list A :=
  match sorted with
  | [] => [x]
  | y :: rest =>
      if cmp x y <=? 0 then x :: y :: rest
      else y :: sort_insert cmp x rest
  end.

Fixpoint array_sort {A} (cmp : A → A → Z) (arr : list A) : list A :=
  match arr with
  | [] => []
  | x :: rest => sort_insert cmp x (array_sort cmp rest)
  end.

(** *** Sorting (App, lines 455-478) *)

Inductive SortField := ByAddedAt | ByRating | ByYear | ByTitle.

Inductive SortDirection := asc | desc.

Record SortConfig := mkSortConfig {
  field : SortField;
  direction : SortDirection
}.

(** [if (valA < valB) return -1; if (valA > valB) return 1; return 0]. *)
Definition compareValues (valA valB : Z) : Z :=
  if valA <? valB then -1 else if valA >? valB then 1 else 0.

Section Sorting.
(** [a.localeCompare(b, 'zh-CN')]. *)
Variable localeCompare : jsstring → jsstring → Z.

Definition compareMovies (field : SortField) (a b : Movie) : Z :=
  match field with
  | ByYear =>
      optNumOr (parseInt (year a)) 0 - optNumOr (parseInt (year b)) 0
  | ByTitle => localeCompare (title a) (title b)
  | ByAddedAt => compareValues (addedAt a) (addedAt b)
  | ByRating => compareValues (rating a) (rating b)
  end.

Definition sortedMovies (sortConfig : SortConfig)
    (filteredMovies : list Movie) : list Movie :=
  let data := array_sort (compareMovies (field sortConfig)) filteredMovies in
  match direction sortConfig with
  | asc => data
  | desc => reverse data
  end.
End Sorting.

(** *** Pagination (App, lines 481-491) *)

Record PageState := mkPageState {
  currentPage : Z;
  itemsPerPage : Z
}.

(** [Math.ceil(n / size)] for a positive [size]. *)
Definition ceilDiv (n size : Z) : Z := - ((- n) / size).

Definition indexOfLastItem (st : PageState) : Z :=
  currentPage st * itemsPerPage st.

Definition indexOfFirstItem (st : PageState) : Z :=
  indexOfLastItem st - itemsPerPage st.

Definition currentDisplayedMovies {A} (st : PageState) (sorted : list A)
    : list A :=
  slice sorted (indexOfFirstItem st) (indexOfLastItem st).

Definition totalPages {A} (st : PageState) (sorted : list A) : Z :=
  ceilDiv (Z.of_nat (length sorted)) (itemsPerPage st).

Definition handlePageChange {A} (page : Z) (st : PageState)
    (sorted : list A) : PageState :=
  if (1 <=? page) && (page <=? totalPages st sorted)
  then mkPageState page (itemsPerPage st)
  else st.

(** *** Statistics (Stats.tsx, lines 98-136)

    The functions take [filteredMovies], the records of the selected time
    frame. *)

(** [!m.mediaType || m.mediaType === 'movie']. *)
Definition isMovie (m : Movie) : bool :=
  match mediaType m with
  | None | Some movie => true
  | Some tv => false
  end.

Definition movieCount (filteredMovies : list Movie) : nat :=
  length (filter (λ m, isMovie m) filteredMovies).

Definition movieDuration (filteredMovies : list Movie) : Z :=
  foldl (λ sum m, sum + optNumOr (duration m) 0) 0
    (filter (λ m, isMovie m) filteredMovies).

Definition tvEntries (filteredMovies : list Movie) : list Movie :=
  filter (λ m, mediaType m = Some tv) filteredMovies.

Definition uniqueTvTitles (filteredMovies : list Movie) : gset jsstring :=
  list_to_set (trim ∘ title <$> tvEntries filteredMovies).

Definition tvCount (filteredMovies : list Movie) : nat :=
  size (uniqueTvTitles filteredMovies).

(** The values of [tvCalcMap]: [{ maxEp, duration }]. *)
Record TvCalc := mkTvCalc {
  maxEp : Z;
  epDuration : Z
}.

(** The body of [tvEntries.forEach]. *)
Definition tvCalcStep (tvCalcMap : gmap jsstring TvCalc) (m : Movie)
    : gmap jsstring TvCalc :=
  let title := trim (title m) in
  let ep := optNumOr (currentEpisode m) 0 in
  let dur := optNumOr (duration m) 0 in
  let existing := default (mkTvCalc 0 0) (tvCalcMap !! title) in
  <[title := mkTvCalc (Z.max (maxEp existing) ep)
                      (numOr dur (epDuration existing))]> tvCalcMap.

Definition tvCalcMap (filteredMovies : list Movie) : gmap jsstring TvCalc :=
  foldl tvCalcStep ∅ (tvEntries filteredMovies).

(** [Array.from(tvCalcMap.values())]; the sums below do not depend on the
    order of the values. *)
Definition tvCalcValues (filteredMovies : list Movie) : list TvCalc :=
  (map_to_list (tvCalcMap filteredMovies)).*2.

Definition totalEpisodesWatched (filteredMovies : list Movie) : Z :=
  foldl (λ sum item, sum + maxEp item) 0 (tvCalcValues filteredMovies).

Definition tvDuration (filteredMovies : list Movie) : Z :=
  foldl (λ sum item, sum + maxEp item * epDuration item) 0
    (tvCalcValues filteredMovies).

Definition totalMinutes (filteredMovies : list Movie) : Z :=
  movieDuration filteredMovies + tvDuration filteredMovies.

(** [{ hours: Math.floor(totalMinutes / 60), minutes: totalMinutes % 60 }]. *)
Definition totalDurationFormatted (filteredMovies : list Movie) : Z * Z :=
  (totalMinutes filteredMovies / 60, Z.rem (totalMinutes filteredMovies) 60).

(** *** The genre histogram (Stats.tsx, lines 179-195)

    [genreCounts] is an object used as a dictionary from genre to count; it
    is the list of its own properties in creation order.  (Tokens are taken
    not to name a member that every object inherits, such as [constructor].) *)

Fixpoint obj_get (o : list (jsstring * Z)) (k : jsstring) : option Z :=
  match o with
  | [] => None
  | (k', v) :: o' => if decide (k = k') then Some v else obj_get o' k
  end.

Fixpoint obj_set (o : list (jsstring * Z)) (k : jsstring) (v : Z)
    : list (jsstring * Z) :=
  match o with
  | [] => [(k, v)]
  | (k', v') :: o' =>
      if decide (k = k') then (k, v) :: o' else (k', v') :: obj_set o' k v
  end.

(** A key that is an array index: a canonical decimal numeral below
    [2^32 - 1]. *)
Definition arrayIndex (k : jsstring) : option Z :=
  match k with
  | [] => None
  | [48%N] => Some 0
  | c :: _ =>
      if bool_decide (c = 48%N) then None
      else if forallb (λ d, (48 <=? d)%N && (d <=? 57)%N) k then
        match parseDigits 10 None k with
        | Some n => if n <? 4294967295 then Some n else None
        | None => None
        end
      else None
  end.

(** [Object.entries(o)]: the array-index keys in ascending order, then the
    other keys in creation order. *)
Definition Object_entries (o : list (jsstring * Z)) : list (jsstring * Z) :=
  array_sort
    (λ e1 e2, default 0 (arrayIndex e1.1) - default 0 (arrayIndex e2.1))
    (filter (λ e, is_Some (arrayIndex e.1)) o)
  ++ filter (λ e, ¬ is_Some (arrayIndex e.1)) o.

(** The class [[,，/、\s]]. *)
Definition isGenreSeparator (c : N) : bool :=
  bool_decide (c ∈ [44; 65292; 47; 12289]%N) || isWhiteSpace c.

(** [m.genre.split(/[,，/、\s]+/).filter(g => g.trim().length > 0)]. *)
Definition genreTokens (genre : jsstring) : list jsstring :=
  filter (λ g, (0 < length (trim g))%nat) (split isGenreSeparator genre).

(** [genreCounts[g] = (genreCounts[g] || 0) + 1]. *)
Definition countGenre (genreCounts : list (jsstring * Z)) (g : jsstring)
    : list (jsstring * Z) :=
  obj_set genreCounts g (optNumOr (obj_get genreCounts g) 0 + 1).

(** 未知. *)
Definition unknownGenre : jsstring := [26410; 30693]%N.

(** The body of [filteredMovies.forEach]. *)
Definition genreCountsStep (genreCounts : list (jsstring * Z)) (m : Movie)
    : list (jsstring * Z) :=
  match genre m with
  | None | Some [] => countGenre genreCounts unknownGenre
  | Some ((_ :: _) as g) => foldl countGenre genreCounts (genreTokens g)
  end.

Definition genreCounts (filteredMovies : list Movie) : list (jsstring * Z) :=
  foldl genreCountsStep [] filteredMovies.


(** ** Part I, continued. More of the application *)

(** *** Selection (App, lines 176-200) *)

Record SelectionState := mkSelectionState {
  isSelectionMode : bool;
  selectedIds : gset jsstring
}.

Definition toggleSelectionMode (st : SelectionState) : SelectionState :=
  mkSelectionState (negb (isSelectionMode st)) ∅.

Definition toggleSelectMovie (id0 : jsstring) (selectedIds : gset jsstring)
    : gset jsstring :=
  if decide (id0 ∈ selectedIds) then selectedIds ∖ {[id0]}
  else selectedIds ∪ {[id0]}.

Definition handleSelectAll (selectedIds : gset jsstring)
    (sortedMovies : list Movie) : gset jsstring :=
  if decide (size selectedIds = length sortedMovies) then ∅
  else list_to_set (id <$> sortedMovies).

(** *** Strings, continued *)

(** [s.split(c)] for a one-unit separator string: the pieces between the
    occurrences of [c], empty pieces included. *)
Fixpoint splitChar_go (c : N) (cur : jsstring) (s : jsstring) : list jsstring :=
  match s with
  | [] => [cur]
  | d :: s' =>
      if decide (d = c) then cur :: splitChar_go c [] s'
      else splitChar_go c (cur ++ [d]) s'
  end.

Definition splitChar (c : N) (s : jsstring) : list jsstring :=
  splitChar_go c [] s.

(** [s.replace(pattern, '')] for a string pattern: the first occurrence is
    removed. *)
Fixpoint removeFirst (pattern s : jsstring) : jsstring :=
  if startsWith s pattern then drop (length pattern) s
  else match s with
       | [] => []
       | c :: s' => c :: removeFirst pattern s'
       end.

(** [s.padStart(2, '0')]. *)
Definition padStart2 (s : jsstring) : jsstring :=
  replicate (2 - length s) 48%N ++ s.

(** *** Filtering (App, lines 415-453) *)

Record FilterConfig := mkFilterConfig {
  searchTerm : jsstring;
  filterStatus : jsstring;
  dateFilter : jsstring;
  filterCountry : jsstring
}.

(** 全部. *)
Definition allStatuses : jsstring := [20840; 37096]%N.

Section Filtering.
Variable toLowerCase : jsstring → jsstring.
(** [String(n)], and for a time value [t] the local calendar year
    [new Date(t).getFullYear()] and month [new Date(t).getMonth()]. *)
Variable numberToString : Z → jsstring.
Variable getFullYear : Z → Z.
Variable getMonth : Z → Z.
(** The time values of [cutoff] after [cutoff.setDate(now.getDate() - 7)]
    and after [cutoff.setDate(now.getDate() - 30)]. *)
Variable cutoff7 : Z.
Variable cutoff30 : Z.

Definition matchesSearch (searchTerm : jsstring) (m : Movie) : bool :=
  fuzzyMatch toLowerCase (Some (title m)) searchTerm
  || fuzzyMatch toLowerCase (genre m) searchTerm.

Definition matchesStatus (filterStatus : jsstring) (m : Movie) : bool :=
  bool_decide (filterStatus = allStatuses)
  || bool_decide (statusText (status m) = filterStatus).

Definition matchesDate (dateFilter : jsstring) (m : Movie) : bool :=
  if bool_decide (dateFilter = str "all") then true
  else if bool_decide (dateFilter = str "7d") then cutoff7 <=? addedAt m
  else if bool_decide (dateFilter = str "30d") then cutoff30 <=? addedAt m
  else if startsWith dateFilter (str "year_") then
    match parseInt (default [] (splitChar 95%N dateFilter !! 1%nat)) with
    | Some year => getFullYear (addedAt m) =? year
    | None => false
    end
  else if startsWith dateFilter (str "month_") then
    let targetYM := removeFirst (str "month_") dateFilter in
    let movieYM :=
      numberToString (getFullYear (addedAt m)) ++ str "-"
      ++ padStart2 (numberToString (getMonth (addedAt m) + 1)) in
    bool_decide (targetYM = movieYM)
  else true.

(** [filterCountry === 'all' || (movie.country &&
    movie.country.includes(filterCountry))], as a condition. *)
Definition matchesCountry (filterCountry : jsstring) (m : Movie) : bool :=
  bool_decide (filterCountry = str "all")
  || match country m with
     | None | Some [] => false
     | Some ((_ :: _) as c) => includes c filterCountry
     end.

Definition filteredMovies (cfg : FilterConfig) (movies : list Movie)
    : list Movie :=
  filter
    (λ m, matchesSearch (searchTerm cfg) m && matchesStatus (filterStatus cfg) m
          && matchesDate (dateFilter cfg) m
          && matchesCountry (filterCountry cfg) m)
    movies.
End Filtering.

(** *** Country options (App, lines 132-144) *)

(** [countries.add(c)] for a [Set] kept in insertion order. *)
Definition set_add {A} `{EqDecision A} (s : list A) (x : A) : list A :=
  if decide (x ∈ s) then s else s ++ [x].

(** The body of [movies.forEach]; the class of separators is that of the
    genre field. *)
Definition addCountries (countries : list jsstring) (m : Movie)
    : list jsstring :=
  match country m with
  | None | Some [] => countries
  | Some ((_ :: _) as c) =>
      foldl (λ cs part, match part with [] => cs | _ :: _ => set_add cs part end)
        countries (trim <$> split isGenreSeparator c)
  end.

Section CountryOptions.
Variable localeCompare : jsstring → jsstring → Z.

Definition countryOptions (movies : list Movie) : list jsstring :=
  array_sort localeCompare (foldl addCountries [] movies).
End CountryOptions.

(** *** Date options (App, lines 114-129) *)

Section DateOptions.
Variable numberToString : Z → jsstring.
Variables getFullYear getMonth : Z → Z.
Variable localeCompare : jsstring → jsstring → Z.

(** [yearsSet] and [monthsSet] after [movies.forEach]. *)
Definition dateOptionSets (movies : list Movie) : list Z * list jsstring :=
  foldl (λ sets m,
           let monthStr :=
             numberToString (getFullYear (addedAt m)) ++ str "-"
             ++ padStart2 (numberToString (getMonth (addedAt m) + 1)) in
           (set_add sets.1 (getFullYear (addedAt m)), set_add sets.2 monthStr))
    ([], []) movies.

(** [{ years: sortedYears, months: sortedMonths }]. *)
Definition dateOptions (movies : list Movie) : list Z * list jsstring :=
  let sets := dateOptionSets movies in
  (array_sort (λ a b, b - a) sets.1,
   array_sort (λ a b, localeCompare b a) sets.2).
End DateOptions.

(** *** Status and rating histograms (Stats.tsx, lines 69-96) *)

Definition total (filteredMovies : list Movie) : nat := length filteredMovies.

(** [acc[m.status] = (acc[m.status] || 0) + 1], over the records. *)
Definition statusCounts (filteredMovies : list Movie) : list (jsstring * Z) :=
  foldl (λ acc m, countGenre acc (statusText (status m))) [] filteredMovies.

(** [Object.keys(statusCounts).map(status => ({ name: status, value:
    statusCounts[status] }))]. *)
Definition statusData (filteredMovies : list Movie) : list (jsstring * Z) :=
  (λ name, (name, default 0 (obj_get (statusCounts filteredMovies) name)))
    <$> (Object_entries (statusCounts filteredMovies)).*1.



Definition totalRating (filteredMovies : list Movie) : Z :=
  foldl (λ sum m, sum + rating m) 0 filteredMovies.


(** *** The time frame of the statistics panel (Stats.tsx, lines 14-54) and
    the trend chart (lines 139-176)

    The panel's own names ([filteredMovies], [years]) live in a module of
    their own. *)

(** [keys.sort()] without a comparator orders strings by their code
    units. *)
Fixpoint codeUnitCompare (a b : jsstring) : Z :=
  match a, b with
  | [], [] => 0
  | [], _ :: _ => -1
  | _ :: _, [] => 1
  | x :: a', y :: b' =>
      if (x <? y)%N then -1
      else if (y <? x)%N then 1
      else codeUnitCompare a' b'
  end.

Module Stats.

Inductive TimeFrame := all | year | month.

Section Panel.
(** [String(n)], the calendar fields of [new Date(t)] in local time, and
    [a.localeCompare(b)]. *)
Variable numberToString : Z → jsstring.
Variables getFullYear getMonth getDate : Z → Z.
Variable localeCompare : jsstring → jsstring → Z.
(** [new Date(y, m, 0).getDate()] for [[y, m] =
    selectedMonth.split('-').map(Number)]: the number of days of the
    selected month, and no number (here [0]: the loop over the days does
    not run) when the selection does not read as a year and a month. *)
Variable daysInMonth : jsstring → Z.

(** [d.getFullYear().toString()]. *)
Definition yearOf (m : Movie) : jsstring :=
  numberToString (getFullYear (addedAt m)).

(** [`${d.getFullYear()}-${String(d.getMonth() + 1).padStart(2, '0')}`]. *)
Definition monthOf (m : Movie) : jsstring :=
  numberToString (getFullYear (addedAt m)) ++ str "-"
  ++ padStart2 (numberToString (getMonth (addedAt m) + 1)).

(** Lines 24-38: the years and months offered, as the pair
    [(years, months)]. *)
Definition dateSets (movies : list Movie) : list jsstring * list jsstring :=
  foldl (λ sets m, (set_add sets.1 (yearOf m), set_add sets.2 (monthOf m)))
    ([], []) movies.

Definition years (movies : list Movie) : list jsstring :=
  array_sort (λ a b, localeCompare b a) (dateSets movies).1.

Definition months (movies : list Movie) : list jsstring :=
  array_sort (λ a b, localeCompare b a) (dateSets movies).2.

(** Lines 41-54. *)
Definition inTimeFrame (timeFrame : TimeFrame)
    (selectedYear selectedMonth : jsstring) (movie : Movie) : bool :=
  match timeFrame with
  | all => true
  | year => bool_decide (yearOf movie = selectedYear)
  | month => bool_decide (monthOf movie = selectedMonth)
  end.

Definition filteredMovies (timeFrame : TimeFrame)
    (selectedYear selectedMonth : jsstring) (movies : list Movie)
    : list Movie :=
  filter (λ movie, inTimeFrame timeFrame selectedYear selectedMonth movie)
    movies.

(** [trendMap.set(key, (trendMap.get(key) || 0) + 1)]; the [Map] is the
    list of its entries in insertion order. *)
Definition bump (trendMap : list (jsstring * Z)) (key : jsstring)
    : list (jsstring * Z) :=
  obj_set trendMap key (optNumOr (obj_get trendMap key) 0 + 1).

(** [for (let i = 1; i <= n; i++) trendMap.set(i.toString(), 0)]. *)
Definition zeroed (n : Z) : list (jsstring * Z) :=
  foldl (λ trendMap i, obj_set trendMap (numberToString i) 0) [] (seqZ 1 n).

(** Lines 139-171: the map of counts and the chart's labels with their
    keys.  日, 月 and 年 end the labels of days, months and years. *)
Definition trendMap (timeFrame : TimeFrame) (selectedMonth : jsstring)
    (filteredMovies : list Movie) : list (jsstring * Z) :=
  match timeFrame with
  | month =>
      foldl (λ tm mov, bump tm (numberToString (getDate (addedAt mov))))
        (zeroed (daysInMonth selectedMonth)) filteredMovies
  | year =>
      foldl (λ tm mov, bump tm (numberToString (getMonth (addedAt mov) + 1)))
        (zeroed 12) filteredMovies
  | all =>
      foldl (λ tm mov, bump tm (numberToString (getFullYear (addedAt mov))))
        [] filteredMovies
  end.

Definition trendFormat (timeFrame : TimeFrame) (selectedMonth : jsstring)
    (filteredMovies : list Movie) : list (jsstring * jsstring) :=
  let keys := (trendMap timeFrame selectedMonth filteredMovies).*1 in
  match timeFrame with
  | month => (λ k, (k ++ [26085%N], k)) <$> keys
  | year => (λ k, (k ++ [26376%N], k)) <$> keys
  | all => (λ y, (y ++ [24180%N], y)) <$> array_sort codeUnitCompare keys
  end.

(** Lines 173-176: [{ name: item.label, count: trendMap.get(item.key) || 0 }]. *)
Definition trendData (timeFrame : TimeFrame) (selectedMonth : jsstring)
    (filteredMovies : list Movie) : list (jsstring * Z) :=
  (λ item : jsstring * jsstring,
     (item.1,
      optNumOr (obj_get (trendMap timeFrame selectedMonth filteredMovies)
                  item.2) 0))
    <$> trendFormat timeFrame selectedMonth filteredMovies.
End Panel.

End Stats.

(** *** Reading a delimited file (App, lines 323-384) *)

(** [content.split(/\r?\n/)]: a line ends at a line feed, together with
    the carriage return before it when there is one. *)
Fixpoint splitLines_go (cur s : jsstring) : list jsstring :=
  match s with
  | [] => [cur]
  | c :: s' =>
      if decide (c = 10%N) then cur :: splitLines_go [] s'
      else if decide (c = 13%N) then
        match s' with
        | d :: s'' =>
            if decide (d = 10%N) then cur :: splitLines_go [] s''
            else splitLines_go (cur ++ [c]) s'
        | [] => splitLines_go (cur ++ [c]) s'
        end
      else splitLines_go (cur ++ [c]) s'
  end.

Definition splitLines (content : jsstring) : list jsstring :=
  splitLines_go [] content.

(** The row read from a line is an object, [movie: any]: the list of its
    properties, each a string, a number ([None] is [NaN]) or a time. *)
Inductive FieldValue :=
  | TextValue (s : jsstring)
  | NumberValue (x : option Z)
  | TimeValue (t : Z).

Fixpoint property {V} (o : list (jsstring * V)) (k : jsstring) : option V :=
  match o with
  | [] => None
  | (k', v) :: o' => if decide (k = k') then Some v else property o' k
  end.

Fixpoint assign {V} (o : list (jsstring * V)) (k : jsstring) (v : V)
    : list (jsstring * V) :=
  match o with
  | [] => [(k, v)]
  | (k', v') :: o' =>
      if decide (k = k') then (k, v) :: o' else (k', v') :: assign o' k v
  end.

(** The headers of [headers] above, each with the key it stands for.  (A
    header is taken not to name a member that every object inherits.) *)
Definition headerMap : list (jsstring * jsstring) :=
  [ ([73; 68]%N, str "id");
    ([26631; 39064]%N, str "title");
    ([24180; 20221]%N, str "year");
    ([22269; 23478; 47; 22320; 21306]%N, str "country");
    ([31867; 22411]%N, str "genre");
    ([23548; 28436]%N, str "director");
    ([35780; 20998]%N, str "rating");
    ([29366; 24577]%N, str "status");
    ([35780; 20215]%N, str "review");
    ([28155; 21152; 26102; 38388]%N, str "addedAt");
    ([26368; 21518; 26356; 26032]%N, str "lastUpdated");
    ([23186; 20307; 31867; 22411]%N, str "mediaType");
    ([24403; 21069; 38598; 25968]%N, str "currentEpisode");
    ([24635; 38598; 25968]%N, str "totalEpisodes");
    ([26102; 38271]%N, str "duration") ].

(** [keyIndex]: the recognised columns with their keys; [Object.keys]
    lists them by ascending index. *)
Definition keyIndex (headerRow : list jsstring) : list (nat * jsstring) :=
  omap (λ column : nat * jsstring,
          (λ key, (column.1, key)) <$> property headerMap column.2)
    (imap pair headerRow).

Section ReadCsv.
(** [parseFloat(s)], [Date.parse(s)] ([None] is [NaN]), and what
    [Date.now()] and [crypto.randomUUID()] return when they are called for
    the line [i] (and the column [idx]). *)
Variable parseFloat : jsstring → option Z.
Variable Date_parse : jsstring → option Z.
Variable Date_now : nat → nat → Z.
Variable randomUUID : nat → jsstring.

(** The value stored for [key] from the trimmed text [val] of a cell.
    电视剧 is the label of a series. *)
Definition cellValue (i idx : nat) (key val : jsstring) : FieldValue :=
  if bool_decide (key = str "rating") || bool_decide (key = str "currentEpisode")
     || bool_decide (key = str "totalEpisodes")
     || bool_decide (key = str "duration")
  then NumberValue (match val with [] => Some 0 | _ :: _ => parseFloat val end)
  else if bool_decide (key = str "addedAt")
          || bool_decide (key = str "lastUpdated")
  then TimeValue (match Date_parse val with
                  | Some ts => ts
                  | None => Date_now i idx
                  end)
  else if bool_decide (key = str "mediaType")
  then TextValue (if bool_decide (val = [30005; 35270; 21095]%N)
                  then str "tv" else str "movie")
  else TextValue val.

(** [!v] for a property that may be undefined. *)
Definition falsy (v : option FieldValue) : bool :=
  match v with
  | None => true
  | Some (TextValue s) => bool_decide (s = [])
  | Some (NumberValue x) => bool_decide (x = None ∨ x = Some 0)
  | Some (TimeValue t) => bool_decide (t = 0)
  end.

(** The body of the loop over the lines after the header; [None] is
    [continue]. *)
Definition readRow (keyIndex : list (nat * jsstring)) (i : nat)
    (line : jsstring) : option (list (jsstring * FieldValue)) :=
  let values := parseCSVLine line in
  if (length values <? 2)%nat then None
  else
    let movie :=
      foldl (λ movie (column : nat * jsstring),
               let idx := column.1 in
               let key := column.2 in
               let val := trim (default [] (values !! idx)) in
               assign movie key (cellValue i idx key val))
        [(str "posterColor", TextValue (str "#4f46e5"))] keyIndex in
    Some (if falsy (property movie (str "id"))
          then assign movie (str "id") (TextValue (randomUUID i))
          else movie).

(** The rows of a delimited text; [None] when the code throws, which it
    does when the text has no line that is not blank ([lines[0]] is
    undefined).  65279 is the byte order mark. *)
Definition readCsv (content : jsstring)
    : option (list (list (jsstring * FieldValue))) :=
  let lines := filter (λ line, trim line ≠ []) (splitLines content) in
  match lines with
  | [] => None
  | first :: rest =>
      let first' :=
        match first with
        | c :: r => if decide (c = 65279%N) then r else first
        | [] => first
        end in
      let headerRow := parseCSVLine first' in
      Some (omap (λ row, row)
              (imap (λ j line, readRow (keyIndex headerRow) (S j) line) rest))
  end.
End ReadCsv.

(** [String(m.id)] of a row read. *)
Definition rowId (movie : list (jsstring * FieldValue)) : jsstring :=
  match property movie (str "id") with
  | Some (TextValue s) => s
  | _ => []
  end.

(** *** The record form ([src/unnamed/part_000], the [MovieForm]
    component)

    The state of the form: the text inputs are strings, the episode and
    duration inputs included.  [formGenre] may be undefined, since the
    auto-fill copies the genre of a record that may lack one. *)

Record FormState := mkFormState {
  formTitle : jsstring;
  formYear : jsstring;
  formCountry : jsstring;
  formGenre : option jsstring;
  formDirector : jsstring;
  formRating : Z;
  formStatus : MovieStatus;
  formReview : jsstring;
  formPosterColor : jsstring;
  formPosterImage : jsstring;
  formWatchedDate : jsstring;
  formMediaType : MediaType;
  formCurrentEpisode : jsstring;
  formTotalEpisodes : jsstring;
  formDuration : jsstring
}.

(** The state before any effect has run (the [useState] defaults). *)
Definition emptyForm : FormState :=
  mkFormState [] [] [] (Some []) [] 0 WATCHED [] (str "#4f46e5") [] []
    movie [] [] [].

Section MovieForm.
Variable toLowerCase : jsstring → jsstring.
Variable numberToString : Z → jsstring.
Variables getFullYear getMonth getDate : Z → Z.
(** [new Date(watchedDate).getTime()] for the text of the date input. *)
Variable Date_getTime : jsstring → Z.

(** [`${d.getFullYear()}-${String(d.getMonth() + 1).padStart(2, '0')}-${
    String(d.getDate()).padStart(2, '0')}`]. *)
Definition dateStr (t : Z) : jsstring :=
  numberToString (getFullYear t) ++ str "-"
  ++ padStart2 (numberToString (getMonth t + 1)) ++ str "-"
  ++ padStart2 (numberToString (getDate t)).

(** [n ? n.toString() : ''] for an optional number. *)
Definition numberText (n : option Z) : jsstring :=
  match n with
  | Some v => if v =? 0 then [] else numberToString v
  | None => []
  end.

(** The effect that initialises the form (lines 40-69); [today] is the
    time of [new Date()]. *)
Definition initForm (initialData : option Movie) (today : Z)
    (st : FormState) : FormState :=
  match initialData with
  | Some d =>
      mkFormState (title d) (year d) (default [] (country d))
        (Some (default [] (genre d))) (default [] (director d)) (rating d)
        (status d) (review d)
        (match posterColor d with [] => str "#4f46e5" | _ :: _ => posterColor d end)
        (default [] (posterImage d))
        (if addedAt d =? 0 then formWatchedDate st else dateStr (addedAt d))
        (default movie (mediaType d))
        (numberText (currentEpisode d)) (numberText (totalEpisodes d))
        (numberText (duration d))
  | None =>
      mkFormState (formTitle st) (formYear st) (formCountry st) (formGenre st)
        (formDirector st) (formRating st) (formStatus st) (formReview st)
        (formPosterColor st) (formPosterImage st) (dateStr today)
        (formMediaType st) (formCurrentEpisode st) (formTotalEpisodes st)
        (formDuration st)
  end.

(** Lines 76-78: the series entry the auto-fill copies from. *)
Definition autoFillMatch (existingMovies : list Movie) (title0 : jsstring)
    : option Movie :=
  head (array_sort (λ a b, addedAt b - addedAt a)
          (filter (λ m, mediaType m = Some tv
                        ∧ toLowerCase (title m) = toLowerCase (trim title0))
             existingMovies)).

(** The auto-fill effect (lines 72-100). *)
Definition autoFill (initialData : option Movie) (existingMovies : list Movie)
    (st : FormState) : FormState :=
  match initialData with
  | Some _ => st
  | None =>
      if (1 <? length (formTitle st))%nat then
        match autoFillMatch existingMovies (formTitle st) with
        | Some found =>
            mkFormState (formTitle st) (year found)
              (default [] (country found)) (genre found)
              (default [] (director found)) (formRating st) (formStatus st)
              (formReview st) (posterColor found)
              (default [] (posterImage found)) (formWatchedDate st) tv
              (match currentEpisode found with
               | Some ep =>
                   if ep =? 0 then formCurrentEpisode st
                   else numberToString (ep + 1)
               | None => formCurrentEpisode st
               end)
              (numberText (totalEpisodes found)) (numberText (duration found))
        | None => st
        end
      else st
  end.

(** [handleSubmit] (lines 198-220): the object handed to [onSubmit].  Its
    [id] is that of the record being edited, and undefined (here the empty
    string) for a new record, where [handleAddMovie] replaces it; it has no
    [lastUpdated] (here [0]), which both handlers set.  [now] is
    [Date.now()]. *)
Definition handleSubmit (initialData : option Movie) (now : Z)
    (st : FormState) : Movie :=
  let addedAtTimestamp :=
    match formWatchedDate st with
    | [] => now
    | _ :: _ => Date_getTime (formWatchedDate st)
    end in
  mkMovie (default [] (id <$> initialData)) (formTitle st) (formYear st)
    (Some (formCountry st)) (formGenre st) (Some (formDirector st))
    (formRating st) (formStatus st) (formReview st) (formPosterColor st)
    (Some (formPosterImage st)) addedAtTimestamp 0 (Some (formMediaType st))
    (match formMediaType st with
     | tv => Some (optNumOr (parseInt (formCurrentEpisode st)) 0)
     | movie => None
     end)
    (match formMediaType st with
     | tv => Some (optNumOr (parseInt (formTotalEpisodes st)) 0)
     | movie => None
     end)
    (Some (optNumOr (parseInt (formDuration st)) 0))
    .
End MovieForm.

(** ** Part II. Definitions of the specification *)

(** *** Edit distance

    The recurrence of the edit distance, on strings read from their last
    code unit: the head of each list is the last code unit of a prefix. *)
Fixpoint lev (xs ys : jsstring) {struct xs} : nat :=
  match xs with
  | [] => length ys
  | x :: xs' =>
      (fix lev_row (ys : jsstring) : nat :=
         match ys with
         | [] => S (length xs')
         | y :: ys' =>
             Nat.min (lev xs' (y :: ys') + 1)
               (Nat.min (lev_row ys' + 1)
                  (lev xs' ys' + (if decide (x = y) then 0 else 1)))
         end) ys
  end.

(** The distance between the prefix of length [i] of [a] and the prefix of
    length [j] of [b]: what cell [[j][i]] of the table is to hold. *)
Definition dist (a b : jsstring) (i j : nat) : nat :=
  lev (rev (take i a)) (rev (take j b)).

(** The table has its dimensions. *)
Definition table_shape (a b : jsstring) (M : list (list (option nat))) : Prop :=
  length M = (length b + 1)%nat ∧
  ∀ j row, M !! j = Some row → length row = (length a + 1)%nat.

Definition cell_ok (a b : jsstring) (M : list (list (option nat)))
    (j i : nat) : Prop :=
  mget M j i = dist a b i j.

(** *** Fuzzy matching *)

Definition isSubstring (t s : jsstring) : Prop :=
  ∃ pre post, s = pre ++ t ++ post.




(** Lower-casing of the ASCII letters, an instance of case folding. *)
Definition asciiLower (s : jsstring) : jsstring :=
  (λ c, if ((65 <=? c) && (c <=? 90))%N then (c + 32)%N else c) <$> s.

(** *** The record set *)

(** The identities of a record set, in order. *)
Definition ids (movies : list Movie) : list jsstring := id <$> movies.

(** A record for examples: a watched film of 120 minutes with the given
    identity, title and genre. *)
Definition sampleMovie (i t : string) (g : option jsstring) : Movie :=
  mkMovie (str i) (str t) (str "2010") None g None 4 WATCHED [] (str "#4f46e5")
    None 1700000000000 1700000000000 (Some movie) None None (Some 120).

(** A series entry for examples. *)
Definition sampleEpisode (i t : string) (ep dur : Z) : Movie :=
  mkMovie (str i) (str t) (str "2020") None None None 0 WATCHING []
    (str "#4f46e5") None 1700000000000 1700000000000 (Some tv) (Some ep)
    (Some 10) (Some dur).

(** *** CSV fields *)

(** A quote doubled, any other code unit as it is. *)
Definition doubleQuotes (v : jsstring) : jsstring :=
  flat_map (λ c, if decide (c = 34%N) then [34%N; 34%N] else [c]) v.

(** What may follow a field in a line: nothing, or a code unit that is not
    a quote. *)
Definition fieldEnd (tail : jsstring) : Prop :=
  match tail with
  | [] => True
  | c :: _ => c ≠ 34%N
  end.

(** The field a reader is to get back: the empty string for an absent
    one. *)
Definition fieldText (f : option jsstring) : jsstring := default [] f.

(** *** Statistics *)

(** The sum of [f] over a list, as [reduce] computes it from [0]. *)
Definition sumZ {A} (f : A → Z) (l : list A) : Z :=
  foldl (λ sum x, sum + f x) 0 l.

(** [m.currentEpisode || 0] and [m.duration || 0]. *)
Definition episodeOf (m : Movie) : Z := optNumOr (currentEpisode m) 0.

Definition durationOf (m : Movie) : Z := optNumOr (duration m) 0.

(** The distinct trimmed titles of the series entries. *)
Definition seriesTitles (filteredMovies : list Movie) : list jsstring :=
  remove_dups (trim ∘ title <$> tvEntries filteredMovies).



(** The last number of a list that is not zero ([0] when there is none):
    for the durations of the entries of a title, in the order in which the
    loop meets them, the one supplied latest. *)
Definition latestNonZero (ds : list Z) : Z :=
  default 0 (last (filter (λ d, d ≠ 0) ds)).



(** The entries titled [t] among any entries. *)
Definition entriesTitled (entries : list Movie) (t : jsstring) : list Movie :=
  filter (λ m, trim (title m) = t) entries.

(** The value the loop leaves at [t]: the greatest episode seen, from [0],
    and the latest non-zero duration. *)
Definition calcOf (entries : list Movie) (t : jsstring) : TvCalc :=
  mkTvCalc (foldl Z.max 0 (episodeOf <$> entriesTitled entries t))
           (latestNonZero (durationOf <$> entriesTitled entries t)).

(** *** Pieces of a split *)

(** A piece stands in the string between separators or the ends. *)
Definition delimited (sep : N → bool) (s piece : jsstring) : Prop :=
  ∃ pre post, s = pre ++ piece ++ post ∧
    (pre = [] ∨ ∃ pre' c, pre = pre' ++ [c] ∧ sep c = true) ∧
    (post = [] ∨ ∃ c post', post = c :: post' ∧ sep c = true).

Definition separatorFree (sep : N → bool) (piece : jsstring) : Prop :=
  Forall (λ c, sep c = false) piece.

(** *** The genre histogram *)

(** The tokens a record contributes: the unknown genre when it has no
    genre, else the tokens of its genre field. *)
Definition recordGenres (m : Movie) : list jsstring :=
  match genre m with
  | None | Some [] => [unknownGenre]
  | Some ((_ :: _) as g) => genreTokens g
  end.

(** The tokens of all records, in order. *)
Definition allGenres (l : list Movie) : list jsstring := l ≫= recordGenres.

(** How often [g] stands in a list of tokens. *)
Definition occurrences (g : jsstring) (gs : list jsstring) : Z :=
  Z.of_nat (length (filter (λ x, x = g) gs)).

(** The count an object holds for [g], [0] when it has no such key. *)
Definition countIn (o : list (jsstring * Z)) (g : jsstring) : Z :=
  default 0 (obj_get o g).



(** *** Order within a list *)

(** [a] stands before [b] in [l]. *)
Definition before {A} (l : list A) (a b : A) : Prop :=
  [a; b] `sublist_of` l.

(** ** Part II, continued. Further definitions of the specification *)

(** The filter that filters nothing. *)
Definition neutralFilter : FilterConfig :=
  mkFilterConfig [] allStatuses (str "all") (str "all").


(** The number of records whose status reads [name]. *)
Definition withStatus (name : jsstring) (l : list Movie) : Z :=
  Z.of_nat (length (filter (λ m, statusText (status m) = name) l)).


(** The number that places a record in the trend of a time frame: its
    year, its month (from 1) or its day of the month. *)
Definition trendField (getFullYear getMonth getDate : Z → Z)
    (timeFrame : Stats.TimeFrame) (m : Movie) : Z :=
  match timeFrame with
  | Stats.all => getFullYear (addedAt m)
  | Stats.year => getMonth (addedAt m) + 1
  | Stats.month => getDate (addedAt m)
  end.

(** The character that ends the labels of a trend: 年, 月 or 日. *)
Definition trendMark (timeFrame : Stats.TimeFrame) : N :=
  match timeFrame with
  | Stats.all => 24180%N
  | Stats.year => 26376%N
  | Stats.month => 26085%N
  end.

(** The buckets a trend lays out before it looks at the records. *)
Definition presetBuckets (daysInMonth : jsstring → Z)
    (timeFrame : Stats.TimeFrame) (selectedMonth : jsstring) : Z :=
  match timeFrame with
  | Stats.all => 0
  | Stats.year => 12
  | Stats.month => daysInMonth selectedMonth
  end.

(** A text without a line break, and one that in addition needs no
    quoting in a delimited file. *)
Definition noLineBreak (s : jsstring) : Prop := (10%N ∉ s) ∧ (13%N ∉ s).

Definition plainText (s : jsstring) : Prop :=
  (44%N ∉ s) ∧ (34%N ∉ s) ∧ noLineBreak s.

(** What a row read from a file is to hold of a record: its identity, and
    its texts without the white space around them. *)
Definition restores (m : Movie) (row : list (jsstring * FieldValue)) : Prop :=
  rowId row = id m ∧
  property row (str "title") = Some (TextValue (trim (title m))) ∧
  property row (str "year") = Some (TextValue (trim (year m))) ∧
  property row (str "country")
    = Some (TextValue (trim (default [] (country m)))) ∧
  property row (str "genre") = Some (TextValue (trim (default [] (genre m)))) ∧
  property row (str "director")
    = Some (TextValue (trim (default [] (director m)))) ∧
  property row (str "review") = Some (TextValue (trim (review m))) ∧
  property row (str "status") = Some (TextValue (statusText (status m))) ∧
  property row (str "mediaType")
    = Some (TextValue (if decide (mediaType m = Some tv)
                       then str "tv" else str "movie")).

(** The fuzzy predicate without its two tests on lengths. *)
Definition fuzzyMatch_untested (toLowerCase : jsstring → jsstring)
    (text : option jsstring) (search : jsstring) : bool :=
  match search with
  | [] => true
  | _ :: _ =>
      match text with
      | None | Some [] => false
      | Some ((_ :: _) as text) =>
          let cleanText := toLowerCase text in
          let cleanSearch := toLowerCase search in
          if includes cleanText cleanSearch then true
          else if (length cleanSearch <? 2)%nat then false
          else
            let maxErrors := if (4 <? length cleanSearch)%nat then 2 else 1 in
            (Z.of_nat (levenshtein cleanText cleanSearch) <=? maxErrors)
            || existsb
                 (λ word, Z.of_nat (levenshtein cleanSearch word) <=? maxErrors)
                 (split isWordSeparator cleanText)
      end
  end.

(** The cells of the line written for a record, before they are escaped. *)
Definition exportedCells (numberToString toLocaleString : Z → jsstring)
    (m : Movie) : list (option jsstring) :=
  [ Some (id m); Some (title m); Some (year m); country m; genre m;
    director m; Some (numberToString (rating m));
    Some (statusText (status m)); Some (review m);
    Some (toLocaleString (addedAt m)); Some (toLocaleString (lastUpdated m));
    Some (if decide (mediaType m = Some tv) then [30005; 35270; 21095]%N
          else [30005; 24433]%N);
    Some (numberOrEmpty numberToString (currentEpisode m));
    Some (numberOrEmpty numberToString (totalEpisodes m));
    Some (numberOrEmpty numberToString (duration m)) ].

(** ** Part III. Properties *)

(** *** Folding over a range of indices *)

Lemma foldl_seq_inv {A} (P : nat → A → Prop) (f : A → nat → A) len : ∀ s x,
  P s x →
  (∀ k y, (s ≤ k < s + len)%nat → P k y → P (S k) (f y k)) →
  P (s + len)%nat (foldl f x (seq s len)).
Proof.
  induction len as [|len IH]; intros s x H0 Hstep; simpl.
  - by rewrite Nat.add_0_r.
  - replace (s + S len)%nat with (S s + len)%nat by lia.
    apply IH.
    + apply Hstep; [lia|done].
    + intros k y Hk. apply Hstep. lia.
Qed.

(** *** The recurrence of the edit distance *)

Lemma lev_nil_r xs : lev xs [] = length xs.
Proof. by destruct xs. Qed.

Lemma lev_cons x xs y ys :
  lev (x :: xs) (y :: ys) =
  Nat.min (lev xs (y :: ys) + 1)
    (Nat.min (lev (x :: xs) ys + 1)
       (lev xs ys + (if decide (x = y) then 0 else 1))).
Proof. reflexivity. Qed.

Lemma lev_sym xs : ∀ ys, lev xs ys = lev ys xs.
Proof.
  induction xs as [|x xs IHx]; intros ys.
  - by rewrite lev_nil_r.
  - induction ys as [|y ys IHy]; [done|].
    rewrite !lev_cons, IHy, (IHx (y :: ys)), (IHx ys).
    destruct (decide (x = y)), (decide (y = x)); try congruence; lia.
Qed.

Lemma lev_le_max xs : ∀ ys, (lev xs ys ≤ Nat.max (length xs) (length ys))%nat.
Proof.
  induction xs as [|x xs IHx]; intros ys; [simpl; lia|].
  destruct ys as [|y ys]; [simpl; lia|].
  rewrite lev_cons. specialize (IHx ys). simpl length.
  destruct (decide (x = y)); lia.
Qed.

Lemma lev_refl xs : lev xs xs = 0%nat.
Proof.
  induction xs as [|x xs IH]; [done|].
  rewrite lev_cons, IH. rewrite decide_True by done. lia.
Qed.

Lemma lev_zero xs : ∀ ys, lev xs ys = 0%nat → xs = ys.
Proof.
  induction xs as [|x xs IHx]; intros ys H.
  - destruct ys; [done|discriminate].
  - destruct ys as [|y ys]; [discriminate|].
    rewrite lev_cons in H.
    destruct (decide (x = y)) as [->|]; [|lia].
    f_equal. apply IHx. lia.
Qed.

(** *** The table of [levenshtein] holds the distances of the prefixes *)

Section Table.
Variables a b : jsstring.

Lemma dist_0_r i : (i ≤ length a)%nat → dist a b i 0 = i.
Proof.
  intros. unfold dist. rewrite take_0. simpl.
  rewrite lev_nil_r, length_rev, length_take. lia.
Qed.

Lemma dist_0_l j : (j ≤ length b)%nat → dist a b 0 j = j.
Proof.
  intros. unfold dist. rewrite take_0. simpl.
  rewrite length_rev, length_take. lia.
Qed.

Lemma rev_take_S (s : jsstring) i x :
  s !! i = Some x → rev (take (S i) s) = x :: rev (take i s).
Proof.
  intros H. erewrite take_S_r by done. by rewrite rev_app_distr.
Qed.

Lemma dist_step i j :
  (1 ≤ i ≤ length a)%nat → (1 ≤ j ≤ length b)%nat →
  dist a b i j =
  Nat.min (dist a b (i - 1) j + 1)
    (Nat.min (dist a b i (j - 1) + 1)
       (dist a b (i - 1) (j - 1) + indicator a b i j)).
Proof.
  intros Hi Hj. unfold dist, indicator.
  destruct i as [|i]; [lia|]. destruct j as [|j]; [lia|].
  replace (S i - 1)%nat with i by lia. replace (S j - 1)%nat with j by lia.
  destruct (lookup_lt_is_Some_2 a i) as [x Hx]; [lia|].
  destruct (lookup_lt_is_Some_2 b j) as [y Hy]; [lia|].
  rewrite (rev_take_S a i x Hx), (rev_take_S b j y Hy), lev_cons, Hx, Hy.
  destruct (decide (x = y)), (decide (Some x = Some y)); congruence.
Qed.

Lemma table_shape_new : table_shape a b (new_matrix a b).
Proof.
  split; unfold new_matrix.
  - by rewrite length_replicate.
  - intros j row [-> _]%lookup_replicate. by rewrite length_replicate.
Qed.

Lemma table_shape_mset M j i v :
  table_shape a b M → table_shape a b (mset M j i v).
Proof.
  intros [HL HR]. split; unfold mset.
  - by rewrite length_alter.
  - intros j' row. destruct (decide (j = j')) as [->|Hne].
    + rewrite list_lookup_alter_eq.
      destruct (M !! j') as [r|] eqn:E; simpl; [|done].
      intros [= <-]. rewrite length_insert. eauto.
    + rewrite list_lookup_alter_ne by done. eauto.
Qed.

Lemma mget_mset M j i v j' i' :
  table_shape a b M → (j ≤ length b)%nat → (i ≤ length a)%nat →
  mget (mset M j i v) j' i' =
  if decide (j = j' ∧ i = i') then v else mget M j' i'.
Proof.
  intros [HL HR] Hj Hi. unfold mget, mset.
  destruct (decide (j = j')) as [->|Hne].
  - rewrite list_lookup_alter_eq.
    destruct (lookup_lt_is_Some_2 M j') as [row Hrow]; [lia|].
    rewrite Hrow. simpl. specialize (HR _ _ Hrow).
    destruct (decide (i = i')) as [->|Hne].
    + rewrite list_lookup_insert_eq by lia. by rewrite decide_True.
    + rewrite list_lookup_insert_ne by done.
      by rewrite decide_False by tauto.
  - rewrite list_lookup_alter_ne by done.
    by rewrite decide_False by tauto.
Qed.

(** The first loop writes row [0]. *)
Lemma first_row_filled :
  let M1 := foldl (λ M i, mset M 0 i i) (new_matrix a b)
              (seq 0 (length a + 1)) in
  table_shape a b M1 ∧ ∀ i, (i ≤ length a)%nat → cell_ok a b M1 0 i.
Proof.
  intros M1.
  assert (H : table_shape a b M1 ∧
              ∀ i, (i < 0 + (length a + 1))%nat → cell_ok a b M1 0 i).
  { apply (foldl_seq_inv
             (λ k M, table_shape a b M ∧ ∀ i, (i < k)%nat → cell_ok a b M 0 i)).
    - split; [apply table_shape_new | lia].
    - intros k M Hk [Hwf Hg]. split; [by apply table_shape_mset|].
      intros i Hi. unfold cell_ok. rewrite mget_mset by (done || lia).
      case_decide as Hd.
      + destruct Hd as [_ <-]. rewrite dist_0_r; lia.
      + apply Hg. lia. }
  destruct H as [? H]. split; [done|]. intros i Hi. apply H. lia.
Qed.

(** The second loop writes column [0] and keeps row [0]. *)
Lemma first_column_filled M1 :
  table_shape a b M1 → (∀ i, (i ≤ length a)%nat → cell_ok a b M1 0 i) →
  let M2 := foldl (λ M j, mset M j 0 j) M1 (seq 0 (length b + 1)) in
  table_shape a b M2 ∧
  (∀ i, (i ≤ length a)%nat → cell_ok a b M2 0 i) ∧
  ∀ j, (j ≤ length b)%nat → cell_ok a b M2 j 0.
Proof.
  intros Hwf1 Hrow1 M2.
  assert (H : table_shape a b M2 ∧
              (∀ i, (i ≤ length a)%nat → cell_ok a b M2 0 i) ∧
              ∀ j, (j < 0 + (length b + 1))%nat → cell_ok a b M2 j 0).
  { apply (foldl_seq_inv
             (λ k M, table_shape a b M ∧
                     (∀ i, (i ≤ length a)%nat → cell_ok a b M 0 i) ∧
                     ∀ j, (j < k)%nat → cell_ok a b M j 0)).
    - split; [done|]. split; [done|lia].
    - intros k M Hk (Hwf & Hr & Hc). split; [by apply table_shape_mset|].
      split.
      + intros i Hi. unfold cell_ok. rewrite mget_mset by (done || lia).
        case_decide as Hd; [|by apply Hr].
        destruct Hd as [Hk0 <-]. subst k. by rewrite dist_0_r by lia.
      + intros j Hj. unfold cell_ok. rewrite mget_mset by (done || lia).
        case_decide as Hd.
        * destruct Hd as [<- _]. rewrite dist_0_l; lia.
        * apply Hc. lia. }
  destruct H as (? & ? & H). split; [done|]. split; [done|].
  intros j Hj. apply H. lia.
Qed.

(** One pass of the inner loop fills row [j], given the rows before it. *)
Lemma row_filled M j :
  (1 ≤ j ≤ length b)%nat → table_shape a b M →
  (∀ j', (j' ≤ length b)%nat → cell_ok a b M j' 0) →
  (∀ j' i, (j' < j)%nat → (i ≤ length a)%nat → cell_ok a b M j' i) →
  let M' := foldl (fill_cell a b j) M (seq 1 (length a)) in
  table_shape a b M' ∧
  (∀ j', (j' ≤ length b)%nat → cell_ok a b M' j' 0) ∧
  ∀ j' i, (j' < S j)%nat → (i ≤ length a)%nat → cell_ok a b M' j' i.
Proof.
  intros Hj Hwf Hcol Hdone M'.
  assert (H : table_shape a b M' ∧
              (∀ j', (j' ≤ length b)%nat → cell_ok a b M' j' 0) ∧
              (∀ j' i, (j' < j)%nat → (i ≤ length a)%nat → cell_ok a b M' j' i) ∧
              ∀ i, (i < 1 + length a)%nat → cell_ok a b M' j i).
  { apply (foldl_seq_inv
             (λ k N, table_shape a b N ∧
                     (∀ j', (j' ≤ length b)%nat → cell_ok a b N j' 0) ∧
                     (∀ j' i, (j' < j)%nat → (i ≤ length a)%nat →
                              cell_ok a b N j' i) ∧
                     ∀ i, (i < k)%nat → cell_ok a b N j i)).
    - split; [done|]. split; [done|]. split; [done|].
      intros i Hi. replace i with 0%nat by lia. apply Hcol. lia.
    - intros i N Hi (HwfN & HcolN & HdoneN & HcurN).
      unfold fill_cell.
      split; [by apply table_shape_mset|]. split; [|split].
      + intros j' Hj'. unfold cell_ok. rewrite mget_mset by (done || lia).
        rewrite decide_False by lia. by apply HcolN.
      + intros j' i' Hj' Hi'. unfold cell_ok.
        rewrite mget_mset by (done || lia).
        rewrite decide_False by lia. by apply HdoneN.
      + intros i' Hi'. unfold cell_ok. rewrite mget_mset by (done || lia).
        case_decide as Hd.
        * destruct Hd as [_ <-].
          rewrite (HcurN (i - 1)%nat) by lia.
          rewrite (HdoneN (j - 1)%nat i) by lia.
          rewrite (HdoneN (j - 1)%nat (i - 1)%nat) by lia.
          rewrite (dist_step i j) by lia. lia.
        * apply HcurN. lia. }
  destruct H as (? & ? & Hprev & Hcur). split; [done|]. split; [done|].
  intros j' i Hj' Hi. destruct (decide (j' = j)) as [->|].
  - apply Hcur. lia.
  - apply Hprev; lia.
Qed.

(** The function returns the distance of the two strings, both read from
    their last code unit. *)
Lemma levenshtein_lev : levenshtein a b = lev (rev a) (rev b).
Proof.
  unfold levenshtein. cbv zeta.
  destruct first_row_filled as [Hwf1 Hrow1].
  destruct (first_column_filled _ Hwf1 Hrow1) as (Hwf2 & Hrow2 & Hcol2).
  set (M2 := foldl (λ M j, mset M j 0 j) _ _) in *. clearbody M2.
  set (M3 := foldl _ M2 _).
  assert (H3 : table_shape a b M3 ∧
               (∀ j, (j ≤ length b)%nat → cell_ok a b M3 j 0) ∧
               ∀ j i, (j < 1 + length b)%nat → (i ≤ length a)%nat →
                      cell_ok a b M3 j i).
  { apply (foldl_seq_inv
             (λ k M, table_shape a b M ∧
                     (∀ j, (j ≤ length b)%nat → cell_ok a b M j 0) ∧
                     ∀ j i, (j < k)%nat → (i ≤ length a)%nat → cell_ok a b M j i)
             (λ M j, foldl (fill_cell a b j) M (seq 1 (length a)))).
    - split; [done|]. split; [done|].
      intros j i Hj Hi. replace j with 0%nat by lia. by apply Hrow2.
    - intros j M Hj (Hwf & Hcol & Hdone). apply row_filled; [lia|done..]. }
  destruct H3 as (_ & _ & H3). rewrite (H3 (length b) (length a)) by lia.
  unfold dist. by rewrite !firstn_all.
Qed.
End Table.

(** C6. The edit distance is symmetric, is 0 exactly for identical strings,
    is at most the length of the longer string, and against the empty
    string it is the length of the other string. *)
Theorem levenshtein_metric (a b : jsstring) :
  levenshtein a b = levenshtein b a ∧
  (levenshtein a b = 0%nat ↔ a = b) ∧
  (levenshtein a b ≤ Nat.max (length a) (length b))%nat ∧
  levenshtein [] b = length b ∧
  levenshtein a [] = length a.
Proof.
  rewrite !levenshtein_lev. repeat split.
  - apply lev_sym.
  - intros H%lev_zero. apply (f_equal (@rev N)) in H.
    by rewrite !rev_involutive in H.
  - intros ->. apply lev_refl.
  - rewrite <- (length_rev a), <- (length_rev b). apply lev_le_max.
  - simpl. apply length_rev.
  - simpl. rewrite lev_nil_r. apply length_rev.
Qed.

Lemma levenshtein_sym (a b : jsstring) : levenshtein a b = levenshtein b a.
Proof. rewrite !levenshtein_lev. apply lev_sym. Qed.


(** *** Substrings *)

Lemma startsWith_spec (s t : jsstring) :
  startsWith s t = true ↔ ∃ post, s = t ++ post.
Proof.
  revert s. induction t as [|d t IH]; intros s; simpl.
  - split; [intros _; by exists s|by destruct s].
  - destruct s as [|c s].
    + split; [done|]. intros [post H]. discriminate.
    + simpl. rewrite andb_true_iff, bool_decide_eq_true, IH. split.
      * intros [-> [post ->]]. eauto.
      * intros [post [= -> ->]]. eauto.
Qed.

Lemma includes_spec (s t : jsstring) :
  includes s t = true ↔ isSubstring t s.
Proof.
  unfold isSubstring. induction s as [|c s IH]; cbn [includes].
  - rewrite orb_false_r, startsWith_spec. split.
    + intros [post H]. by exists [], post.
    + intros (pre & post & H). destruct pre; [|discriminate]. eauto.
  - rewrite orb_true_iff, IH.
    rewrite startsWith_spec. split.
    + intros [[post H]|(pre & post & H)].
      * by exists [], post.
      * exists (c :: pre), post. by rewrite H.
    + intros (pre & post & H). destruct pre as [|c' pre].
      * left. eauto.
      * right. injection H as -> ->. eauto.
Qed.


(** *** Splitting on a class of separators *)

Section Split.
Variable sep : N → bool.

Lemma split_go_pieces (s : jsstring) : ∀ inRun before cur piece,
  (before = [] ∨ ∃ pre' c, before = pre' ++ [c] ∧ sep c = true) →
  separatorFree sep cur →
  (inRun = true → cur = []) →
  piece ∈ split_go sep inRun cur s →
  separatorFree sep piece ∧ delimited sep (before ++ cur ++ s) piece.
Proof.
  induction s as [|c s IH]; intros inRun before cur piece Hbefore Hcur Hrun Hin.
  - apply list_elem_of_singleton in Hin as ->. split; [done|].
    exists before, []. split; [done|]. split; [done|by left].
  - cbn [split_go] in Hin. destruct (sep c) eqn:Hc.
    + assert (Hrest : piece ∈ split_go sep true [] s →
                separatorFree sep piece ∧
                delimited sep (before ++ cur ++ c :: s) piece).
      { intros Hin'.
        destruct (IH true (before ++ cur ++ [c]) [] piece) as [Hfree Hdel].
        - right. exists (before ++ cur), c. by rewrite <- app_assoc.
        - constructor.
        - done.
        - done.
        - split; [done|]. by rewrite <- !app_assoc in Hdel. }
      destruct inRun.
      * rewrite (Hrun eq_refl) in *. by apply Hrest.
      * apply elem_of_cons in Hin as [->|Hin]; [|by apply Hrest].
        split; [done|]. exists before, (c :: s). split; [done|].
        split; [done|]. right. by exists c, s.
    + destruct (IH false before (cur ++ [c]) piece) as [Hfree Hdel].
      * done.
      * apply Forall_app. split; [done|]. by constructor.
      * done.
      * done.
      * split; [done|]. by rewrite <- !app_assoc in Hdel.
Qed.

(** Every piece of a split is free of separators and stands in the string
    between separators or the ends. *)
Lemma split_pieces (s piece : jsstring) :
  piece ∈ split sep s → separatorFree sep piece ∧ delimited sep s piece.
Proof.
  intros Hin. apply (split_go_pieces s false [] [] piece); try done.
  - by left.
  - constructor.
Qed.


End Split.

(** *** The fuzzy predicate *)

Section FuzzyMatchFacts.
Variable toLowerCase : jsstring → jsstring.
(** Case folding maps the empty string, and it alone, to the empty
    string. *)
Hypothesis toLowerCase_empty : ∀ s, toLowerCase s = [] ↔ s = [].




End FuzzyMatchFacts.


(** *** Identities under the mutations of the record set *)

Lemma ids_filter_NoDup (P : Movie → Prop) `{∀ m, Decision (P m)}
    (movies : list Movie) :
  NoDup (ids movies) → NoDup (ids (filter P movies)).
Proof.
  intros Hnd. eapply sublist_NoDup; [exact Hnd|].
  unfold ids. apply fmap_sublist, sublist_filter.
Qed.

Lemma ids_handleUpdateMovie now movieData (movies : list Movie) :
  ids (handleUpdateMovie now movieData movies) = ids movies.
Proof.
  unfold ids, handleUpdateMovie. rewrite <- list_fmap_compose.
  apply list_fmap_ext. intros _ m _. simpl.
  by destruct (decide (id m = id movieData)).
Qed.

(** What the merge keeps of a batch: the records whose identity no current
    record has, in the order of the batch. *)
Lemma mergeImport_records (movies newMovies : list Movie) :
  (mergeImport movies newMovies).1 =
  filter (λ m, id m ∉ ids movies) newMovies ++ movies.
Proof.
  unfold mergeImport. cbv zeta.
  assert (Heq : filter (λ m, id m ∉ (list_to_set (id <$> movies) : gset jsstring))
                  newMovies
                = filter (λ m, id m ∉ ids movies) newMovies).
  { apply list_filter_iff. intros m. unfold ids.
    by rewrite elem_of_list_to_set. }
  rewrite Heq.
  destruct (filter (λ m, id m ∉ ids movies) newMovies); done.
Qed.

Lemma mergeImport_NoDup (movies newMovies : list Movie) :
  NoDup (ids movies) → NoDup (ids newMovies) →
  NoDup (ids (mergeImport movies newMovies).1).
Proof.
  intros Hm Hn. rewrite mergeImport_records. unfold ids.
  rewrite fmap_app. apply NoDup_app. split; [|split; [|done]].
  - by apply ids_filter_NoDup.
  - intros i (m & -> & Hin)%list_elem_of_fmap.
    by apply list_elem_of_filter in Hin as [Hfresh _].
Qed.

(** C1, as the code has it.  Identities stay pairwise distinct under adding
    a record with a fresh identity, updating, deleting one record, deleting
    a selection, and merging an imported batch whose own identities are
    pairwise distinct; and the merge, for any batch, drops the candidates
    whose identity a current record has and puts the others, in their
    order, in front of the current records. *)
Theorem unique_ids_preserved (movies : list Movie) :
  NoDup (ids movies) →
  (∀ uuid now movieData,
     uuid ∉ ids movies →
     NoDup (ids (handleAddMovie uuid now movieData movies))) ∧
  (∀ now movieData, NoDup (ids (handleUpdateMovie now movieData movies))) ∧
  (∀ confirmed id0, NoDup (ids (handleDeleteMovie confirmed id0 movies))) ∧
  (∀ confirmed selectedIds,
     NoDup (ids (handleBulkDelete confirmed selectedIds movies))) ∧
  (∀ newMovies,
     NoDup (ids newMovies) →
     NoDup (ids (mergeImport movies newMovies).1)) ∧
  (∀ newMovies,
     (mergeImport movies newMovies).1 =
     filter (λ m, id m ∉ ids movies) newMovies ++ movies).
Proof.
  intros Hnd. repeat split.
  - intros uuid now movieData Hfresh. unfold handleAddMovie.
    change (NoDup (uuid :: ids movies)). by apply NoDup_cons.
  - intros now movieData. by rewrite ids_handleUpdateMovie.
  - intros confirmed id0. unfold handleDeleteMovie.
    destruct confirmed; [by apply ids_filter_NoDup|done].
  - intros confirmed selectedIds. unfold handleBulkDelete.
    destruct (decide (size selectedIds = 0%nat)); [done|].
    destruct confirmed; [by apply ids_filter_NoDup|done].
  - intros newMovies. by apply mergeImport_NoDup.
  - apply mergeImport_records.
Qed.

Lemma unique_ids_preserved_witness :
  NoDup (ids (mergeImport [sampleMovie "a" "Alien" None]
                [sampleMovie "a" "Alien" None; sampleMovie "b" "Brazil" None]).1).
Proof.
  assert (H0 : NoDup (ids [sampleMovie "a" "Alien" None])).
  { vm_compute. apply NoDup_singleton. }
  destruct (unique_ids_preserved [sampleMovie "a" "Alien" None] H0)
    as (_ & _ & _ & _ & Hmerge & _).
  apply Hmerge. vm_compute.
  apply NoDup_cons. split; [|apply NoDup_singleton].
  intros H%list_elem_of_singleton. discriminate.
Defined.

(** C1 as stated fails for the merge: a batch that repeats an identity which
    no current record has is kept whole. *)
Lemma merge_keeps_repeated_identity :
  NoDup (ids []) ∧
  ¬ NoDup (ids (mergeImport []
                  [sampleMovie "x" "Heat" None; sampleMovie "x" "Ronin" None]).1).
Proof.
  split; [apply NoDup_nil_2|].
  vm_compute. intros H. apply NoDup_cons in H as [H _].
  apply H. left.
Qed.

(** *** Export followed by import *)

Lemma endsWith_app (pre suffix : jsstring) : endsWith (pre ++ suffix) suffix = true.
Proof.
  unfold endsWith. apply startsWith_spec.
  exists (reverse pre). apply reverse_app.
Qed.

Lemma filter_none {A} (P : A → Prop) `{∀ x, Decision (P x)} (l : list A) :
  (∀ x, x ∈ l → ¬ P x) → filter P l = [].
Proof.
  intros Hno. destruct (filter P l) as [|x rest] eqn:E; [done|].
  assert (Hin : x ∈ filter P l) by (rewrite E; left).
  apply list_elem_of_filter in Hin as [HP Hin]. by destruct (Hno x Hin).
Qed.

Lemma mergeImport_all_known (movies newMovies : list Movie) :
  ids newMovies ⊆ ids movies →
  filter (λ m, id m ∉ (list_to_set (id <$> movies) : gset jsstring)) newMovies = [] ∧
  mergeImport movies newMovies = (movies, AlertNoNewRecords).
Proof.
  intros Hsub.
  assert (Hnil : filter (λ m, id m ∉ (list_to_set (id <$> movies) : gset jsstring))
                   newMovies = []).
  { apply filter_none. intros m Hin Hfresh.
    apply Hfresh, elem_of_list_to_set, Hsub. unfold ids.
    by apply list_elem_of_fmap_2. }
  split; [done|]. unfold mergeImport. cbv zeta. by rewrite Hnil.
Qed.

Section RoundTrip.
Variable numberToString : Z → jsstring.
Variable toLocaleString : Z → jsstring.
Variable JSON_stringify : list Movie → jsstring.
Variable JSON_parse : jsstring → JsonParsed.
Variable decodeCsv : jsstring → option (list Movie).

(** C8. Exporting the record set as the JSON dump and importing that file
    finds no new record: given that parsing the dump yields an array with
    the identities of the dumped records (as [JSON.parse] of
    [JSON.stringify] does), every candidate is dropped as a duplicate and
    the record set is left as it was. *)
Theorem export_then_import_adds_nothing (today : jsstring)
    (movies parsed : list Movie) :
  JSON_parse (JSON_stringify movies) = JsonArray parsed →
  ids parsed = ids movies →
  let file :=
    handleExport numberToString toLocaleString JSON_stringify json today movies in
  filter (λ m, id m ∉ (list_to_set (id <$> movies) : gset jsstring)) parsed = [] ∧
  handleFileChange JSON_parse decodeCsv file.1 file.2 movies
  = (movies, AlertNoNewRecords).
Proof.
  intros Hparse Hids file.
  destruct (mergeImport_all_known movies parsed) as [Hnil Hmerge].
  { by rewrite Hids. }
  split; [done|].
  unfold handleFileChange, file, handleExport. cbn [fst snd].
  replace (str "cinelog_backup_" ++ today ++ str "." ++ str "json")
    with ((str "cinelog_backup_" ++ today) ++ str ".json")
    by by rewrite <- !app_assoc.
  by rewrite endsWith_app, Hparse.
Qed.
End RoundTrip.

Lemma export_then_import_adds_nothing_witness :
  let movies := [sampleMovie "a" "Alien" None; sampleMovie "b" "Brazil" None] in
  let file :=
    handleExport (λ _, []) (λ _, []) (λ ms, mjoin (ids ms)) json
      (str "2024-05-01") movies in
  handleFileChange (λ _, JsonArray movies) (λ _, None) file.1 file.2 movies
  = (movies, AlertNoNewRecords).
Proof.
  intros movies file.
  apply (export_then_import_adds_nothing (λ _, []) (λ _, [])
           (λ ms, mjoin (ids ms)) (λ _, JsonArray movies) (λ _, None)
           (str "2024-05-01") movies movies); reflexivity.
Defined.

(** *** Sorting *)

Lemma sort_insert_Permutation {A} (cmp : A → A → Z) x (sorted : list A) :
  sort_insert cmp x sorted ≡ₚ x :: sorted.
Proof.
  induction sorted as [|y rest IH]; simpl; [done|].
  destruct (cmp x y <=? 0); [done|]. rewrite IH. apply Permutation_swap.
Qed.

Lemma array_sort_Permutation {A} (cmp : A → A → Z) (arr : list A) :
  array_sort cmp arr ≡ₚ arr.
Proof.
  induction arr as [|x rest IH]; simpl; [done|].
  by rewrite sort_insert_Permutation, IH.
Qed.

Section SortOrder.
Context {A : Type} (cmp : A → A → Z) (R : A → A → Prop).
Hypothesis cmp_R : ∀ a b, cmp a b ≤ 0 ↔ R a b.
Hypothesis cmp_total : ∀ a b, cmp a b ≤ 0 ∨ cmp b a ≤ 0.

Lemma sort_insert_HdRel (y x : A) (sorted : list A) :
  R y x → HdRel R y sorted → HdRel R y (sort_insert cmp x sorted).
Proof.
  intros Hyx Hhd. destruct sorted as [|z rest]; simpl.
  - by constructor.
  - destruct (cmp x z <=? 0); constructor; [done|].
    by apply HdRel_inv in Hhd.
Qed.

Lemma sort_insert_Sorted (x : A) (sorted : list A) :
  Sorted R sorted → Sorted R (sort_insert cmp x sorted).
Proof.
  induction 1 as [|y rest Hsorted IH Hhd]; simpl.
  - by repeat constructor.
  - destruct (Z.leb_spec (cmp x y) 0) as [Hle|Hgt].
    + constructor; [by constructor|]. constructor. by apply cmp_R.
    + constructor; [done|]. apply sort_insert_HdRel; [|done].
      apply cmp_R. destruct (cmp_total x y); lia.
Qed.

Lemma array_sort_Sorted (arr : list A) : Sorted R (array_sort cmp arr).
Proof.
  induction arr as [|x arr IH]; simpl; [constructor|].
  by apply sort_insert_Sorted.
Qed.
End SortOrder.


(** Inserting an element leaves the elements already there in their
    order. *)
Lemma sort_insert_sublist {A} (cmp : A → A → Z) (z : A) (sorted : list A) :
  sorted `sublist_of` sort_insert cmp z sorted.
Proof.
  induction sorted as [|y rest IH]; simpl.
  - apply sublist_nil_l.
  - destruct (cmp z y <=? 0).
    + by apply sublist_cons.
    + by apply sublist_skip.
Qed.

(** An element is inserted before the elements it does not exceed. *)
Lemma sort_insert_goes_before {A} (cmp : A → A → Z) (a b : A)
    (sorted : list A) :
  b ∈ sorted → cmp a b ≤ 0 → before (sort_insert cmp a sorted) a b.
Proof.
  intros Hin Hle. unfold before. induction sorted as [|y rest IH]; simpl.
  - by apply elem_of_nil in Hin.
  - destruct (Z.leb_spec (cmp a y) 0) as [_|Hgt].
    + apply sublist_skip. by apply singleton_sublist_l.
    + apply elem_of_cons in Hin as [->|Hin]; [lia|].
      apply sublist_cons. by apply IH.
Qed.

(** The sort is stable: an element stays before a later element it does
    not exceed, so elements that compare equal keep their order. *)
Lemma array_sort_stable {A} (cmp : A → A → Z) (a b : A) (arr : list A) :
  before arr a b → cmp a b ≤ 0 → before (array_sort cmp arr) a b.
Proof.
  unfold before. intros Hbefore Hle.
  induction arr as [|y arr IH]; simpl.
  - by apply sublist_nil_r in Hbefore.
  - apply sublist_cons_r in Hbefore as [Hrest|(l' & [= <- <-] & Hb)].
    + etrans; [by apply IH|]. apply sort_insert_sublist.
    + apply sort_insert_goes_before; [|done].
      rewrite array_sort_Permutation. by apply singleton_sublist_l.
Qed.

Lemma sublist_reverse {A} (l1 l2 : list A) :
  l1 `sublist_of` l2 → reverse l1 `sublist_of` reverse l2.
Proof.
  induction 1 as [|x l1 l2 _ IH|x l1 l2 _ IH].
  - done.
  - rewrite !reverse_cons. by apply sublist_app.
  - rewrite reverse_cons. by apply sublist_inserts_r.
Qed.

Lemma before_reverse {A} (l : list A) (a b : A) :
  before l a b → before (reverse l) b a.
Proof. intros H. exact (sublist_reverse [a; b] l H). Qed.

(** The ascending order is sorted for the comparator of the key, given
    that the collation compares any two titles one way or the other. *)
Lemma ascending_Sorted (localeCompare : jsstring → jsstring → Z)
    (field : SortField) (filteredMovies : list Movie) :
  (∀ s t, localeCompare s t ≤ 0 ∨ localeCompare t s ≤ 0) →
  Sorted (λ a b, compareMovies localeCompare field a b ≤ 0)
    (sortedMovies localeCompare (mkSortConfig field asc) filteredMovies).
Proof.
  intros Htotal. unfold sortedMovies. simpl.
  apply array_sort_Sorted; [done|].
  intros a b. destruct field; simpl; unfold compareValues;
    rewrite ?Z.gtb_ltb.
  - destruct (Z.ltb_spec (addedAt a) (addedAt b)),
      (Z.ltb_spec (addedAt b) (addedAt a)); lia.
  - destruct (Z.ltb_spec (rating a) (rating b)),
      (Z.ltb_spec (rating b) (rating a)); lia.
  - lia.
  - apply Htotal.
Qed.

(** C4. For every record list and sort key, the descending order is the
    ascending order of the same list reversed, ties included: the
    ascending order holds the same records, with a record before every
    later record it does not exceed (so records that compare equal keep
    their order), and in the descending order every such pair stands the
    other way round. *)
Theorem descending_is_reversed_ascending
    (localeCompare : jsstring → jsstring → Z) (field : SortField)
    (filteredMovies : list Movie) :
  let ascending :=
    sortedMovies localeCompare (mkSortConfig field asc) filteredMovies in
  let descending :=
    sortedMovies localeCompare (mkSortConfig field desc) filteredMovies in
  descending = reverse ascending ∧
  ascending ≡ₚ filteredMovies ∧
  (∀ a b, before filteredMovies a b →
          compareMovies localeCompare field a b ≤ 0 →
          before ascending a b ∧ before descending b a).
Proof.
  intros ascending descending.
  split; [reflexivity|]. split; [apply array_sort_Permutation|].
  intros a b Hbefore Hle.
  assert (Hasc : before ascending a b) by by apply array_sort_stable.
  split; [done|]. by apply before_reverse.
Qed.

(** *** Pagination *)

Lemma slice_take_drop {A} (arr : list A) (start end_ : Z) :
  0 ≤ start ≤ end_ →
  slice arr start end_ =
  take (Z.to_nat (end_ - start)) (drop (Z.to_nat start) arr).
Proof.
  intros H. unfold slice. cbv zeta.
  destruct (Z.ltb_spec start 0) as [?|_]; [lia|].
  destruct (Z.ltb_spec end_ 0) as [?|_]; [lia|].
  destruct (Z.le_gt_cases (Z.of_nat (length arr)) start) as [Hout|Hin].
  - rewrite drop_ge by lia. rewrite (drop_ge arr (Z.to_nat start)) by lia.
    by rewrite !take_nil.
  - rewrite (Z.min_l start) by lia.
    destruct (Z.le_gt_cases end_ (Z.of_nat (length arr))) as [?|Hlong].
    + by rewrite Z.min_l by lia.
    + rewrite Z.min_r by lia.
      rewrite !take_ge; [done|rewrite length_drop; lia..].
Qed.

Lemma ceilDiv_spec (n size : Z) :
  0 < size → (ceilDiv n size - 1) * size < n ≤ ceilDiv n size * size.
Proof.
  intros Hs. unfold ceilDiv.
  pose proof (Z.mul_div_le (- n) size Hs).
  pose proof (Z.mul_succ_div_gt (- n) size Hs).
  nia.
Qed.

(** Consecutive chunks of [size] elements, enough of them to cover the
    list, concatenate to the list. *)
Lemma chunks_concat {A} (size : nat) : ∀ (count : nat) (l : list A),
  (length l ≤ count * size)%nat →
  concat ((λ k, take size (drop (k * size) l)) <$> seq 0 count) = l.
Proof.
  induction count as [|count IH]; intros l Hlen.
  - destruct l; [done|]. simpl in Hlen. lia.
  - cbn [seq fmap list_fmap concat]. rewrite Nat.mul_0_l, drop_0.
    rewrite <- fmap_S_seq, <- list_fmap_compose.
    rewrite <- (take_drop size l) at 2. f_equal.
    rewrite <- (IH (drop size l)) by (rewrite length_drop; lia).
    f_equal. apply list_fmap_ext. intros _ k _. simpl.
    rewrite drop_drop. do 2 f_equal; lia.
Qed.

(** C7. For a positive page size: page [p] (from 1) is the slice
    [[(p-1)*size, p*size)] cut at the end of the sequence; the page count is
    the ceiling of [n / size]; pages [1 .. totalPages] in order concatenate
    to the sequence; and a request for a page below 1 or above the page
    count changes nothing. *)
Theorem pagination_spec {A} (sorted : list A) (size : Z) :
  0 < size →
  let n := Z.of_nat (length sorted) in
  let pages := totalPages (mkPageState 1 size) sorted in
  (∀ page, 1 ≤ page →
     currentDisplayedMovies (mkPageState page size) sorted =
     take (Z.to_nat size) (drop (Z.to_nat ((page - 1) * size)) sorted)) ∧
  (pages - 1) * size < n ≤ pages * size ∧
  concat ((λ p, currentDisplayedMovies (mkPageState (Z.of_nat p) size) sorted)
            <$> seq 1 (Z.to_nat pages)) = sorted ∧
  (∀ st page, itemsPerPage st = size → page < 1 ∨ pages < page →
     handlePageChange page st sorted = st) ∧
  (∀ st, itemsPerPage st = size →
     handlePageChange 0 st sorted = st ∧
     handlePageChange (pages + 1) st sorted = st).
Proof.
  intros Hs n pages.
  assert (Hpage : ∀ page, 1 ≤ page →
     currentDisplayedMovies (mkPageState page size) sorted =
     take (Z.to_nat size) (drop (Z.to_nat ((page - 1) * size)) sorted)).
  { intros page Hp.
    unfold currentDisplayedMovies, indexOfFirstItem, indexOfLastItem. simpl.
    rewrite slice_take_drop by nia. do 2 f_equal; lia. }
  assert (Hceil : (pages - 1) * size < n ≤ pages * size).
  { apply ceilDiv_spec, Hs. }
  assert (Hout : ∀ st page, itemsPerPage st = size → page < 1 ∨ pages < page →
     handlePageChange page st sorted = st).
  { intros st page Hsz Hp. unfold handlePageChange.
    replace (totalPages st sorted) with pages
      by (unfold pages, totalPages; simpl; by rewrite Hsz).
    destruct (Z.leb_spec 1 page), (Z.leb_spec page pages); simpl; (done || lia). }
  split; [done|]. split; [done|]. split; [|split; [done|]].
  - assert (0 ≤ pages) by nia.
    etrans; [|apply (chunks_concat (Z.to_nat size) (Z.to_nat pages)); nia].
    f_equal. rewrite <- fmap_S_seq, <- list_fmap_compose.
    apply list_fmap_ext. intros _ k _. simpl.
    rewrite Hpage by lia. do 2 f_equal. lia.
  - intros st Hsz. split; apply Hout; (done || lia).
Qed.

Lemma pagination_spec_witness :
  concat ((λ p, currentDisplayedMovies (mkPageState (Z.of_nat p) 2) [1; 2; 3; 4; 5])
            <$> seq 1 (Z.to_nat (totalPages (mkPageState 1 2) [1; 2; 3; 4; 5])))
  = [1; 2; 3; 4; 5] ∧
  handlePageChange 4 (mkPageState 3 2) [1; 2; 3; 4; 5] = mkPageState 3 2.
Proof.
  assert (Hs : 0 < 2) by lia.
  destruct (pagination_spec [1; 2; 3; 4; 5] 2 Hs) as (_ & _ & Hcat & Hout & _).
  split; [exact Hcat|].
  apply Hout; [reflexivity|]. right. vm_compute. reflexivity.
Defined.

(** *** The CSV field codec *)

Lemma includes_char (s : jsstring) (c : N) : includes s [c] = true ↔ c ∈ s.
Proof.
  rewrite includes_spec. unfold isSubstring. split.
  - intros (pre & post & ->). apply elem_of_app. right. left.
  - intros (pre & post & ->)%list_elem_of_split. by exists pre, post.
Qed.

Lemma parse_quoted_body (v : jsstring) : ∀ tail result current,
  fieldEnd tail →
  parseCSVLine_go (doubleQuotes v ++ 34%N :: tail) result current true =
  parseCSVLine_go tail result (current ++ v) false.
Proof.
  induction v as [|x v IH]; intros tail result current Hend.
  - simpl. rewrite app_nil_r. destruct tail as [|c tail]; [done|].
    simpl in Hend. by rewrite bool_decide_eq_false_2.
  - unfold doubleQuotes. cbn [flat_map]. fold (doubleQuotes v).
    destruct (decide (x = 34%N)) as [->|Hx].
    + simpl. rewrite IH by done. by rewrite <- app_assoc.
    + cbn [app parseCSVLine_go]. rewrite decide_False by done.
      rewrite andb_false_r, IH by done. by rewrite <- app_assoc.
Qed.

Lemma parse_plain (v : jsstring) : ∀ tail result current,
  34%N ∉ v → 44%N ∉ v →
  parseCSVLine_go (v ++ tail) result current false =
  parseCSVLine_go tail result (current ++ v) false.
Proof.
  induction v as [|x v IH]; intros tail result current Hq Hc.
  - by rewrite app_nil_r.
  - apply not_elem_of_cons in Hq as [Hq1 Hq2].
    apply not_elem_of_cons in Hc as [Hc1 Hc2].
    cbn [app parseCSVLine_go]. rewrite decide_False by done.
    rewrite bool_decide_eq_false_2 by done. cbn [andb].
    rewrite IH by done. by rewrite <- app_assoc.
Qed.

(** Reading one escaped field up to its end. *)
Lemma parse_field (f : option jsstring) (tail : jsstring) result :
  fieldEnd tail →
  parseCSVLine_go (escapeCsv f ++ tail) result [] false =
  parseCSVLine_go tail result (fieldText f) false.
Proof.
  intros Hend. destruct f as [[|c v]|]; [done| |done].
  unfold escapeCsv, fieldText. cbn [default].
  destruct (includes (c :: v) [44%N] || includes (c :: v) [34%N]
            || includes (c :: v) [10%N]) eqn:Hesc.
  - fold (doubleQuotes (c :: v)).
    change (([34%N] ++ doubleQuotes (c :: v) ++ [34%N]) ++ tail)
      with (34%N :: (doubleQuotes (c :: v) ++ [34%N]) ++ tail).
    rewrite <- app_assoc. cbn [parseCSVLine_go].
    rewrite decide_True by done. cbn [andb negb].
    assert (Hgo : ∀ rest : jsstring,
      match rest with
      | [] => parseCSVLine_go rest result [] true
      | _ :: _ => parseCSVLine_go rest result [] true
      end = parseCSVLine_go rest result [] true) by (by intros []).
    rewrite Hgo. change ([34%N] ++ tail) with (34%N :: tail).
    by rewrite parse_quoted_body.
  - apply orb_false_iff in Hesc as [[Hc Hq]%orb_false_iff _].
    apply parse_plain.
    + intros H%includes_char. congruence.
    + intros H%includes_char. congruence.
Qed.

(** Reading a whole line of escaped fields. *)
Lemma parse_row (fields : list (option jsstring)) : ∀ result,
  fields ≠ [] →
  parseCSVLine_go (join_comma (escapeCsv <$> fields)) result [] false =
  result ++ (fieldText <$> fields).
Proof.
  induction fields as [|f fields IH]; intros result Hne; [done|].
  destruct fields as [|g fields].
  - cbn [fmap list_fmap join_comma].
    rewrite <- (app_nil_r (escapeCsv f)), parse_field by done. done.
  - change (join_comma (escapeCsv <$> f :: g :: fields))
      with (escapeCsv f ++ 44%N :: join_comma (escapeCsv <$> g :: fields)).
    rewrite parse_field by done.
    cbn [parseCSVLine_go]. rewrite decide_False by done.
    rewrite bool_decide_eq_true_2 by done. cbn [andb negb].
    rewrite IH by done. by rewrite <- app_assoc.
Qed.

(** C9, as the code has it.  For every non-empty list of fields without a
    newline, escaping each field, joining with commas and parsing the line
    gives the fields back, an absent field as the empty string. *)
Theorem csv_fields_roundtrip (fields : list (option jsstring)) :
  fields ≠ [] →
  Forall (λ f, 10%N ∉ fieldText f) fields →
  parseCSVLine (join_comma (escapeCsv <$> fields)) = fieldText <$> fields.
Proof.
  intros Hne _. unfold parseCSVLine. by rewrite parse_row.
Qed.

Lemma csv_fields_roundtrip_witness :
  parseCSVLine
    (join_comma (escapeCsv <$> [Some (str "a,b"); None; Some [34%N; 120%N]]))
  = [str "a,b"; []; [34%N; 120%N]].
Proof.
  apply (csv_fields_roundtrip [Some (str "a,b"); None; Some [34%N; 120%N]]).
  - discriminate.
  - eapply bool_decide_unpack. vm_compute. exact I.
Defined.

(** C9 as stated fails for the list of no fields: the empty line parses to
    one empty field. *)
Lemma csv_no_fields_not_recovered :
  Forall (λ f, 10%N ∉ fieldText f) [] ∧
  parseCSVLine (join_comma (escapeCsv <$> [])) ≠ fieldText <$> [].
Proof. split; [constructor|discriminate]. Qed.

(** *** Sums *)

Lemma foldl_sum_shift {A} (f : A → Z) (l : list A) (a : Z) :
  foldl (λ sum x, sum + f x) a l = a + sumZ f l.
Proof.
  unfold sumZ. revert a. induction l as [|x l IH] using rev_ind; intros a.
  - simpl. lia.
  - rewrite !foldl_app. simpl. rewrite IH. lia.
Qed.

Lemma sumZ_cons {A} (f : A → Z) x (l : list A) :
  sumZ f (x :: l) = f x + sumZ f l.
Proof. unfold sumZ at 1. simpl. by rewrite foldl_sum_shift. Qed.


Lemma sumZ_Permutation {A} (f : A → Z) (l1 l2 : list A) :
  l1 ≡ₚ l2 → sumZ f l1 = sumZ f l2.
Proof.
  induction 1 as [|x l1 l2 _ IH|x y l|l1 l2 l3 _ IH1 _ IH2].
  - done.
  - by rewrite !sumZ_cons, IH.
  - rewrite !sumZ_cons. lia.
  - by rewrite IH1.
Qed.

Lemma sumZ_fmap {A B} (g : A → B) (f : B → Z) (l : list A) :
  sumZ f (g <$> l) = sumZ (f ∘ g) l.
Proof.
  induction l as [|x l IH]; [done|].
  by rewrite fmap_cons, !sumZ_cons, IH.
Qed.

Lemma sumZ_ext_in {A} (f g : A → Z) (l : list A) :
  (∀ x, x ∈ l → f x = g x) → sumZ f l = sumZ g l.
Proof.
  induction l as [|x l IH]; intros Hfg; [done|].
  rewrite !sumZ_cons. rewrite (Hfg x) by left. rewrite IH; [done|].
  intros y Hy. apply Hfg. by right.
Qed.

(** *** Records without a media kind *)


Lemma movieDuration_sum (l : list Movie) :
  movieDuration l = sumZ durationOf (filter (λ m, isMovie m) l).
Proof. reflexivity. Qed.



(** *** The series rollup *)

Lemma foldl_max_bounds (vs : list Z) : ∀ a,
  (foldl Z.max a vs = a ∨ foldl Z.max a vs ∈ vs) ∧
  a ≤ foldl Z.max a vs ∧ ∀ v, v ∈ vs → v ≤ foldl Z.max a vs.
Proof.
  induction vs as [|x vs IH]; intros a; simpl.
  - split; [by left|]. split; [lia|]. by intros v ?%elem_of_nil.
  - destruct (IH (Z.max a x)) as (Hin & Hle & Hall). split; [|split].
    + destruct Hin as [Heq|Hin]; [|right; by right].
      rewrite Heq. destruct (Z.max_spec a x) as [[_ ->]|[_ ->]];
        [right; left|by left].
    + lia.
    + intros v [->|Hv]%elem_of_cons; [lia|by apply Hall].
Qed.



Lemma latestNonZero_snoc (ds : list Z) (d : Z) :
  latestNonZero (ds ++ [d]) = numOr d (latestNonZero ds).
Proof.
  unfold latestNonZero, numOr. rewrite filter_app.
  destruct (Z.eqb_spec d 0) as [->|Hd].
  - rewrite filter_cons_False by (intros H; by apply H).
    by rewrite filter_nil, app_nil_r.
  - rewrite filter_cons_True by done. by rewrite filter_nil, last_snoc.
Qed.

Lemma entriesTitled_snoc (entries : list Movie) (m : Movie) (t : jsstring) :
  entriesTitled (entries ++ [m]) t =
  entriesTitled entries t ++ (if decide (trim (title m) = t) then [m] else []).
Proof. unfold entriesTitled. by rewrite filter_app. Qed.

Lemma calcOf_snoc_eq (entries : list Movie) (m : Movie) :
  calcOf (entries ++ [m]) (trim (title m)) =
  mkTvCalc (Z.max (maxEp (calcOf entries (trim (title m)))) (episodeOf m))
           (numOr (durationOf m) (epDuration (calcOf entries (trim (title m))))).
Proof.
  unfold calcOf. rewrite entriesTitled_snoc, decide_True by done.
  by rewrite !fmap_snoc, foldl_snoc, latestNonZero_snoc.
Qed.

Lemma calcOf_snoc_ne (entries : list Movie) (m : Movie) (t : jsstring) :
  trim (title m) ≠ t → calcOf (entries ++ [m]) t = calcOf entries t.
Proof.
  intros Hne. unfold calcOf.
  rewrite entriesTitled_snoc, (decide_False (P := trim (title m) = t)) by done.
  by rewrite app_nil_r.
Qed.

Lemma calcOf_untitled (entries : list Movie) (t : jsstring) :
  entriesTitled entries t = [] → calcOf entries t = mkTvCalc 0 0.
Proof. intros H. unfold calcOf. by rewrite H. Qed.

(** What the loop over the entries leaves in the map. *)
Lemma tvCalc_lookup (entries : list Movie) (t : jsstring) :
  foldl tvCalcStep ∅ entries !! t =
  if decide (entriesTitled entries t = []) then None
  else Some (calcOf entries t).
Proof.
  revert t. induction entries as [|m entries IH] using rev_ind; intros t.
  - simpl. by rewrite lookup_empty.
  - rewrite foldl_snoc. unfold tvCalcStep at 1. cbv zeta.
    assert (Hexisting :
      default (mkTvCalc 0 0) (foldl tvCalcStep ∅ entries !! trim (title m))
      = calcOf entries (trim (title m))).
    { rewrite IH. case_decide as Hnil; [|done].
      by rewrite calcOf_untitled. }
    rewrite Hexisting, entriesTitled_snoc.
    destruct (decide (trim (title m) = t)) as [<-|Hne].
    + rewrite lookup_insert_eq.
      rewrite decide_False by (by intros ?%app_eq_nil%proj2).
      by rewrite calcOf_snoc_eq.
    + rewrite lookup_insert_ne by done.
      by rewrite IH, app_nil_r, calcOf_snoc_ne.
Qed.

Lemma entriesTitled_nil_iff (entries : list Movie) (t : jsstring) :
  entriesTitled entries t = [] ↔ t ∉ (trim ∘ title <$> entries).
Proof.
  split.
  - intros Hnil (m & -> & Hin)%list_elem_of_fmap.
    by apply (filter_nil_not_elem_of _ _ m) in Hnil.
  - intros Hno. apply filter_none. intros m Hin <-.
    apply Hno, list_elem_of_fmap. by exists m.
Qed.

(** The map is the one that holds, at each distinct title, the value of
    that title. *)
Lemma tvCalcMap_list_to_map (l : list Movie) :
  tvCalcMap l =
  list_to_map ((λ t, (t, calcOf (tvEntries l) t)) <$> seriesTitles l).
Proof.
  assert (Hkeys : ((λ t, (t, calcOf (tvEntries l) t)) <$> seriesTitles l).*1
                  = seriesTitles l).
  { rewrite <- list_fmap_compose. apply list_fmap_id. }
  apply map_eq. intros t. unfold tvCalcMap. rewrite tvCalc_lookup.
  case_decide as Hnil.
  - symmetry. apply not_elem_of_list_to_map. rewrite Hkeys.
    unfold seriesTitles. rewrite elem_of_remove_dups.
    by apply entriesTitled_nil_iff.
  - symmetry. apply elem_of_list_to_map.
    + rewrite Hkeys. apply NoDup_remove_dups.
    + apply list_elem_of_fmap. exists t. split; [done|].
      unfold seriesTitles. rewrite elem_of_remove_dups.
      destruct (decide (t ∈ trim ∘ title <$> tvEntries l)) as [|Hno]; [done|].
      by apply entriesTitled_nil_iff in Hno.
Qed.

Lemma tvCalcValues_Permutation (l : list Movie) :
  tvCalcValues l ≡ₚ calcOf (tvEntries l) <$> seriesTitles l.
Proof.
  unfold tvCalcValues. rewrite tvCalcMap_list_to_map.
  rewrite map_to_list_to_map.
  - by rewrite <- list_fmap_compose.
  - rewrite <- list_fmap_compose. rewrite list_fmap_id.
    apply NoDup_remove_dups.
Qed.

Lemma tvCount_distinct_titles (l : list Movie) :
  tvCount l = length (seriesTitles l).
Proof.
  unfold tvCount, uniqueTvTitles, seriesTitles.
  rewrite <- (size_list_to_set (C := gset jsstring))
    by apply NoDup_remove_dups.
  f_equal. apply set_eq. intros t.
  by rewrite !elem_of_list_to_set, elem_of_remove_dups.
Qed.






(** *** Objects used as dictionaries *)

Lemma obj_get_set (o : list (jsstring * Z)) (k k' : jsstring) (v : Z) :
  obj_get (obj_set o k v) k' = if decide (k' = k) then Some v else obj_get o k'.
Proof.
  induction o as [|[k0 v0] o IH]; simpl.
  - done.
  - destruct (decide (k = k0)) as [->|Hne]; simpl.
    + by destruct (decide (k' = k0)).
    + rewrite IH. destruct (decide (k' = k0)) as [->|]; [|done].
      by rewrite decide_False.
Qed.

Lemma obj_set_keys (o : list (jsstring * Z)) (k : jsstring) (v : Z) :
  (obj_set o k v).*1 = if decide (k ∈ o.*1) then o.*1 else o.*1 ++ [k].
Proof.
  induction o as [|[k0 v0] o IH]; [done|]. cbn [obj_set].
  destruct (decide (k = k0)) as [->|Hne]; rewrite !fmap_cons; cbn [fst].
  - rewrite decide_True; [done|left].
  - rewrite IH. destruct (decide (k ∈ o.*1)) as [Hin|Hout].
    + rewrite decide_True; [done|by right].
    + rewrite decide_False; [done|].
      by intros [?|?]%elem_of_cons.
Qed.

Lemma obj_set_NoDup (o : list (jsstring * Z)) (k : jsstring) (v : Z) :
  NoDup o.*1 → NoDup (obj_set o k v).*1.
Proof.
  intros Hnd. rewrite obj_set_keys. case_decide as Hin; [done|].
  apply NoDup_app. split; [done|]. split; [|apply NoDup_singleton].
  intros x Hx ->%list_elem_of_singleton. done.
Qed.

Lemma obj_get_elem_of (o : list (jsstring * Z)) (k : jsstring) (v : Z) :
  NoDup o.*1 → (k, v) ∈ o ↔ obj_get o k = Some v.
Proof.
  induction o as [|[k0 v0] o IH]; intros Hnd; simpl.
  - split; [by intros ?%elem_of_nil|done].
  - apply NoDup_cons in Hnd as [Hout Hnd].
    rewrite elem_of_cons, IH by done.
    destruct (decide (k = k0)) as [->|Hne].
    + split.
      * intros [[= ->]|Hget]; [done|].
        apply IH in Hget; [|done]. destruct Hout.
        apply list_elem_of_fmap. by exists (k0, v).
      * intros [= ->]. by left.
    + split; [|by right]. by intros [[= ? ?]|?].
Qed.

(** *** Counting the tokens *)

Lemma optNumOr_0 (x : option Z) : optNumOr x 0 = default 0 x.
Proof.
  destruct x as [v|]; [|done]. unfold optNumOr, numOr. simpl.
  by destruct (Z.eqb_spec v 0).
Qed.

Lemma occurrences_cons (g x : jsstring) (gs : list jsstring) :
  occurrences g (x :: gs) =
  (if decide (x = g) then 1 else 0) + occurrences g gs.
Proof.
  unfold occurrences. rewrite filter_cons.
  destruct (decide (x = g)); simpl; lia.
Qed.




Lemma countIn_countGenre (o : list (jsstring * Z)) (x g : jsstring) :
  countIn (countGenre o x) g =
  countIn o g + (if decide (x = g) then 1 else 0).
Proof.
  unfold countIn, countGenre. rewrite obj_get_set, optNumOr_0.
  destruct (decide (g = x)) as [->|Hne].
  - by rewrite decide_True.
  - rewrite decide_False by done. lia.
Qed.

Lemma countIn_foldl (gs : list jsstring) : ∀ (o : list (jsstring * Z)) g,
  countIn (foldl countGenre o gs) g = countIn o g + occurrences g gs.
Proof.
  induction gs as [|x gs IH]; intros o g; simpl.
  - unfold occurrences. simpl. lia.
  - rewrite IH, countIn_countGenre, occurrences_cons. lia.
Qed.

Lemma keys_foldl (gs : list jsstring) : ∀ (o : list (jsstring * Z)) g,
  g ∈ (foldl countGenre o gs).*1 ↔ g ∈ o.*1 ∨ g ∈ gs.
Proof.
  induction gs as [|x gs IH]; intros o g; simpl.
  - rewrite elem_of_nil. tauto.
  - rewrite IH. unfold countGenre at 1. rewrite obj_set_keys.
    rewrite elem_of_cons. case_decide as Hin.
    + split; [tauto|]. intros [?|[->|?]]; tauto.
    + rewrite elem_of_app, list_elem_of_singleton. tauto.
Qed.

Lemma NoDup_foldl (gs : list jsstring) : ∀ o : list (jsstring * Z),
  NoDup o.*1 → NoDup (foldl countGenre o gs).*1.
Proof.
  induction gs as [|x gs IH]; intros o Hnd; [done|].
  simpl. apply IH. by apply obj_set_NoDup.
Qed.

Lemma genreCountsStep_tokens (o : list (jsstring * Z)) (m : Movie) :
  genreCountsStep o m = foldl countGenre o (recordGenres m).
Proof.
  unfold genreCountsStep, recordGenres. by destruct (genre m) as [[|c g]|].
Qed.

(** The histogram is the count of the tokens of all records, taken one
    after the other. *)
Lemma genreCounts_tokens (l : list Movie) :
  genreCounts l = foldl countGenre [] (allGenres l).
Proof.
  unfold genreCounts, allGenres. generalize (@nil (jsstring * Z)).
  induction l as [|m l IH]; intros o; [done|].
  rewrite bind_cons, foldl_app. simpl.
  by rewrite genreCountsStep_tokens, IH.
Qed.


(** *** Tokens of a genre field *)

Lemma trimStart_no_space (s : jsstring) :
  Forall (λ c, isWhiteSpace c = false) s → trimStart s = s.
Proof. destruct 1 as [|c s Hc _]; simpl; [done|]. by rewrite Hc. Qed.

Lemma trim_no_space (s : jsstring) :
  Forall (λ c, isWhiteSpace c = false) s → trim s = s.
Proof.
  intros Hs. unfold trim. rewrite (trimStart_no_space s) by done.
  rewrite trimStart_no_space; [apply reverse_involutive|].
  by apply Forall_reverse.
Qed.


Lemma separatorFree_no_space (t : jsstring) :
  separatorFree isGenreSeparator t → Forall (λ c, isWhiteSpace c = false) t.
Proof.
  intros Hfree. eapply Forall_impl; [exact Hfree|].
  intros c Hc. unfold isGenreSeparator in Hc.
  by apply orb_false_iff in Hc as [_ ?].
Qed.







Lemma countIn_genreCounts (l : list Movie) (g : jsstring) :
  countIn (genreCounts l) g = occurrences g (allGenres l).
Proof.
  rewrite genreCounts_tokens, countIn_foldl. unfold countIn. simpl. lia.
Qed.




(** Sorting with the comparator negated is not the reverse of the
    ascending order: two records that compare equal keep their order
    under the former and swap under the latter. *)
Lemma negated_comparator_differs :
  let a := sampleMovie "a" "Alien" None in
  let b := sampleMovie "b" "Brazil" None in
  sortedMovies (λ _ _, 0) (mkSortConfig ByRating desc) [a; b] = [b; a] ∧
  array_sort (λ x y, - compareMovies (λ _ _, 0) ByRating x y) [a; b] = [a; b].
Proof. split; by vm_compute. Qed.

(** ** Part IV. Further properties of the code *)

(** *** Selection *)

(** X1. Toggling the selection of a record twice gives the selection back; one
    toggle flips the membership of that identity and of no other. *)
Theorem toggleSelectMovie_involutive (id0 : jsstring)
    (selectedIds : gset jsstring) :
  toggleSelectMovie id0 (toggleSelectMovie id0 selectedIds) = selectedIds ∧
  (id0 ∈ toggleSelectMovie id0 selectedIds ↔ id0 ∉ selectedIds) ∧
  (∀ j, j ≠ id0 →
        (j ∈ toggleSelectMovie id0 selectedIds ↔ j ∈ selectedIds)).
Proof.
  assert (Hmem : ∀ j, j ∈ toggleSelectMovie id0 selectedIds ↔
            (j ≠ id0 ∧ j ∈ selectedIds) ∨ (j = id0 ∧ id0 ∉ selectedIds)).
  { intros j. unfold toggleSelectMovie.
    destruct (decide (id0 ∈ selectedIds)) as [Hin|Hout].
    - rewrite elem_of_difference, elem_of_singleton. tauto.
    - rewrite elem_of_union, elem_of_singleton.
      destruct (decide (j = id0)) as [->|]; tauto. }
  split; [|split].
  - apply set_eq. intros j. unfold toggleSelectMovie at 1.
    destruct (decide (id0 ∈ toggleSelectMovie id0 selectedIds)) as [Hin|Hout].
    + rewrite elem_of_difference, elem_of_singleton, Hmem.
      apply Hmem in Hin. destruct (decide (j = id0)) as [->|]; intuition congruence.
    + rewrite elem_of_union, elem_of_singleton, Hmem.
      rewrite Hmem in Hout.
      destruct (decide (j = id0)) as [->|], (decide (id0 ∈ selectedIds));
        intuition congruence.
  - rewrite Hmem. intuition congruence.
  - intros j Hj. rewrite Hmem. intuition congruence.
Qed.

Lemma size_ids_set (l : list Movie) :
  NoDup (ids l) →
  size (list_to_set (id <$> l) : gset jsstring) = length l.
Proof.
  intros Hnd. rewrite size_list_to_set by done. apply length_fmap.
Qed.

(** X2. With pairwise distinct identities, "select all" is a toggle: from an
    empty selection it selects the identities of all listed records, and used
    again it clears the selection. *)
Theorem handleSelectAll_toggles (sortedMovies : list Movie) :
  NoDup (ids sortedMovies) →
  (∀ i, i ∈ handleSelectAll ∅ sortedMovies ↔ i ∈ ids sortedMovies) ∧
  handleSelectAll (handleSelectAll ∅ sortedMovies) sortedMovies = ∅.
Proof.
  intros Hnd.
  assert (Hsel : handleSelectAll ∅ sortedMovies
                 = list_to_set (id <$> sortedMovies)).
  { unfold handleSelectAll. rewrite size_empty.
    destruct sortedMovies; [done|]. by rewrite decide_False. }
  rewrite Hsel. split.
  - intros i. by rewrite elem_of_list_to_set.
  - unfold handleSelectAll. rewrite (size_ids_set _ Hnd).
    by rewrite decide_True.
Qed.

Lemma handleSelectAll_toggles_witness :
  handleSelectAll
    (handleSelectAll ∅ [sampleMovie "a" "Alien" None; sampleMovie "b" "Brazil" None])
    [sampleMovie "a" "Alien" None; sampleMovie "b" "Brazil" None] = ∅.
Proof.
  apply (handleSelectAll_toggles
           [sampleMovie "a" "Alien" None; sampleMovie "b" "Brazil" None]).
  eapply bool_decide_unpack. vm_compute. exact I.
Defined.

(** X3. Selecting all listed records and confirming the bulk deletion leaves
    exactly the records whose identity is not listed, in their order; with
    nothing selected the bulk deletion does nothing. *)
Theorem select_all_then_bulk_delete (sortedMovies movies : list Movie) :
  sortedMovies ≠ [] →
  handleBulkDelete true (handleSelectAll ∅ sortedMovies) movies
    = filter (λ m, id m ∉ ids sortedMovies) movies ∧
  (ids movies ⊆ ids sortedMovies →
   handleBulkDelete true (handleSelectAll ∅ sortedMovies) movies = []) ∧
  (∀ confirmed, handleBulkDelete confirmed ∅ movies = movies).
Proof.
  intros Hne.
  assert (Hsel : handleSelectAll ∅ sortedMovies
                 = list_to_set (id <$> sortedMovies)).
  { unfold handleSelectAll. rewrite size_empty.
    destruct sortedMovies; [done|]. by rewrite decide_False. }
  assert (Hdel : handleBulkDelete true (handleSelectAll ∅ sortedMovies) movies
                 = filter (λ m, id m ∉ ids sortedMovies) movies).
  { rewrite Hsel. unfold handleBulkDelete.
    rewrite decide_False.
    - apply list_filter_iff. intros m. unfold ids.
      by rewrite elem_of_list_to_set.
    - destruct sortedMovies as [|m rest]; [done|].
      intros Hsize%size_empty_inv. simpl in Hsize.
      apply (not_elem_of_empty (C := gset jsstring) (id m)).
      apply Hsize, elem_of_union. left. by apply elem_of_singleton. }
  split; [done|]. split.
  - intros Hsub. rewrite Hdel. apply filter_none.
    intros m Hin Hout. apply Hout, Hsub. unfold ids.
    by apply list_elem_of_fmap_2.
  - intros confirmed. unfold handleBulkDelete.
    by rewrite size_empty, decide_True.
Qed.

Lemma select_all_then_bulk_delete_witness :
  handleBulkDelete true
    (handleSelectAll ∅ [sampleMovie "a" "Alien" None])
    [sampleMovie "b" "Brazil" None; sampleMovie "a" "Alien" None]
  = filter (λ m, id m ∉ ids [sampleMovie "a" "Alien" None])
      [sampleMovie "b" "Brazil" None; sampleMovie "a" "Alien" None].
Proof.
  apply (select_all_then_bulk_delete [sampleMovie "a" "Alien" None]).
  discriminate.
Defined.

(** *** The mutations of the record set *)

(** X4. Adding a record under a fresh identity and then deleting that identity
    gives the record set back. *)
Theorem add_then_delete (uuid : jsstring) (now : Z) (movieData : Movie)
    (prev : list Movie) :
  uuid ∉ ids prev →
  handleDeleteMovie true uuid (handleAddMovie uuid now movieData prev) = prev.
Proof.
  intros Hfresh. unfold handleDeleteMovie, handleAddMovie.
  rewrite filter_cons_False by (simpl; tauto).
  induction prev as [|m prev IH]; [done|].
  apply not_elem_of_cons in Hfresh as [Hne Hfresh].
  rewrite filter_cons_True by done. by rewrite IH.
Qed.

Lemma add_then_delete_witness :
  handleDeleteMovie true (str "n")
    (handleAddMovie (str "n") 5 (sampleMovie "" "Heat" None)
       [sampleMovie "a" "Alien" None])
  = [sampleMovie "a" "Alien" None].
Proof.
  apply add_then_delete. vm_compute.
  intros H%list_elem_of_singleton. discriminate.
Defined.

(** X5. A confirmed deletion removes every record of the given identity and
    nothing else, keeping the order; with distinct identities and the identity
    present, exactly one record goes. A declined deletion changes nothing. *)
Theorem handleDeleteMovie_effect (id0 : jsstring) (prev : list Movie) :
  (id0 ∉ ids (handleDeleteMovie true id0 prev)) ∧
  (∀ m, m ∈ handleDeleteMovie true id0 prev ↔ m ∈ prev ∧ id m ≠ id0) ∧
  (handleDeleteMovie true id0 prev `sublist_of` prev) ∧
  (NoDup (ids prev) → id0 ∈ ids prev →
   S (length (handleDeleteMovie true id0 prev)) = length prev) ∧
  handleDeleteMovie false id0 prev = prev.
Proof.
  unfold handleDeleteMovie. split; [|split; [|split; [|split; [|done]]]].
  - intros (m & Hid & Hin)%list_elem_of_fmap.
    apply list_elem_of_filter in Hin as [Hne _]. by destruct Hne.
  - intros m. rewrite list_elem_of_filter. tauto.
  - apply sublist_filter.
  - induction prev as [|m prev IH]; intros Hnd Hin.
    + by apply elem_of_nil in Hin.
    + change (ids (m :: prev)) with (id m :: ids prev) in *.
      apply NoDup_cons in Hnd as [Hout Hnd].
      destruct (decide (id m = id0)) as [Heq|Hne].
      * rewrite filter_cons_False by tauto. simpl. f_equal.
        assert (Hall : filter (λ m0, id m0 ≠ id0) prev = prev); [|by rewrite Hall].
        clear IH Hin Hnd. induction prev as [|m' prev IH']; [done|].
        change (ids (m' :: prev)) with (id m' :: ids prev) in Hout.
        apply not_elem_of_cons in Hout as [Hne' Hout].
        rewrite filter_cons_True by congruence. by rewrite IH'.
      * rewrite filter_cons_True by done. simpl. f_equal. apply IH; [done|].
        apply elem_of_cons in Hin as [Heq|Hin]; [congruence|done].
Qed.

Lemma handleDeleteMovie_effect_witness :
  S (length (handleDeleteMovie true (str "a")
               [sampleMovie "a" "Alien" None; sampleMovie "b" "Brazil" None]))
  = length [sampleMovie "a" "Alien" None; sampleMovie "b" "Brazil" None].
Proof.
  destruct (handleDeleteMovie_effect (str "a")
              [sampleMovie "a" "Alien" None; sampleMovie "b" "Brazil" None])
    as (_ & _ & _ & Hone & _).
  apply Hone.
  - eapply bool_decide_unpack. vm_compute. exact I.
  - vm_compute. left.
Defined.

(** X6. An update keeps the number and the places of the records and touches
    only records of the submitted identity: each of them takes the submitted
    fields with the new modification time, every other record is as before;
    for an identity that no record has, and when repeated, the update changes
    nothing more. *)
Theorem handleUpdateMovie_effect (now : Z) (movieData : Movie)
    (prev : list Movie) :
  length (handleUpdateMovie now movieData prev) = length prev ∧
  (∀ i m, prev !! i = Some m →
     handleUpdateMovie now movieData prev !! i =
     Some (if decide (id m = id movieData)
           then updatedMovie now m movieData else m)) ∧
  (∀ m, m ∈ handleUpdateMovie now movieData prev →
        id m = id movieData →
        lastUpdated m = now ∧ title m = title movieData ∧
        rating m = rating movieData ∧ status m = status movieData) ∧
  (id movieData ∉ ids prev → handleUpdateMovie now movieData prev = prev) ∧
  handleUpdateMovie now movieData (handleUpdateMovie now movieData prev)
    = handleUpdateMovie now movieData prev.
Proof.
  unfold handleUpdateMovie. split; [|split; [|split; [|split]]].
  - apply length_fmap.
  - intros i m Hi. by rewrite list_lookup_fmap, Hi.
  - intros m (m0 & -> & Hin)%list_elem_of_fmap Hid.
    destruct (decide (id m0 = id movieData)); [done|]. by destruct n.
  - intros Hout. rewrite <- (list_fmap_id prev) at 2.
    apply list_fmap_ext. intros i m Hi. simpl.
    rewrite decide_False; [done|]. intros Heq. apply Hout.
    rewrite <- Heq. unfold ids. apply list_elem_of_fmap_2.
    by eapply list_elem_of_lookup_2.
  - rewrite <- list_fmap_compose. apply list_fmap_ext. intros i m Hi. simpl.
    destruct (decide (id m = id movieData)) as [Heq|Hne].
    + by rewrite decide_True.
    + by rewrite decide_False.
Qed.

Lemma handleUpdateMovie_effect_witness :
  handleUpdateMovie 9 (sampleMovie "z" "Zardoz" None)
    [sampleMovie "a" "Alien" None]
  = [sampleMovie "a" "Alien" None].
Proof.
  destruct (handleUpdateMovie_effect 9 (sampleMovie "z" "Zardoz" None)
              [sampleMovie "a" "Alien" None]) as (_ & _ & _ & Habsent & _).
  apply Habsent. vm_compute. intros H%list_elem_of_singleton. discriminate.
Defined.

(** *** The import merge *)

Lemma mergeImport_added (movies newMovies : list Movie) :
  ∃ added, (mergeImport movies newMovies).1 = added ++ movies ∧
    (∀ m, m ∈ added → m ∈ newMovies ∧ id m ∉ ids movies) ∧
    match (mergeImport movies newMovies).2 with
    | AlertImported imported skipped =>
        imported = length added ∧ (0 < imported)%nat ∧
        (imported + skipped)%nat = length newMovies
    | AlertNoNewRecords => added = []
    | _ => False
    end.
Proof.
  exists (filter (λ m, id m ∉ ids movies) newMovies).
  split; [apply mergeImport_records|]. split.
  - intros m [? ?]%list_elem_of_filter. done.
  - unfold mergeImport. cbv zeta.
    assert (Heq : filter (λ m, id m ∉ (list_to_set (id <$> movies) : gset jsstring))
                    newMovies
                  = filter (λ m, id m ∉ ids movies) newMovies).
    { apply list_filter_iff. intros m. unfold ids.
      by rewrite elem_of_list_to_set. }
    rewrite Heq.
    pose proof (length_filter (λ m, id m ∉ ids movies) newMovies) as Hlen.
    destruct (filter (λ m, id m ∉ ids movies) newMovies) as [|m added] eqn:E.
    + done.
    + cbn [Nat.ltb Nat.leb length snd] in *. repeat split; lia.
Qed.

(** X7. An import never touches the records already there, accounts for every
    candidate as imported or skipped, and is idempotent: merging the same
    batch again adds nothing. *)
Theorem mergeImport_accounting (movies newMovies : list Movie) :
  (∃ added, (mergeImport movies newMovies).1 = added ++ movies ∧
     (∀ m, m ∈ added → m ∈ newMovies ∧ id m ∉ ids movies) ∧
     match (mergeImport movies newMovies).2 with
     | AlertImported imported skipped =>
         imported = length added ∧ (0 < imported)%nat ∧
         (imported + skipped)%nat = length newMovies
     | AlertNoNewRecords => added = []
     | _ => False
     end) ∧
  mergeImport (mergeImport movies newMovies).1 newMovies
    = ((mergeImport movies newMovies).1, AlertNoNewRecords).
Proof.
  split; [apply mergeImport_added|].
  apply mergeImport_all_known. rewrite mergeImport_records.
  intros i (m & -> & Hin)%list_elem_of_fmap. unfold ids.
  rewrite fmap_app, elem_of_app.
  destruct (decide (id m ∈ ids movies)) as [Hold|Hnew]; [by right|].
  left. apply list_elem_of_fmap_2. by apply list_elem_of_filter.
Qed.

(** X29. Whatever the file, an import leaves the records already there as they
    are and where they are: the result is the old list with records put in
    front, none of them under an identity the list had. Records are put in
    front only when the message reports them as imported, and then it reports
    their number; a file that is neither [.json] nor [.csv] changes nothing
    and is reported as unsupported. *)
Theorem handleFileChange_keeps_records (JSON_parse : jsstring → JsonParsed)
    (decodeCsv : jsstring → option (list Movie))
    (fileName content : jsstring) (movies : list Movie) :
  let result := handleFileChange JSON_parse decodeCsv fileName content movies in
  (∃ added, result.1 = added ++ movies ∧
     (∀ m, m ∈ added → id m ∉ ids movies) ∧
     match result.2 with
     | AlertImported imported _ =>
         imported = length added ∧ (0 < imported)%nat
     | _ => added = []
     end) ∧
  (endsWith fileName (str ".json") = false →
   endsWith fileName (str ".csv") = false →
   result = (movies, AlertUnsupported)).
Proof.
  intros result.
  assert (Hmerge : ∀ newMovies,
    ∃ added, (mergeImport movies newMovies).1 = added ++ movies ∧
      (∀ m, m ∈ added → id m ∉ ids movies) ∧
      match (mergeImport movies newMovies).2 with
      | AlertImported imported _ =>
          imported = length added ∧ (0 < imported)%nat
      | _ => added = []
      end).
  { intros newMovies.
    destruct (mergeImport_added movies newMovies) as (added & Heq & Hnew & Halert).
    exists added. split; [done|]. split; [intros m Hm; by apply Hnew|].
    destruct (mergeImport movies newMovies).2; tauto. }
  assert (Hkept : ∀ alert,
    match alert with AlertImported _ _ => False | _ => True end →
    ∃ added, (movies, alert).1 = added ++ movies ∧
      (∀ m, m ∈ added → id m ∉ ids movies) ∧
      match (movies, alert).2 with
      | AlertImported imported _ =>
          imported = length added ∧ (0 < imported)%nat
      | _ => added = []
      end).
  { intros alert Halert. exists []. split; [done|].
    split; [by intros m ?%elem_of_nil|]. by destruct alert. }
  unfold result, handleFileChange. split.
  - destruct (endsWith fileName (str ".json")).
    + destruct (JSON_parse content) as [| |parsed];
        [by apply Hkept..|apply Hmerge].
    + destruct (endsWith fileName (str ".csv")); [|by apply Hkept].
      destruct (decodeCsv content) as [newMovies|];
        [apply Hmerge|by apply Hkept].
  - by intros -> ->.
Qed.

(** *** Filtering *)

Section FilteringFacts.
Variable toLowerCase : jsstring → jsstring.
Variable numberToString : Z → jsstring.
Variable getFullYear : Z → Z.
Variable getMonth : Z → Z.
Variable cutoff7 : Z.
Variable cutoff30 : Z.

Local Abbreviation filtered :=
  (filteredMovies toLowerCase numberToString getFullYear getMonth
     cutoff7 cutoff30).
Local Abbreviation dateMatch :=
  (matchesDate numberToString getFullYear getMonth cutoff7 cutoff30).

Lemma matchesSearch_empty (m : Movie) : matchesSearch toLowerCase [] m = true.
Proof. reflexivity. Qed.

Lemma matchesStatus_all (m : Movie) : matchesStatus allStatuses m = true.
Proof. unfold matchesStatus. by rewrite bool_decide_eq_true_2. Qed.

Lemma matchesCountry_all (m : Movie) : matchesCountry (str "all") m = true.
Proof. reflexivity. Qed.

Lemma matchesDate_all (m : Movie) : dateMatch (str "all") m = true.
Proof. reflexivity. Qed.

(** X8. The neutral filter keeps every record, and the four criteria act
    independently: filtering by all of them is filtering by each of them in
    turn, the others left neutral. A filtered list is a sublist of the
    records. *)
Theorem filteredMovies_composes (cfg : FilterConfig) (movies : list Movie) :
  filtered neutralFilter movies = movies ∧
  filtered cfg movies =
    filtered (mkFilterConfig (searchTerm cfg) allStatuses (str "all") (str "all"))
      (filtered (mkFilterConfig [] (filterStatus cfg) (str "all") (str "all"))
         (filtered (mkFilterConfig [] allStatuses (dateFilter cfg) (str "all"))
            (filtered (mkFilterConfig [] allStatuses (str "all") (filterCountry cfg))
               movies))) ∧
  (filtered cfg movies `sublist_of` movies).
Proof.
  split; [|split].
  - unfold filteredMovies, neutralFilter.
    cbn [searchTerm filterStatus dateFilter filterCountry].
    induction movies as [|m movies IH]; [done|].
    rewrite filter_cons_True; [by rewrite IH|].
    by rewrite matchesSearch_empty, matchesStatus_all, matchesDate_all,
      matchesCountry_all.
  - unfold filteredMovies. cbn [searchTerm filterStatus dateFilter filterCountry].
    rewrite !list_filter_filter. apply list_filter_iff. intros m.
    rewrite matchesSearch_empty, !matchesStatus_all, !matchesCountry_all,
      !matchesDate_all.
    destruct (matchesSearch toLowerCase (searchTerm cfg) m),
      (matchesStatus (filterStatus cfg) m), (dateMatch (dateFilter cfg) m),
      (matchesCountry (filterCountry cfg) m); simpl; tauto.
  - apply sublist_filter.
Qed.

(** X9. A record without a country (absent or empty) passes no country
    selector but "all". *)
Theorem country_filter_drops_blank (cfg : FilterConfig) (movies : list Movie)
    (m : Movie) :
  filterCountry cfg ≠ str "all" → isBlank (country m) = true →
  m ∉ filtered cfg movies.
Proof.
  intros Hsel Hblank [Hcond _]%list_elem_of_filter.
  apply Is_true_true in Hcond.
  apply andb_true_iff in Hcond as [_ Hc]. unfold matchesCountry in Hc.
  rewrite bool_decide_eq_false_2 in Hc by done.
  by destruct (country m) as [[|c s]|].
Qed.
Lemma splitChar_go_plain (c : N) (y : jsstring) : ∀ cur,
  c ∉ y → splitChar_go c cur y = [cur ++ y].
Proof.
  induction y as [|d y IH]; intros cur Hy; simpl.
  - by rewrite app_nil_r.
  - apply not_elem_of_cons in Hy as [Hd Hy].
    rewrite decide_False by done. rewrite IH by done.
    by rewrite <- app_assoc.
Qed.

Lemma splitChar_two (c : N) (pre y : jsstring) :
  c ∉ pre → c ∉ y → splitChar c (pre ++ c :: y) = [pre; y].
Proof.
  intros Hpre Hy. unfold splitChar.
  assert (Hgo : ∀ cur, splitChar_go c cur (pre ++ c :: y) = [cur ++ pre; y]).
  { induction pre as [|d pre IH]; intros cur; simpl.
    - rewrite decide_True by done. rewrite app_nil_r.
      by rewrite splitChar_go_plain.
    - apply not_elem_of_cons in Hpre as [Hd Hpre].
      rewrite decide_False by done. rewrite IH by done.
      by rewrite <- app_assoc. }
  apply Hgo.
Qed.

Lemma removeFirst_prefix (pattern s : jsstring) :
  startsWith s pattern = true → removeFirst pattern s = drop (length pattern) s.
Proof. intros H. destruct s; cbn [removeFirst]; by rewrite H. Qed.

Lemma matchesDate_year (m : Movie) (y : jsstring) :
  95%N ∉ y →
  dateMatch (str "year_" ++ y) m =
  match parseInt y with
  | Some year => getFullYear (addedAt m) =? year
  | None => false
  end.
Proof.
  intros Hy. unfold matchesDate.
  rewrite !bool_decide_eq_false_2 by discriminate.
  replace (startsWith (str "year_" ++ y) (str "year_")) with true
    by (symmetry; apply startsWith_spec; by exists y).
  change (str "year_" ++ y) with (str "year" ++ 95%N :: y).
  rewrite splitChar_two; [done| |done].
  vm_compute. intros H.
  repeat (apply elem_of_cons in H as [H|H]; [discriminate|]).
  by apply elem_of_nil in H.
Qed.

Lemma matchesDate_month (m : Movie) (ym : jsstring) :
  dateMatch (str "month_" ++ ym) m =
  bool_decide
    (ym = numberToString (getFullYear (addedAt m)) ++ str "-"
          ++ padStart2 (numberToString (getMonth (addedAt m) + 1))).
Proof.
  unfold matchesDate.
  rewrite !bool_decide_eq_false_2 by discriminate.
  replace (startsWith (str "month_" ++ ym) (str "year_")) with false
    by reflexivity.
  replace (startsWith (str "month_" ++ ym) (str "month_")) with true
    by (symmetry; apply startsWith_spec; by exists ym).
  cbv zeta. rewrite removeFirst_prefix
    by (apply startsWith_spec; by exists ym).
  done.
Qed.

(** X10. The date selectors that carry a value. [year_Y], for [Y] without an
    underscore, keeps the records whose calendar year is the integer that [Y]
    starts with, and none when [Y] starts with no integer; [month_YM] keeps
    the records whose year and two-digit month, joined by a hyphen, are [YM];
    a selector of no known form filters nothing. *)
Theorem date_selectors (m : Movie) :
  (∀ y, 95%N ∉ y →
     dateMatch (str "year_" ++ y) m =
     match parseInt y with
     | Some year => getFullYear (addedAt m) =? year
     | None => false
     end) ∧
  (∀ ym,
     dateMatch (str "month_" ++ ym) m =
     bool_decide
       (ym = numberToString (getFullYear (addedAt m)) ++ str "-"
             ++ padStart2 (numberToString (getMonth (addedAt m) + 1)))) ∧
  (∀ selector,
     selector ≠ str "7d" → selector ≠ str "30d" →
     startsWith selector (str "year_") = false →
     startsWith selector (str "month_") = false →
     dateMatch selector m = true).
Proof.
  split; [|split].
  - intros y Hy. by apply matchesDate_year.
  - apply matchesDate_month.
  - intros selector H7 H30 Hyear Hmonth. unfold matchesDate.
    destruct (bool_decide (selector = str "all")); [done|].
    rewrite !bool_decide_eq_false_2 by done. by rewrite Hyear, Hmonth.
Qed.
End FilteringFacts.

Lemma country_filter_drops_blank_witness :
  sampleMovie "a" "Alien" None ∉
  filteredMovies asciiLower (λ _, []) (λ t, t) (λ t, t) 0 0
    (mkFilterConfig [] allStatuses (str "all") (str "USA"))
    [sampleMovie "a" "Alien" None].
Proof.
  apply country_filter_drops_blank; [discriminate|reflexivity].
Defined.

Lemma date_selectors_witness :
  matchesDate (λ _, []) (λ t, t) (λ t, t) 0 0 (str "year_20xx")
    (sampleMovie "a" "Alien" None)
  = match parseInt (str "20xx") with
    | Some year => addedAt (sampleMovie "a" "Alien" None) =? year
    | None => false
    end.
Proof.
  destruct (date_selectors (λ _, []) (λ t, t) (λ t, t) 0 0
              (sampleMovie "a" "Alien" None)) as (Hyear & _).
  apply (Hyear (str "20xx")).
  vm_compute. intros H.
  repeat (apply elem_of_cons in H as [H|H]; [discriminate|]).
  by apply elem_of_nil in H.
Defined.

(** *** Country options *)

Lemma set_add_elem {A} `{EqDecision A} (s : list A) (x y : A) :
  y ∈ set_add s x ↔ y ∈ s ∨ y = x.
Proof.
  unfold set_add. case_decide as Hin.
  - split; [by left|]. intros [?| ->]; done.
  - rewrite elem_of_app, list_elem_of_singleton. tauto.
Qed.

Lemma set_add_NoDup {A} `{EqDecision A} (s : list A) (x : A) :
  NoDup s → NoDup (set_add s x).
Proof.
  intros Hnd. unfold set_add. case_decide as Hin; [done|].
  apply NoDup_app. split; [done|]. split; [|apply NoDup_singleton].
  by intros y Hy ->%list_elem_of_singleton.
Qed.

Lemma add_parts_spec (parts : list jsstring) : ∀ (cs : list jsstring),
  let cs' :=
    foldl (λ cs part, match part with [] => cs | _ :: _ => set_add cs part end)
      cs parts in
  (NoDup cs → NoDup cs') ∧
  ∀ c, c ∈ cs' ↔ c ∈ cs ∨ (c ∈ parts ∧ c ≠ []).
Proof.
  induction parts as [|p parts IH]; intros cs; simpl.
  - split; [done|]. intros c. rewrite elem_of_nil. tauto.
  - destruct (IH (match p with [] => cs | _ :: _ => set_add cs p end))
      as [Hnd Hmem].
    split.
    + intros Hcs. apply Hnd. destruct p; [done|by apply set_add_NoDup].
    + intros c. rewrite Hmem, elem_of_cons. destruct p as [|d p]; cbn match.
      * split; [intros [?|[? ?]]; [by left|right; split; [by right|done]]|].
        intros [?|[[Hc|?] Hne]]; [by left| |by right]. by destruct Hne.
      * rewrite set_add_elem. split.
        -- intros [[?| ->]|[? ?]]; [by left| |].
           ++ right. split; [by left|done].
           ++ right. split; [by right|done].
        -- intros [?|[[->|?] ?]]; [by left; left|by left; right|by right].
Qed.

(** The parts of a country field, trimmed, are its pieces. *)
Lemma trimmed_pieces (s : jsstring) :
  trim <$> split isGenreSeparator s = split isGenreSeparator s.
Proof.
  rewrite <- (list_fmap_id (split isGenreSeparator s)) at 2.
  apply list_fmap_ext. intros i p Hp. simpl.
  apply trim_no_space, separatorFree_no_space.
  eapply split_pieces, list_elem_of_lookup_2, Hp.
Qed.

Lemma addCountries_spec (movies : list Movie) : ∀ (cs : list jsstring),
  (NoDup cs → NoDup (foldl addCountries cs movies)) ∧
  ∀ c, c ∈ foldl addCountries cs movies ↔
       c ∈ cs ∨ ∃ m s, m ∈ movies ∧ country m = Some s ∧
                       c ∈ split isGenreSeparator s ∧ c ≠ [].
Proof.
  induction movies as [|m movies IH]; intros cs; simpl.
  - split; [done|]. intros c. split; [by left|].
    intros [?|(m & s & Hin & _)]; [done|]. by apply elem_of_nil in Hin.
  - destruct (IH (addCountries cs m)) as [Hnd Hmem].
    assert (Hstep : (NoDup cs → NoDup (addCountries cs m)) ∧
              ∀ c, c ∈ addCountries cs m ↔
                   c ∈ cs ∨ ∃ s, country m = Some s ∧
                                 c ∈ split isGenreSeparator s ∧ c ≠ []).
    { unfold addCountries. destruct (country m) as [[|d s]|] eqn:E.
      - split; [done|]. intros c. split; [by left|].
        intros [?|(s & [= <-] & Hin & Hne)]; [done|].
        apply list_elem_of_singleton in Hin. by destruct Hne.
      - rewrite trimmed_pieces.
        destruct (add_parts_spec (split isGenreSeparator (d :: s)) cs)
          as [Hnd' Hmem'].
        split; [done|]. intros c. rewrite Hmem'. split.
        + intros [?|[? ?]]; [by left|]. right. by exists (d :: s).
        + intros [?|(s' & [= <-] & ? & ?)]; [by left|by right].
      - split; [done|]. intros c. split; [by left|].
        by intros [?|(s & ? & _)]. }
    destruct Hstep as [Hnd1 Hmem1]. split; [by intros ?; apply Hnd, Hnd1|].
    intros c. rewrite Hmem, Hmem1. split.
    + intros [[?|(s & ? & ? & ?)]|(m' & s & ? & ? & ? & ?)].
      * by left.
      * right. exists m, s. split; [left|done].
      * right. exists m', s. split; [by right|done].
    + intros [?|(m' & s & [->|?]%elem_of_cons & ? & ? & ?)].
      * left. by left.
      * left. right. by exists s.
      * right. by exists m', s.
Qed.

Section CountryOptionsFacts.
Variable toLowerCase : jsstring → jsstring.
Variable numberToString : Z → jsstring.
Variable getFullYear : Z → Z.
Variable getMonth : Z → Z.
Variable cutoff7 : Z.
Variable cutoff30 : Z.
Variable localeCompare : jsstring → jsstring → Z.

(** X11. The country options are, without repetition, the non-empty pieces of
    the country fields of the records; and every option, chosen as the country
    selector with the other criteria neutral, keeps at least one record. *)
Theorem countryOptions_spec (movies : list Movie) :
  NoDup (countryOptions localeCompare movies) ∧
  (∀ c, c ∈ countryOptions localeCompare movies ↔
        ∃ m s, m ∈ movies ∧ country m = Some s ∧
               c ∈ split isGenreSeparator s ∧ c ≠ []) ∧
  (∀ c, c ∈ countryOptions localeCompare movies →
        filteredMovies toLowerCase numberToString getFullYear getMonth
          cutoff7 cutoff30
          (mkFilterConfig [] allStatuses (str "all") c) movies ≠ []).
Proof.
  destruct (addCountries_spec movies []) as [Hnd Hmem].
  assert (Hspec : ∀ c, c ∈ countryOptions localeCompare movies ↔
            ∃ m s, m ∈ movies ∧ country m = Some s ∧
                   c ∈ split isGenreSeparator s ∧ c ≠ []).
  { intros c. unfold countryOptions. rewrite array_sort_Permutation, Hmem.
    rewrite elem_of_nil. tauto. }
  split; [|split; [done|]].
  - unfold countryOptions. rewrite array_sort_Permutation.
    apply Hnd. constructor.
  - intros c (m & s & Hin & Hs & Hpiece & Hne)%Hspec Hnone.
    assert (Hno : m ∉ movies); [|done].
    eapply filter_nil_not_elem_of; [exact Hnone|].
    cbn [searchTerm filterStatus dateFilter filterCountry].
    rewrite matchesSearch_empty, matchesStatus_all.
    apply Is_true_true. simpl. unfold matchesCountry. rewrite Hs.
    apply orb_true_iff. right.
    apply split_pieces in Hpiece as [_ (pre & post & -> & _)].
    destruct (pre ++ c ++ post) as [|d rest] eqn:E.
    + apply app_eq_nil in E as [_ E]. apply app_eq_nil in E as [E _].
      by destruct Hne.
    + rewrite <- E. apply includes_spec. by exists pre, post.
Qed.
End CountryOptionsFacts.

(** *** Pages *)

(** X12. For a positive page size, every page before the last is full, the
    last page holds between one record and a full page, and a page past the
    last is empty. *)
Theorem page_lengths {A} (sorted : list A) (size page : Z) :
  0 < size → 1 ≤ page →
  let pages := totalPages (mkPageState 1 size) sorted in
  let shown := currentDisplayedMovies (mkPageState page size) sorted in
  (page < pages → Z.of_nat (length shown) = size) ∧
  (page = pages → 1 ≤ Z.of_nat (length shown) ≤ size) ∧
  (pages < page → shown = []).
Proof.
  intros Hs Hp pages shown.
  assert (Hceil : (pages - 1) * size < Z.of_nat (length sorted) ≤ pages * size)
    by apply (ceilDiv_spec (Z.of_nat (length sorted)) size Hs).
  clearbody pages.
  assert (Hshown : shown =
    take (Z.to_nat size) (drop (Z.to_nat ((page - 1) * size)) sorted)).
  { unfold shown, currentDisplayedMovies, indexOfFirstItem, indexOfLastItem.
    simpl. rewrite slice_take_drop by nia. do 2 f_equal; lia. }
  assert (Hlen : Z.of_nat (length shown) =
    Z.min size (Z.max 0 (Z.of_nat (length sorted) - (page - 1) * size))).
  { assert (0 ≤ (page - 1) * size) by (apply Z.mul_nonneg_nonneg; lia).
    rewrite Hshown, length_take, length_drop. lia. }
  clearbody shown.
  assert (Hprev : (page - 1) * size = page * size - size) by ring.
  assert (Hprev' : (pages - 1) * size = pages * size - size) by ring.
  split; [|split].
  - intros Hlt. rewrite Hlen.
    assert (page * size ≤ (pages - 1) * size)
      by (apply Z.mul_le_mono_nonneg_r; lia).
    lia.
  - intros Heq. rewrite Hlen. subst page. lia.
  - intros Hgt. apply length_zero_iff_nil.
    apply Nat2Z.inj. rewrite Hlen.
    assert (pages * size ≤ (page - 1) * size)
      by (apply Z.mul_le_mono_nonneg_r; lia).
    lia.
Qed.

Lemma page_lengths_witness :
  currentDisplayedMovies (mkPageState 4 2) [1; 2; 3; 4; 5] = [].
Proof.
  assert (Hs : 0 < 2) by lia. assert (Hp : 1 ≤ 4) by lia.
  destruct (page_lengths [1; 2; 3; 4; 5] 2 4 Hs Hp) as (_ & _ & Hpast).
  apply Hpast. vm_compute. reflexivity.
Defined.

(** *** The status and rating histograms *)

Lemma sumZ_obj_set (o : list (jsstring * Z)) (k : jsstring) (v : Z) :
  sumZ snd (obj_set o k v) = sumZ snd o - countIn o k + v.
Proof.
  unfold countIn. induction o as [|[k0 v0] o IH]; cbn [obj_set obj_get].
  - rewrite sumZ_cons. simpl. unfold sumZ. simpl. lia.
  - destruct (decide (k = k0)) as [->|Hne].
    + rewrite !sumZ_cons. simpl. lia.
    + rewrite !sumZ_cons, IH. simpl. lia.
Qed.

Lemma sumZ_countGenre (gs : list jsstring) : ∀ o : list (jsstring * Z),
  sumZ snd (foldl countGenre o gs) = sumZ snd o + Z.of_nat (length gs).
Proof.
  induction gs as [|g gs IH]; intros o; simpl; [lia|].
  rewrite IH. unfold countGenre. rewrite sumZ_obj_set, optNumOr_0.
  unfold countIn. lia.
Qed.

Lemma foldl_fmap_keys {A} (f : A → jsstring) (l : list A) :
  ∀ o : list (jsstring * Z),
  foldl (λ acc x, countGenre acc (f x)) o l = foldl countGenre o (f <$> l).
Proof. induction l as [|x l IH]; intros o; simpl; [done|apply IH]. Qed.

Lemma occurrences_fmap {A} (f : A → jsstring) (g : jsstring) (l : list A) :
  occurrences g (f <$> l) = Z.of_nat (length (filter (λ x, f x = g) l)).
Proof.
  unfold occurrences. f_equal. induction l as [|x l IH]; [done|].
  rewrite fmap_cons, !filter_cons.
  destruct (decide (f x = g)); simpl; by rewrite IH.
Qed.

(** An object whose keys are no array indices lists its entries in the
    order of their creation. *)
Lemma Object_entries_plain (o : list (jsstring * Z)) :
  (∀ e, e ∈ o → arrayIndex e.1 = None) → Object_entries o = o.
Proof.
  intros Hplain. unfold Object_entries.
  rewrite filter_none.
  - simpl. induction o as [|e o IH]; [done|].
    rewrite filter_cons_True.
    + rewrite IH; [done|]. intros e' He'. apply Hplain. by right.
    + rewrite (Hplain e) by left. by intros [? ?].
  - intros e He [v Hv]. rewrite (Hplain e He) in Hv. discriminate.
Qed.

Lemma keys_with_values (o : list (jsstring * Z)) :
  NoDup o.*1 → (λ name, (name, default 0 (obj_get o name))) <$> o.*1 = o.
Proof.
  intros Hnd. rewrite <- list_fmap_compose.
  rewrite <- (list_fmap_id o) at 2.
  apply list_fmap_ext. intros i [k v] Hi. simpl.
  assert (Hget : obj_get o k = Some v).
  { apply obj_get_elem_of; [done|]. by eapply list_elem_of_lookup_2. }
  by rewrite Hget.
Qed.

(** X13. The status histogram lists each status that occurs once, with the
    number of records that have it, and its counts add up to the number of
    records. *)
Theorem status_histogram (l : list Movie) :
  NoDup (statusData l).*1 ∧
  (∀ name c, (name, c) ∈ statusData l ↔
     (∃ m, m ∈ l ∧ statusText (status m) = name) ∧ c = withStatus name l) ∧
  sumZ snd (statusData l) = Z.of_nat (total l).
Proof.
  assert (Hcounts : statusCounts l
                    = foldl countGenre [] (statusText ∘ status <$> l)).
  { unfold statusCounts. apply (foldl_fmap_keys (statusText ∘ status)). }
  assert (Hnd : NoDup (statusCounts l).*1).
  { rewrite Hcounts. apply NoDup_foldl. constructor. }
  assert (Hkeys : ∀ name, name ∈ (statusCounts l).*1 ↔
                          ∃ m, m ∈ l ∧ statusText (status m) = name).
  { intros name. rewrite Hcounts, keys_foldl. simpl.
    rewrite elem_of_nil, list_elem_of_fmap. split.
    - intros [[]|(m & -> & ?)]. by exists m.
    - intros (m & ? & <-). right. by exists m. }
  assert (Hdata : statusData l = statusCounts l).
  { unfold statusData. rewrite Object_entries_plain.
    - by apply keys_with_values.
    - intros [k v] He. simpl.
      assert (Hk : k ∈ (statusCounts l).*1).
      { apply list_elem_of_fmap. by exists (k, v). }
      apply Hkeys in Hk as (m & _ & <-). by destruct (status m). }
  rewrite Hdata. split; [done|]. split.
  - intros name c. rewrite obj_get_elem_of by done.
    assert (Hcount : countIn (statusCounts l) name = withStatus name l).
    { rewrite Hcounts, countIn_foldl. unfold countIn, withStatus. simpl.
      by rewrite (occurrences_fmap (statusText ∘ status)). }
    unfold countIn in Hcount. split.
    + intros Hget. rewrite Hget in Hcount. simpl in Hcount. split; [|done].
      apply Hkeys, list_elem_of_fmap. exists (name, c). split; [done|].
      by apply obj_get_elem_of.
    + intros [Hin ->].
      apply Hkeys, list_elem_of_fmap in Hin as ([k v] & -> & Hin).
      apply obj_get_elem_of in Hin; [|done]. simpl in *.
      rewrite Hin in Hcount. simpl in Hcount. by rewrite Hin, Hcount.
  - rewrite Hcounts, sumZ_countGenre, length_fmap. unfold sumZ. simpl. done.
Qed.




(** *** The totals of the statistics panel *)

Lemma sumZ_nonneg {A} (f : A → Z) (l : list A) :
  (∀ x, x ∈ l → 0 ≤ f x) → 0 ≤ sumZ f l.
Proof.
  induction l as [|x l IH]; intros Hpos; [done|].
  rewrite sumZ_cons. assert (0 ≤ f x) by (apply Hpos; left).
  assert (0 ≤ sumZ f l) by (apply IH; intros y Hy; apply Hpos; by right).
  lia.
Qed.

Lemma latestNonZero_nonneg (ds : list Z) :
  (∀ d, d ∈ ds → 0 ≤ d) → 0 ≤ latestNonZero ds.
Proof.
  intros Hpos. unfold latestNonZero.
  destruct (last (filter (λ d, d ≠ 0) ds)) as [d|] eqn:Hlast; [|done].
  simpl. apply Hpos. apply last_Some in Hlast as [l' Hl'].
  assert (Hd : d ∈ filter (λ d, d ≠ 0) ds).
  { rewrite Hl'. apply elem_of_app. right. left. }
  by apply list_elem_of_filter in Hd as [_ Hd].
Qed.

Lemma tvDuration_sum (l : list Movie) :
  tvDuration l =
  sumZ (λ t, maxEp (calcOf (tvEntries l) t) * epDuration (calcOf (tvEntries l) t))
       (seriesTitles l).
Proof.
  unfold tvDuration.
  change (foldl (λ sum item, sum + maxEp item * epDuration item) 0
            (tvCalcValues l))
    with (sumZ (λ item, maxEp item * epDuration item) (tvCalcValues l)).
  rewrite (sumZ_Permutation _ _ _ (tvCalcValues_Permutation l)).
  by rewrite sumZ_fmap.
Qed.

Lemma totalEpisodesWatched_sum (l : list Movie) :
  totalEpisodesWatched l =
  sumZ (λ t, maxEp (calcOf (tvEntries l) t)) (seriesTitles l).
Proof.
  unfold totalEpisodesWatched.
  change (foldl (λ sum item, sum + maxEp item) 0 (tvCalcValues l))
    with (sumZ maxEp (tvCalcValues l)).
  rewrite (sumZ_Permutation _ _ _ (tvCalcValues_Permutation l)).
  by rewrite sumZ_fmap.
Qed.

Lemma maxEp_nonneg (entries : list Movie) (t : jsstring) :
  0 ≤ maxEp (calcOf entries t).
Proof.
  simpl. by destruct (foldl_max_bounds (episodeOf <$> entriesTitled entries t) 0)
    as (_ & Hle & _).
Qed.

(** X15. When no duration is negative, the hours and minutes shown recombine
    to the total of minutes, with the minutes below an hour and neither of
    them negative. Episode numbers need no such condition: a series never
    counts fewer than zero episodes, so the episodes watched are never
    negative. *)
Theorem duration_hours_minutes (l : list Movie) :
  (∀ m, m ∈ l → 0 ≤ durationOf m) →
  let hours := (totalDurationFormatted l).1 in
  let minutes := (totalDurationFormatted l).2 in
  hours * 60 + minutes = totalMinutes l ∧ 0 ≤ minutes < 60 ∧ 0 ≤ hours ∧
  0 ≤ totalEpisodesWatched l.
Proof.
  intros Hdur. unfold totalDurationFormatted. cbn [fst snd]. cbv zeta.
  assert (Hfilm : 0 ≤ movieDuration l).
  { rewrite movieDuration_sum. apply sumZ_nonneg.
    intros m [_ Hm]%list_elem_of_filter. by apply Hdur. }
  assert (Hseries : 0 ≤ tvDuration l).
  { rewrite tvDuration_sum. apply sumZ_nonneg. intros t _.
    apply Z.mul_nonneg_nonneg; [apply maxEp_nonneg|].
    simpl. apply latestNonZero_nonneg.
    intros d (m & -> & Hm)%list_elem_of_fmap.
    apply list_elem_of_filter in Hm as [_ Hm].
    apply list_elem_of_filter in Hm as [_ Hm]. by apply Hdur. }
  assert (Htotal : 0 ≤ totalMinutes l) by (unfold totalMinutes; lia).
  assert (Hwatched : 0 ≤ totalEpisodesWatched l).
  { rewrite totalEpisodesWatched_sum. apply sumZ_nonneg. intros t _.
    apply maxEp_nonneg. }
  rewrite Z.rem_mod_nonneg by lia.
  pose proof (Z.div_mod (totalMinutes l) 60 ltac:(lia)).
  pose proof (Z.mod_pos_bound (totalMinutes l) 60 ltac:(lia)).
  pose proof (Z.div_pos (totalMinutes l) 60 Htotal ltac:(lia)).
  split; [lia|]. split; [lia|]. split; [lia|done].
Qed.

Lemma duration_hours_minutes_witness :
  (totalDurationFormatted
     [sampleEpisode "a" "Dark" 3 50; sampleMovie "b" "Brazil" None]).1 * 60
  + (totalDurationFormatted
       [sampleEpisode "a" "Dark" 3 50; sampleMovie "b" "Brazil" None]).2
  = totalMinutes [sampleEpisode "a" "Dark" 3 50; sampleMovie "b" "Brazil" None].
Proof.
  apply (duration_hours_minutes
           [sampleEpisode "a" "Dark" 3 50; sampleMovie "b" "Brazil" None]).
  intros m Hm.
  repeat (apply elem_of_cons in Hm as [->|Hm]; [by vm_compute|]).
  by apply elem_of_nil in Hm.
Defined.

Lemma foldl_max_Permutation (l1 l2 : list Z) :
  l1 ≡ₚ l2 → ∀ a, foldl Z.max a l1 = foldl Z.max a l2.
Proof.
  induction 1 as [|x l1 l2 _ IH|x y l|l1 l2 l3 _ IH1 _ IH2]; intros a; simpl.
  - done.
  - apply IH.
  - f_equal. lia.
  - by rewrite IH1.
Qed.

(** X16. Every record is a film or a series entry, never both; the series
    counted are never more than the series entries; and the counts of films
    and series, the film minutes, the episodes watched and each genre's count
    do not depend on the order of the records. *)
Theorem stats_counts (l l' : list Movie) :
  total l = (movieCount l + length (tvEntries l))%nat ∧
  (tvCount l ≤ length (tvEntries l))%nat ∧
  (l ≡ₚ l' →
   movieCount l = movieCount l' ∧ movieDuration l = movieDuration l' ∧
   tvCount l = tvCount l' ∧
   totalEpisodesWatched l = totalEpisodesWatched l' ∧
   ∀ g, countIn (genreCounts l) g = countIn (genreCounts l') g).
Proof.
  split; [|split].
  - unfold total, movieCount, tvEntries.
    induction l as [|m l IH]; [done|].
    rewrite !filter_cons.
    assert (Hkind : isMovie m ∧ mediaType m ≠ Some tv
                    ∨ ¬ isMovie m ∧ mediaType m = Some tv).
    { unfold isMovie. destruct (mediaType m) as [[]|]; simpl; intuition done. }
    destruct Hkind as [[Hfilm Hno]|[Hno Hseries]].
    + rewrite (decide_True (P := Is_true (isMovie m))) by done.
      rewrite (decide_False (P := mediaType m = Some tv)) by done.
      simpl. lia.
    + rewrite (decide_False (P := Is_true (isMovie m))) by done.
      rewrite (decide_True (P := mediaType m = Some tv)) by done.
      simpl. lia.
  - rewrite tvCount_distinct_titles. unfold seriesTitles.
    rewrite <- (length_fmap (trim ∘ title) (tvEntries l)).
    generalize (trim ∘ title <$> tvEntries l). intros ts.
    induction ts as [|t ts IH]; [done|].
    cbn [remove_dups]. destruct (decide_rel _ t ts); simpl; lia.
  - intros Hperm.
    assert (Hfilms : filter (λ m, isMovie m) l ≡ₚ filter (λ m, isMovie m) l')
      by (by apply filter_Permutation).
    assert (Hentries : tvEntries l ≡ₚ tvEntries l')
      by (by apply filter_Permutation).
    assert (Htitles : seriesTitles l ≡ₚ seriesTitles l').
    { apply NoDup_Permutation; try apply NoDup_remove_dups.
      intros t. unfold seriesTitles. rewrite !elem_of_remove_dups.
      by rewrite Hentries. }
    split; [|split; [|split; [|split]]].
    + unfold movieCount. by rewrite Hfilms.
    + rewrite !movieDuration_sum. by apply sumZ_Permutation.
    + rewrite !tvCount_distinct_titles. by rewrite Htitles.
    + rewrite !totalEpisodesWatched_sum.
      rewrite (sumZ_Permutation _ _ _ Htitles).
      apply sumZ_ext_in. intros t _. simpl.
      apply foldl_max_Permutation, fmap_Permutation.
      unfold entriesTitled. by apply filter_Permutation.
    + intros g. rewrite !countIn_genreCounts. unfold occurrences, allGenres.
      f_equal. apply Permutation_length, filter_Permutation.
      by rewrite Hperm.
Qed.

Lemma stats_counts_witness :
  movieCount [sampleEpisode "a" "Dark" 3 50; sampleMovie "b" "Brazil" None]
  = movieCount [sampleMovie "b" "Brazil" None; sampleEpisode "a" "Dark" 3 50].
Proof.
  destruct (stats_counts
              [sampleEpisode "a" "Dark" 3 50; sampleMovie "b" "Brazil" None]
              [sampleMovie "b" "Brazil" None; sampleEpisode "a" "Dark" 3 50])
    as (_ & _ & Hperm).
  destruct Hperm as [Hcount _]; [apply perm_swap|exact Hcount].
Defined.



(** *** The sorted list *)





(** *** The time frame of the statistics panel *)

Lemma foldl_set_add_spec {A} `{EqDecision A} (ks : list A) : ∀ s : list A,
  (NoDup s → NoDup (foldl set_add s ks)) ∧
  ∀ x, x ∈ foldl set_add s ks ↔ x ∈ s ∨ x ∈ ks.
Proof.
  induction ks as [|k ks IH]; intros s; simpl.
  - split; [done|]. intros x. rewrite elem_of_nil. tauto.
  - destruct (IH (set_add s k)) as [Hnd Hin]. split.
    + intros Hs. by apply Hnd, set_add_NoDup.
    + intros x. rewrite Hin, set_add_elem, elem_of_cons. tauto.
Qed.

Lemma foldl_pair_sets {A B C} `{EqDecision B} `{EqDecision C}
    (f : A → B) (g : A → C) (l : list A) :
  ∀ (s1 : list B) (s2 : list C),
  foldl (λ sets m, (set_add sets.1 (f m), set_add sets.2 (g m))) (s1, s2) l
  = (foldl set_add s1 (f <$> l), foldl set_add s2 (g <$> l)).
Proof. induction l as [|x l IH]; intros s1 s2; simpl; [done|apply IH]. Qed.

Lemma sumZ_zero {A} (l : list A) : sumZ (λ _, 0) l = 0.
Proof. induction l as [|x l IH]; [done|]. rewrite sumZ_cons, IH. lia. Qed.

Lemma sumZ_indicator {A} `{EqDecision A} (x : A) (ks : list A) :
  NoDup ks → x ∈ ks → sumZ (λ k, if decide (x = k) then 1 else 0) ks = 1.
Proof.
  induction 1 as [|k ks Hout _ IH]; intros Hin.
  - by apply elem_of_nil in Hin.
  - rewrite sumZ_cons. apply elem_of_cons in Hin as [->|Hin].
    + rewrite decide_True by done.
      rewrite (sumZ_ext_in _ (λ _, 0)); [by rewrite sumZ_zero|].
      intros y Hy. rewrite decide_False; [done|]. by intros ->.
    + rewrite decide_False by (by intros ->). rewrite IH by done. lia.
Qed.

Lemma sumZ_plus {A} (f g : A → Z) (l : list A) :
  sumZ (λ x, f x + g x) l = sumZ f l + sumZ g l.
Proof.
  induction l as [|x l IH]; [done|]. rewrite !sumZ_cons, IH. lia.
Qed.

(** Keys drawn from a duplicate-free list split a list among them. *)
Lemma count_partition {A K} `{EqDecision K} (f : A → K) (ks : list K)
    (l : list A) :
  NoDup ks → (∀ x, x ∈ l → f x ∈ ks) →
  sumZ (λ k, Z.of_nat (length (filter (λ x, f x = k) l))) ks
  = Z.of_nat (length l).
Proof.
  intros Hnd. induction l as [|x l IH]; intros Hin.
  - rewrite (sumZ_ext_in _ (λ _, 0)) by done. by rewrite sumZ_zero.
  - rewrite (sumZ_ext_in _
      (λ k, (if decide (f x = k) then 1 else 0)
            + Z.of_nat (length (filter (λ x, f x = k) l)))).
    + rewrite sumZ_plus, sumZ_indicator, IH; [simpl; lia| |done|].
      * intros y Hy. apply Hin. by right.
      * apply Hin. left.
    + intros k _. rewrite filter_cons.
      destruct (decide (f x = k)); simpl; lia.
Qed.

(** The options gathered from the records, in any order. *)
Lemma options_partition {A K} `{EqDecision K} (f : A → K) (options : list K)
    (movies : list A) :
  options ≡ₚ foldl set_add [] (f <$> movies) →
  NoDup options ∧
  (∀ k, k ∈ options ↔ ∃ m, m ∈ movies ∧ f m = k) ∧
  sumZ (λ k, Z.of_nat (length (filter (λ m, f m = k) movies))) options
  = Z.of_nat (length movies).
Proof.
  intros Hperm.
  destruct (foldl_set_add_spec (f <$> movies) []) as [Hnd Hin].
  assert (Hnd' : NoDup options) by (rewrite Hperm; apply Hnd; constructor).
  assert (Hin' : ∀ k, k ∈ options ↔ ∃ m, m ∈ movies ∧ f m = k).
  { intros k. rewrite Hperm, Hin, elem_of_nil, list_elem_of_fmap. split.
    - intros [[]|(m & -> & ?)]. by exists m.
    - intros (m & ? & <-). right. by exists m. }
  split; [done|]. split; [done|].
  apply count_partition; [done|]. intros m Hm. apply Hin'. by exists m.
Qed.

Section TimeFrameFacts.
Variable numberToString : Z → jsstring.
Variables getFullYear getMonth getDate : Z → Z.
Variable localeCompare : jsstring → jsstring → Z.
Variable daysInMonth : jsstring → Z.

Local Abbreviation yearOf := (Stats.yearOf numberToString getFullYear).
Local Abbreviation monthOf := (Stats.monthOf numberToString getFullYear getMonth).
Local Abbreviation years :=
  (Stats.years numberToString getFullYear getMonth localeCompare).
Local Abbreviation months :=
  (Stats.months numberToString getFullYear getMonth localeCompare).
Local Abbreviation shown :=
  (Stats.filteredMovies numberToString getFullYear getMonth).

(** X19. The years offered by the panel are the distinct years of the records,
    and the year frames split the records among them: every record shows under
    exactly one year offered. The same holds of the months; and the frame
    "all" shows every record. *)
Theorem time_frames_partition (movies : list Movie)
    (selectedYear selectedMonth : jsstring) :
  (NoDup (years movies) ∧
   (∀ y, y ∈ years movies ↔ ∃ m, m ∈ movies ∧ yearOf m = y) ∧
   sumZ (λ y, Z.of_nat (length (shown Stats.year y selectedMonth movies)))
     (years movies) = Z.of_nat (length movies)) ∧
  (NoDup (months movies) ∧
   (∀ ym, ym ∈ months movies ↔ ∃ m, m ∈ movies ∧ monthOf m = ym) ∧
   sumZ (λ ym, Z.of_nat (length (shown Stats.month selectedYear ym movies)))
     (months movies) = Z.of_nat (length movies)) ∧
  shown Stats.all selectedYear selectedMonth movies = movies.
Proof.
  assert (Hsets : Stats.dateSets numberToString getFullYear getMonth movies
                  = (foldl set_add [] (yearOf <$> movies),
                     foldl set_add [] (monthOf <$> movies))).
  { apply (foldl_pair_sets yearOf monthOf). }
  split; [|split].
  - destruct (options_partition yearOf (years movies) movies)
      as (Hnd & Hin & Hsum).
    { unfold Stats.years. by rewrite array_sort_Permutation, Hsets. }
    split; [done|]. split; [done|]. rewrite <- Hsum.
    apply sumZ_ext_in. intros y _. do 2 f_equal.
    unfold Stats.filteredMovies. apply list_filter_iff. intros m. simpl.
    by rewrite bool_decide_spec.
  - destruct (options_partition monthOf (months movies) movies)
      as (Hnd & Hin & Hsum).
    { unfold Stats.months. by rewrite array_sort_Permutation, Hsets. }
    split; [done|]. split; [done|]. rewrite <- Hsum.
    apply sumZ_ext_in. intros ym _. do 2 f_equal.
    unfold Stats.filteredMovies. apply list_filter_iff. intros m. simpl.
    by rewrite bool_decide_spec.
  - clear Hsets. unfold Stats.filteredMovies. simpl.
    induction movies as [|m l IH]; [done|].
    rewrite filter_cons_True by done. by rewrite IH.
Qed.
End TimeFrameFacts.

(** *** The trend chart *)

Lemma codeUnitCompare_total (a b : jsstring) :
  codeUnitCompare a b ≤ 0 ∨ codeUnitCompare b a ≤ 0.
Proof.
  revert b. induction a as [|x a IH]; intros [|y b]; simpl; try lia.
  destruct (N.ltb_spec x y), (N.ltb_spec y x); try lia. apply IH.
Qed.

Lemma sumZ_keys (o : list (jsstring * Z)) :
  NoDup o.*1 → sumZ (countIn o) o.*1 = sumZ snd o.
Proof.
  intros Hnd.
  pose proof (sumZ_fmap (λ name, (name, default 0 (obj_get o name))) snd o.*1)
    as Hsum.
  by rewrite keys_with_values in Hsum.
Qed.

(** Entries set to zero one after the other. *)
Lemma zeroed_spec (f : Z → jsstring) (numbers : list Z) :
  ∀ o : list (jsstring * Z),
  let o' := foldl (λ tm i, obj_set tm (f i) 0) o numbers in
  (NoDup o.*1 → NoDup o'.*1) ∧
  (∀ k, k ∈ o'.*1 ↔ k ∈ o.*1 ∨ k ∈ f <$> numbers) ∧
  ((∀ k, countIn o k = 0) → ∀ k, countIn o' k = 0) ∧
  (NoDup (o.*1 ++ (f <$> numbers)) → o'.*1 = o.*1 ++ (f <$> numbers)).
Proof.
  induction numbers as [|i numbers IH]; intros o; simpl.
  - split; [done|]. split; [intros k; rewrite elem_of_nil; tauto|].
    split; [done|]. intros _. by rewrite app_nil_r.
  - destruct (IH (obj_set o (f i) 0)) as (Hnd & Hin & Hzero & Hkeys).
    split; [|split; [|split]].
    + intros Ho. by apply Hnd, obj_set_NoDup.
    + intros k. rewrite Hin, obj_set_keys, elem_of_cons.
      case_decide as Hi.
      * split; [tauto|]. intros [?|[->|?]]; tauto.
      * rewrite elem_of_app, list_elem_of_singleton. tauto.
    + intros Ho. apply Hzero. intros k. unfold countIn.
      rewrite obj_get_set. case_decide; [done|apply Ho].
    + intros Hall. rewrite Hkeys.
      * rewrite obj_set_keys, decide_False, <- app_assoc; [done|].
        apply NoDup_app in Hall as (_ & Hout & _). intros Hi.
        apply (Hout _ Hi). left.
      * rewrite obj_set_keys, decide_False, <- app_assoc; [done|].
        apply NoDup_app in Hall as (_ & Hout & _). intros Hi.
        apply (Hout _ Hi). left.
Qed.

Lemma keys_foldl_present (gs : list jsstring) : ∀ o : list (jsstring * Z),
  (∀ g, g ∈ gs → g ∈ o.*1) → (foldl countGenre o gs).*1 = o.*1.
Proof.
  induction gs as [|g gs IH]; intros o Hin; [done|]. simpl.
  assert (Hkeys : (countGenre o g).*1 = o.*1).
  { unfold countGenre. rewrite obj_set_keys, decide_True; [done|].
    apply Hin. left. }
  rewrite IH, Hkeys; [done|]. intros g' Hg'. rewrite Hkeys. apply Hin.
  by right.
Qed.

Lemma filter_ext_in {A} (P Q : A → Prop) `{∀ x, Decision (P x)}
    `{∀ x, Decision (Q x)} (l : list A) :
  (∀ x, x ∈ l → P x ↔ Q x) → filter P l = filter Q l.
Proof.
  induction l as [|x l IH]; intros Hext; [done|].
  rewrite !filter_cons.
  assert (Hx : P x ↔ Q x) by (apply Hext; left).
  rewrite IH by (intros y Hy; apply Hext; by right).
  destruct (decide (P x)), (decide (Q x)); tauto.
Qed.

Section TrendFacts.
Variable numberToString : Z → jsstring.
Variables getFullYear getMonth getDate : Z → Z.
Variable daysInMonth : jsstring → Z.

Local Abbreviation trendMap :=
  (Stats.trendMap numberToString getFullYear getMonth getDate daysInMonth).
Local Abbreviation trendData :=
  (Stats.trendData numberToString getFullYear getMonth getDate daysInMonth).
Local Abbreviation field := (trendField getFullYear getMonth getDate).
Local Abbreviation preset := (presetBuckets daysInMonth).

Lemma trendMap_fold (timeFrame : Stats.TimeFrame) (selectedMonth : jsstring)
    (l : list Movie) :
  trendMap timeFrame selectedMonth l =
  foldl countGenre
    (Stats.zeroed numberToString (preset timeFrame selectedMonth))
    (numberToString ∘ field timeFrame <$> l).
Proof.
  unfold Stats.trendMap.
  destruct timeFrame; simpl;
    [change (Stats.zeroed numberToString 0) with (@nil (jsstring * Z))|..];
    apply (foldl_fmap_keys (numberToString ∘ _)).
Qed.

Lemma trendMap_spec (timeFrame : Stats.TimeFrame) (selectedMonth : jsstring)
    (l : list Movie) :
  let tm := trendMap timeFrame selectedMonth l in
  let keys := numberToString ∘ field timeFrame <$> l in
  NoDup tm.*1 ∧
  (∀ k, k ∈ tm.*1 ↔
        k ∈ keys ∨
        k ∈ numberToString <$> seqZ 1 (preset timeFrame selectedMonth)) ∧
  (∀ k, countIn tm k = occurrences k keys) ∧
  sumZ snd tm = Z.of_nat (length l).
Proof.
  intros tm keys. unfold tm. rewrite trendMap_fold. fold keys.
  destruct (zeroed_spec numberToString
              (seqZ 1 (preset timeFrame selectedMonth)) [])
    as (Hnd & Hin & Hzero & _).
  fold (Stats.zeroed numberToString (preset timeFrame selectedMonth))
    in Hnd, Hin, Hzero.
  specialize (Hnd (NoDup_nil_2)). specialize (Hzero (λ _, eq_refl)).
  assert (Hnd' : NoDup (foldl countGenre
    (Stats.zeroed numberToString (preset timeFrame selectedMonth)) keys).*1)
    by by apply NoDup_foldl.
  split; [done|]. split; [|split].
  - intros k. rewrite keys_foldl, Hin, elem_of_nil. tauto.
  - intros k. rewrite countIn_foldl, Hzero. lia.
  - rewrite sumZ_countGenre, <- sumZ_keys by done.
    rewrite (sumZ_ext_in _ (λ _, 0)) by (intros k _; apply Hzero).
    rewrite sumZ_zero. unfold keys. rewrite length_fmap. lia.
Qed.

(** X20. Whatever the time frame, the trend counts every record shown exactly
    once. Its points stand for distinct keys (the text of a year, month or day
    number): the keys of the records and those laid out beforehand (12 months,
    or the days of the selected month); a point is labelled with its key and
    年, 月 or 日, and counts the records of that key. Over all time the years are
    in the order of their code units. *)
Theorem trend_counts_every_record (timeFrame : Stats.TimeFrame)
    (selectedMonth : jsstring) (l : list Movie) :
  let keyOf := numberToString ∘ field timeFrame in
  sumZ snd (trendData timeFrame selectedMonth l) = Z.of_nat (length l) ∧
  ∃ keys,
    trendData timeFrame selectedMonth l =
      (λ k, (k ++ [trendMark timeFrame], occurrences k (keyOf <$> l)))
        <$> keys ∧
    NoDup keys ∧
    (∀ k, k ∈ keys ↔
          k ∈ keyOf <$> l ∨
          k ∈ numberToString <$> seqZ 1 (preset timeFrame selectedMonth)) ∧
    (timeFrame = Stats.all →
     Sorted (λ a b, codeUnitCompare a b ≤ 0) keys).
Proof.
  intros keyOf.
  destruct (trendMap_spec timeFrame selectedMonth l)
    as (Hnd & Hin & Hcount & Hsum).
  set (tm := trendMap timeFrame selectedMonth l) in *.
  set (keys := match timeFrame with
               | Stats.all => array_sort codeUnitCompare tm.*1
               | _ => tm.*1
               end).
  assert (Hperm : keys ≡ₚ tm.*1).
  { unfold keys. destruct timeFrame; [apply array_sort_Permutation|done..]. }
  assert (Hdata : trendData timeFrame selectedMonth l =
    (λ k, (k ++ [trendMark timeFrame], occurrences k (keyOf <$> l)))
      <$> keys).
  { unfold Stats.trendData, Stats.trendFormat. fold tm.
    assert (Hpoint : ∀ (mark : N) (ks : list jsstring),
      (λ item : jsstring * jsstring,
         (item.1, optNumOr (obj_get tm item.2) 0))
        <$> ((λ k, (k ++ [mark], k)) <$> ks)
      = (λ k, (k ++ [mark], occurrences k (keyOf <$> l))) <$> ks).
    { intros mark ks. rewrite <- list_fmap_compose.
      apply list_fmap_ext. intros i k _. simpl. f_equal.
      rewrite optNumOr_0. apply Hcount. }
    unfold keys. destruct timeFrame; apply Hpoint. }
  split.
  - rewrite Hdata, sumZ_fmap.
    rewrite (sumZ_ext_in _ (countIn tm)) by (intros k _; symmetry; apply Hcount).
    rewrite (sumZ_Permutation _ _ _ Hperm). by rewrite sumZ_keys.
  - exists keys. split; [done|]. split; [by rewrite Hperm|]. split.
    + intros k. rewrite Hperm. apply Hin.
    + intros ->. unfold keys. apply array_sort_Sorted; [done|].
      apply codeUnitCompare_total.
Qed.

(** X21. In the frame of a year or of a month, when the numbers 1 to n of the
    buckets laid out read differently from each other and every record shown
    falls on one of them, the trend has exactly those n points in order, each
    counting the records of its month or day. *)
Theorem trend_fixed_buckets (timeFrame : Stats.TimeFrame)
    (selectedMonth : jsstring) (l : list Movie) :
  let n := preset timeFrame selectedMonth in
  NoDup (numberToString <$> seqZ 1 n) →
  (∀ m, m ∈ l → 1 ≤ field timeFrame m ≤ n) →
  trendData timeFrame selectedMonth l =
  (λ i, (numberToString i ++ [trendMark timeFrame],
         Z.of_nat (length (filter (λ m, field timeFrame m = i) l))))
    <$> seqZ 1 n.
Proof.
  intros n Hnd Hrange.
  assert (Hinj : ∀ i j, i ∈ seqZ 1 n → j ∈ seqZ 1 n →
                        numberToString i = numberToString j → i = j).
  { intros i j Hi Hj Heq.
    apply list_elem_of_lookup in Hi as [a Ha], Hj as [b Hb].
    assert (a = b); [|congruence].
    eapply NoDup_lookup; [exact Hnd| |];
      rewrite list_lookup_fmap; [by rewrite Ha|by rewrite Hb, Heq]. }
  destruct (trendMap_spec timeFrame selectedMonth l)
    as (_ & _ & Hcount & _).
  assert (Hkeys : (trendMap timeFrame selectedMonth l).*1
                  = numberToString <$> seqZ 1 n).
  { rewrite trendMap_fold.
    destruct (zeroed_spec numberToString (seqZ 1 n) []) as (_ & _ & _ & Hz).
    specialize (Hz Hnd). simpl in Hz.
    rewrite keys_foldl_present; [exact Hz|].
    intros g (m & -> & Hm)%list_elem_of_fmap.
    unfold Stats.zeroed. fold n. rewrite Hz. apply list_elem_of_fmap.
    exists (field timeFrame m). split; [done|].
    apply elem_of_seqZ. specialize (Hrange m Hm). lia. }
  assert (Hpoints : ∀ mark : N,
    (λ item : jsstring * jsstring,
       (item.1, optNumOr (obj_get (trendMap timeFrame selectedMonth l) item.2) 0))
      <$> ((λ k, (k ++ [mark], k)) <$> (numberToString <$> seqZ 1 n))
    = (λ i, (numberToString i ++ [mark],
             Z.of_nat (length (filter (λ m, field timeFrame m = i) l))))
        <$> seqZ 1 n).
  { intros mark. rewrite <- !list_fmap_compose.
    apply list_fmap_ext. intros a i Hi%list_elem_of_lookup_2. simpl. f_equal.
    rewrite optNumOr_0.
    change (default 0 (obj_get (trendMap timeFrame selectedMonth l)
                         (numberToString i)))
      with (countIn (trendMap timeFrame selectedMonth l) (numberToString i)).
    rewrite Hcount, (occurrences_fmap (numberToString ∘ field timeFrame)).
    do 2 f_equal. apply filter_ext_in. intros m Hm. simpl. split.
    - intros Heq. apply Hinj; [|done..].
      apply elem_of_seqZ. specialize (Hrange m Hm). lia.
    - by intros ->. }
  unfold Stats.trendData, Stats.trendFormat. rewrite Hkeys.
  destruct timeFrame; [|apply Hpoints..].
  destruct l as [|m l]; [done|].
  specialize (Hrange m ltac:(left)). simpl in *. lia.
Qed.
End TrendFacts.

Lemma trend_fixed_buckets_witness :
  Stats.trendData (λ z, [Z.to_N z]) (λ _, 2024) (λ _, 4) (λ _, 17) (λ _, 31)
    Stats.year [] [sampleMovie "a" "Alien" None]
  = (λ i, ([Z.to_N i; 26376%N],
           Z.of_nat (length (filter (λ m : Movie, 5 = i)
                               [sampleMovie "a" "Alien" None]))))
      <$> seqZ 1 12.
Proof.
  apply (trend_fixed_buckets (λ z, [Z.to_N z]) (λ _, 2024) (λ _, 4) (λ _, 17)
           (λ _, 31) Stats.year [] [sampleMovie "a" "Alien" None]).
  - eapply bool_decide_unpack. vm_compute. exact I.
  - intros m Hm. simpl. lia.
Defined.

(** *** A delimited file, written and read back *)

Lemma splitLines_go_plain (l : jsstring) : ∀ cur,
  noLineBreak l → splitLines_go cur l = [cur ++ l].
Proof.
  induction l as [|c l IH]; intros cur [H10 H13]; simpl.
  - by rewrite app_nil_r.
  - rewrite not_elem_of_cons in H10, H13.
    destruct H10 as [Hc10 H10], H13 as [Hc13 H13].
    rewrite !decide_False by done.
    rewrite IH by done. by rewrite <- app_assoc.
Qed.

Lemma splitLines_go_line (l rest : jsstring) : ∀ cur,
  noLineBreak l →
  splitLines_go cur (l ++ 10%N :: rest) = (cur ++ l) :: splitLines_go [] rest.
Proof.
  induction l as [|c l IH]; intros cur [H10 H13]; simpl.
  - by rewrite app_nil_r.
  - rewrite not_elem_of_cons in H10, H13.
    destruct H10 as [Hc10 H10], H13 as [Hc13 H13].
    rewrite !decide_False by done.
    rewrite IH by done. by rewrite <- app_assoc.
Qed.

Lemma splitLines_go_join (ls : list jsstring) : ∀ l cur,
  Forall noLineBreak (l :: ls) →
  splitLines_go cur (join_lines (l :: ls)) = (cur ++ l) :: ls.
Proof.
  induction ls as [|l' ls IH]; intros l cur Hall.
  - apply Forall_cons_1 in Hall as [Hl _]. by apply splitLines_go_plain.
  - apply Forall_cons_1 in Hall as [Hl Hall].
    change (join_lines (l :: l' :: ls))
      with (l ++ 10%N :: join_lines (l' :: ls)).
    rewrite splitLines_go_line by done. f_equal. by apply IH.
Qed.

Lemma noLineBreak_app (s t : jsstring) :
  noLineBreak (s ++ t) ↔ noLineBreak s ∧ noLineBreak t.
Proof. unfold noLineBreak. rewrite !not_elem_of_app. tauto. Qed.

Lemma noLineBreak_join_comma (fields : list jsstring) :
  Forall noLineBreak fields → noLineBreak (join_comma fields).
Proof.
  induction fields as [|f fields IH]; intros Hall.
  - split; apply not_elem_of_nil.
  - apply Forall_cons_1 in Hall as [Hf Hall]. destruct fields as [|g fields].
    + done.
    + change (join_comma (f :: g :: fields))
        with (f ++ [44%N] ++ join_comma (g :: fields)).
      rewrite !noLineBreak_app. split; [done|]. split; [|by apply IH].
      split; by intros [=]%list_elem_of_singleton.
Qed.

Lemma noLineBreak_escapeCsv (f : option jsstring) :
  noLineBreak (default [] f) → noLineBreak (escapeCsv f).
Proof.
  destruct f as [[|c v]|]; [done| |done]. simpl default. intros Hv.
  unfold escapeCsv.
  destruct (includes (c :: v) [44%N] || includes (c :: v) [34%N]
            || includes (c :: v) [10%N]); [|done].
  rewrite !noLineBreak_app. split; [|split].
  - split; by intros [=]%list_elem_of_singleton.
  - revert Hv. generalize (c :: v). intros s. unfold noLineBreak.
    induction s as [|x s IH]; [done|]. rewrite !not_elem_of_cons.
    intros [[Hx10 H10] [Hx13 H13]]. simpl.
    destruct (decide (x = 34%N)) as [->|_]; simpl;
      rewrite !not_elem_of_cons; destruct IH as [? ?]; try done.
  - split; by intros [=]%list_elem_of_singleton.
Qed.

Lemma escapeCsv_plain (s : jsstring) : plainText s → escapeCsv (Some s) = s.
Proof.
  intros (H44 & H34 & H10 & _). destruct s as [|c v]; [done|].
  unfold escapeCsv.
  replace (includes (c :: v) [44%N]) with false
    by (symmetry; apply not_true_iff_false; by rewrite includes_char).
  replace (includes (c :: v) [34%N]) with false
    by (symmetry; apply not_true_iff_false; by rewrite includes_char).
  replace (includes (c :: v) [10%N]) with false
    by (symmetry; apply not_true_iff_false; by rewrite includes_char).
  done.
Qed.

Lemma trimStart_keeps (c : N) (s : jsstring) :
  c ∈ s → isWhiteSpace c = false → c ∈ trimStart s.
Proof.
  intros Hin Hc. induction s as [|x s IH]; [done|]. simpl.
  destruct (isWhiteSpace x) eqn:Hx; [|done].
  apply elem_of_cons in Hin as [->|Hin]; [congruence|by apply IH].
Qed.

Lemma trim_keeps (c : N) (s : jsstring) :
  c ∈ s → isWhiteSpace c = false → c ∈ trim s.
Proof.
  intros Hin Hc. unfold trim. rewrite elem_of_reverse.
  apply trimStart_keeps; [|done]. rewrite elem_of_reverse.
  by apply trimStart_keeps.
Qed.

Lemma join_comma_has_comma (f g : jsstring) (fields : list jsstring) :
  44%N ∈ join_comma (f :: g :: fields).
Proof.
  change (join_comma (f :: g :: fields))
    with (f ++ 44%N :: join_comma (g :: fields)).
  apply elem_of_app. right. left.
Qed.

Lemma property_assign {V} (o : list (jsstring * V)) (k k' : jsstring) (v : V) :
  property (assign o k v) k' =
  if decide (k' = k) then Some v else property o k'.
Proof.
  induction o as [|[k0 v0] o IH]; simpl.
  - done.
  - destruct (decide (k = k0)) as [->|Hne]; simpl.
    + by destruct (decide (k' = k0)).
    + rewrite IH. destruct (decide (k' = k0)) as [->|]; [|done].
      by rewrite decide_False by done.
Qed.

(** After the loop over the columns, the row holds for each key the value
    of its column. *)
Lemma property_columns {V} (F : nat → jsstring → V)
    (columns : list (nat * jsstring)) : ∀ (o : list (jsstring * V)) idx key,
  NoDup columns.*2 → (idx, key) ∈ columns →
  property (foldl (λ movie (column : nat * jsstring),
                     assign movie column.2 (F column.1 column.2)) o columns)
    key = Some (F idx key).
Proof.
  induction columns as [|[i k] columns IH] using rev_ind;
    intros o idx key Hnd Hin.
  - by apply elem_of_nil in Hin.
  - rewrite foldl_snoc, property_assign. simpl.
    rewrite fmap_app in Hnd. apply NoDup_app in Hnd as (Hnd & Hout & _).
    apply elem_of_app in Hin as [Hin|Hin].
    + rewrite decide_False; [by apply IH|]. intros ->.
      apply (Hout k); [|left]. apply list_elem_of_fmap. by exists (idx, k).
    + apply list_elem_of_singleton in Hin as [= -> ->].
      by rewrite decide_True.
Qed.

Lemma omap_imap_Forall2 {A B} (R : A → B → Prop) (l : list A) :
  ∀ f : nat → A → option B,
  (∀ j x, x ∈ l → ∃ y, f j x = Some y ∧ R x y) →
  ∃ ys, omap (λ row, row) (imap f l) = ys ∧ Forall2 R l ys.
Proof.
  induction l as [|x l IH]; intros f Hf.
  - exists []. by split.
  - destruct (Hf 0%nat x ltac:(left)) as (y & Hy & HR).
    destruct (IH (f ∘ S)) as (ys & Hys & HRs).
    { intros j x' Hx'. apply Hf. by right. }
    exists (y :: ys). split; [|by constructor].
    rewrite imap_cons. cbn [omap list_omap]. rewrite Hy. f_equal. exact Hys.
Qed.

Lemma filter_all {A} (P : A → Prop) `{∀ x, Decision (P x)} (l : list A) :
  Forall P l → filter P l = l.
Proof.
  induction 1 as [|x l Hx _ IH]; [done|].
  by rewrite filter_cons_True, IH.
Qed.

Lemma header_row_read : parseCSVLine (join_comma headers) = headers.
Proof. by vm_compute. Qed.

Lemma header_columns :
  NoDup (keyIndex headers).*2 ∧
  keyIndex headers =
    [ (0, str "id"); (1, str "title"); (2, str "year"); (3, str "country");
      (4, str "genre"); (5, str "director"); (6, str "rating");
      (7, str "status"); (8, str "review"); (9, str "addedAt");
      (10, str "lastUpdated"); (11, str "mediaType");
      (12, str "currentEpisode"); (13, str "totalEpisodes");
      (14, str "duration") ]%nat.
Proof.
  split; [|by vm_compute]. eapply bool_decide_unpack. by vm_compute.
Qed.

Section CsvRoundTrip.
Variable numberToString : Z → jsstring.
Variable toLocaleString : Z → jsstring.
Variable JSON_stringify : list Movie → jsstring.
Variable parseFloat : jsstring → option Z.
Variable Date_parse : jsstring → option Z.
Variable Date_now : nat → nat → Z.
Variable randomUUID : nat → jsstring.

Hypothesis numbers_plain : ∀ z, plainText (numberToString z).
Hypothesis dates_plain : ∀ t, plainText (toLocaleString t).

Local Abbreviation cells := (exportedCells numberToString toLocaleString).

Lemma numberOrEmpty_plain (x : option Z) :
  plainText (numberOrEmpty numberToString x).
Proof.
  assert (Hnil : plainText []).
  { repeat split; apply not_elem_of_nil. }
  unfold numberOrEmpty. destruct x as [v|]; [|done].
  by destruct (v =? 0).
Qed.

Lemma statusText_plain (s : MovieStatus) : plainText (statusText s).
Proof. destruct s; eapply bool_decide_unpack; by vm_compute. Qed.

Lemma csvRow_cells (m : Movie) :
  plainText (id m) →
  csvRow numberToString toLocaleString m = escapeCsv <$> cells m.
Proof.
  intros Hid. unfold csvRow, exportedCells. cbn [fmap list_fmap].
  rewrite (escapeCsv_plain (id m)) by done.
  rewrite (escapeCsv_plain (numberToString _)) by apply numbers_plain.
  rewrite (escapeCsv_plain (statusText _)) by apply statusText_plain.
  rewrite !(escapeCsv_plain (toLocaleString _)) by apply dates_plain.
  rewrite !(escapeCsv_plain (numberOrEmpty _ _)) by apply numberOrEmpty_plain.
  rewrite (escapeCsv_plain (if decide (mediaType m = Some tv) then _ else _)).
  - done.
  - destruct (decide (mediaType m = Some tv));
      eapply bool_decide_unpack; by vm_compute.
Qed.

Lemma csvRow_noLineBreak (m : Movie) :
  plainText (id m) →
  noLineBreak (title m) → noLineBreak (year m) →
  noLineBreak (default [] (country m)) → noLineBreak (default [] (genre m)) →
  noLineBreak (default [] (director m)) → noLineBreak (review m) →
  noLineBreak (join_comma (csvRow numberToString toLocaleString m)).
Proof.
  intros Hid Ht Hy Hc Hg Hd Hr. rewrite csvRow_cells by done.
  apply noLineBreak_join_comma. unfold exportedCells. cbn [fmap list_fmap].
  assert (Hplain : ∀ s, plainText s → noLineBreak (escapeCsv (Some s))).
  { intros s Hs. apply noLineBreak_escapeCsv. apply Hs. }
  repeat (apply Forall_cons; split);
    try (apply noLineBreak_escapeCsv; done);
    try (apply Hplain; first [done | apply numbers_plain | apply dates_plain
                             | apply statusText_plain
                             | apply numberOrEmpty_plain]).
  - apply Hplain. destruct (decide (mediaType m = Some tv));
      eapply bool_decide_unpack; by vm_compute.
  - constructor.
Qed.

(** What is read from the line written for a record. *)
Lemma readRow_written (m : Movie) (i : nat) :
  id m ≠ [] → trim (id m) = id m → plainText (id m) →
  ∃ row,
    readRow parseFloat Date_parse Date_now randomUUID (keyIndex headers) i
      (join_comma (csvRow numberToString toLocaleString m)) = Some row ∧
    restores m row.
Proof.
  intros Hne Htrim Hplain.
  destruct header_columns as [Hnd Hcolumns].
  unfold readRow. unfold parseCSVLine.
  rewrite csvRow_cells, parse_row by done. cbn [app length fmap list_fmap].
  cbv zeta. cbn [Nat.ltb Nat.leb].
  set (values := fieldText <$> cells m).
  set (movie := foldl _ _ (keyIndex headers)).
  assert (Hprop : ∀ idx key, (idx, key) ∈ keyIndex headers →
    property movie key =
    Some (cellValue parseFloat Date_parse Date_now i idx key
            (trim (default [] (values !! idx))))).
  { intros idx key Hin. unfold movie.
    apply (property_columns
             (λ idx key, cellValue parseFloat Date_parse Date_now i idx key
                           (trim (default [] (values !! idx))))); done. }
  assert (Hid : property movie (str "id") = Some (TextValue (id m))).
  { rewrite (Hprop 0%nat) by (rewrite Hcolumns; repeat constructor).
    simpl. by rewrite Htrim. }
  exists movie. split.
  - rewrite Hid. simpl. by rewrite bool_decide_eq_false_2.
  - unfold restores, rowId. rewrite Hid. split; [done|].
    rewrite (Hprop 1%nat (str "title")), (Hprop 2%nat (str "year")),
      (Hprop 3%nat (str "country")), (Hprop 4%nat (str "genre")),
      (Hprop 5%nat (str "director")), (Hprop 8%nat (str "review")),
      (Hprop 7%nat (str "status")), (Hprop 11%nat (str "mediaType"))
      by (rewrite Hcolumns; repeat constructor).
    repeat split.
    + simpl. do 2 f_equal.
      destruct (status m); by vm_compute.
    + simpl. destruct (decide (mediaType m = Some tv)); by vm_compute.
Qed.

Lemma Forall2_ids (movies : list Movie)
    (rows : list (list (jsstring * FieldValue))) :
  Forall2 restores movies rows → rowId <$> rows = ids movies.
Proof.
  induction 1 as [|m row movies rows [Hid _] _ IH]; [done|].
  unfold ids in *. by rewrite !fmap_cons, Hid, IH.
Qed.

(** X22. A file written as CSV reads back row for row. When the number and
    date texts of the host need no quoting, and every record has an identity
    that is not empty, has no white space around it and needs no quoting, and
    texts without line breaks, then reading the file yields one row per
    record, in order, with the identity, the status and the media kind of the
    record and its texts without the white space around them; so no row passes
    the filter of new identities, and importing the file into the list it was
    written from adds nothing. *)
Theorem csv_written_then_read (today : jsstring) (movies : list Movie) :
  (∀ m, m ∈ movies →
     id m ≠ [] ∧ trim (id m) = id m ∧ plainText (id m) ∧
     noLineBreak (title m) ∧ noLineBreak (year m) ∧
     noLineBreak (default [] (country m)) ∧
     noLineBreak (default [] (genre m)) ∧
     noLineBreak (default [] (director m)) ∧ noLineBreak (review m)) →
  let file :=
    handleExport numberToString toLocaleString JSON_stringify csv today movies in
  endsWith file.1 (str ".json") = false ∧
  endsWith file.1 (str ".csv") = true ∧
  ∃ rows,
    readCsv parseFloat Date_parse Date_now randomUUID file.2 = Some rows ∧
    Forall2 restores movies rows ∧
    rowId <$> rows = ids movies ∧
    filter (λ row, rowId row ∉ (list_to_set (id <$> movies) : gset jsstring))
      rows = [].
Proof.
  intros Hmovies file.
  assert (Hname : file.1 = (str "cinelog_backup_" ++ today) ++ str ".csv").
  { unfold file, handleExport. cbn [fst]. by rewrite <- !app_assoc. }
  split; [|split].
  - rewrite Hname. unfold endsWith. rewrite reverse_app.
    by vm_compute.
  - rewrite Hname. apply endsWith_app.
  - set (written m := join_comma (csvRow numberToString toLocaleString m)).
    assert (Hlines : Forall noLineBreak (written <$> movies)).
    { apply Forall_fmap, Forall_forall. intros m Hm.
      destruct (Hmovies m Hm) as (_ & _ & ? & ? & ? & ? & ? & ? & ?).
      by apply csvRow_noLineBreak. }
    assert (Hheader : noLineBreak (join_comma headers)).
    { eapply bool_decide_unpack. by vm_compute. }
    assert (Hsplit : splitLines file.2 =
      (65279%N :: join_comma headers) :: (written <$> movies)).
    { unfold file, handleExport, convertToCSV, splitLines. cbn [snd].
      change (splitLines_go [] (65279%N :: ?s))
        with (splitLines_go [65279%N] s).
      change (join_comma ∘ csvRow numberToString toLocaleString) with written.
      by rewrite splitLines_go_join by by constructor. }
    assert (Hkept : filter (λ line, trim line ≠ []) (splitLines file.2)
                    = splitLines file.2).
    { apply filter_all. rewrite Hsplit. constructor.
      - by vm_compute.
      - apply Forall_fmap, Forall_forall. intros m _. simpl.
        assert (Hcomma : 44%N ∈ trim (written m)).
        { apply trim_keeps; [apply join_comma_has_comma|done]. }
        intros Hnil. rewrite Hnil in Hcomma. by apply elem_of_nil in Hcomma. }
    destruct (omap_imap_Forall2 restores movies
      (λ j m, readRow parseFloat Date_parse Date_now randomUUID
                (keyIndex headers) (S j) (written m))) as (rows & Hrows & Hall).
    { intros j m Hm.
      destruct (Hmovies m Hm) as (? & ? & ? & _).
      by apply readRow_written. }
    exists rows. split; [|split; [done|split]].
    + unfold readCsv. rewrite Hkept, Hsplit. cbv zeta.
      rewrite decide_True by done. rewrite header_row_read.
      rewrite imap_fmap. f_equal. exact Hrows.
    + by apply Forall2_ids.
    + apply filter_none. intros row Hrow Hnew. apply Hnew.
      apply elem_of_list_to_set.
      apply (Forall2_ids _ _) in Hall. fold (ids movies). rewrite <- Hall.
      apply list_elem_of_fmap. by exists row.
Qed.
End CsvRoundTrip.

Lemma csv_written_then_read_witness :
  endsWith
    (handleExport (λ _, str "7") (λ _, str "2024/5/1") (λ _, []) csv
       (str "2024-05-01") [sampleMovie "a" "Alien" None]).1 (str ".csv") = true ∧
  ∃ rows,
    readCsv (λ _, Some 7) (λ _, None) (λ _ _, 0) (λ _, str "fresh")
      (handleExport (λ _, str "7") (λ _, str "2024/5/1") (λ _, []) csv
         (str "2024-05-01") [sampleMovie "a" "Alien" None]).2 = Some rows ∧
    rowId <$> rows = ids [sampleMovie "a" "Alien" None].
Proof.
  assert (Hnumbers : ∀ z : Z, plainText (str "7"))
    by (intros z; eapply bool_decide_unpack; vm_compute; exact I).
  assert (Hdates : ∀ t : Z, plainText (str "2024/5/1"))
    by (intros t; eapply bool_decide_unpack; vm_compute; exact I).
  destruct (csv_written_then_read (λ _, str "7") (λ _, str "2024/5/1")
              (λ _, []) (λ _, Some 7) (λ _, None) (λ _ _, 0)
              (λ _, str "fresh") Hnumbers Hdates
              (str "2024-05-01") [sampleMovie "a" "Alien" None])
    as (_ & Hname & rows & Hread & _ & Hids & _).
  - intros m ->%list_elem_of_singleton.
    split; [discriminate|]. split; [reflexivity|].
    repeat split; eapply bool_decide_unpack; vm_compute; exact I.
  - split; [exact Hname|]. exists rows. split; [exact Hread|exact Hids].
Defined.

(** *** Date options *)

Lemma StronglySorted_strict (l : list Z) :
  StronglySorted (λ a b, b ≤ a) l → NoDup l →
  StronglySorted (λ a b, b < a) l.
Proof.
  induction 1 as [|a l _ IH Hall]; intros Hnd; [constructor|].
  apply NoDup_cons in Hnd as [Hout Hnd]. constructor; [by apply IH|].
  rewrite Forall_forall in Hall. apply Forall_forall. intros b Hb.
  assert (b ≠ a) by (by intros ->). specialize (Hall b Hb). simpl in Hall. lia.
Qed.

Section DateOptionsFacts.
Variable toLowerCase : jsstring → jsstring.
Variable numberToString : Z → jsstring.
Variables getFullYear getMonth : Z → Z.
Variables cutoff7 cutoff30 : Z.
Variable localeCompare : jsstring → jsstring → Z.

Local Abbreviation options :=
  (dateOptions numberToString getFullYear getMonth localeCompare).
Local Abbreviation selected := (λ selector,
  filteredMovies toLowerCase numberToString getFullYear getMonth
    cutoff7 cutoff30 (mkFilterConfig [] allStatuses selector (str "all"))).
Local Abbreviation yearOf := (λ m : Movie, getFullYear (addedAt m)).
Local Abbreviation monthOf := (λ m : Movie,
  numberToString (getFullYear (addedAt m)) ++ str "-"
  ++ padStart2 (numberToString (getMonth (addedAt m) + 1))).

Lemma selected_by_date (selector : jsstring) (movies : list Movie) :
  selected selector movies =
  filter (λ m, matchesDate numberToString getFullYear getMonth
                 cutoff7 cutoff30 selector m) movies.
Proof.
  unfold filteredMovies. apply list_filter_iff. intros m.
  cbn [searchTerm filterStatus dateFilter filterCountry].
  by rewrite matchesSearch_empty, matchesStatus_all, matchesCountry_all,
    andb_true_r.
Qed.

(** X23. The date options agree with the date filter. When the year of every
    record reads back from its text, and that text has no underscore, the
    years offered are the years of the records in strictly descending order,
    the option of a year selects exactly the records of that year, and the
    options split the records: each record shows under exactly one year
    offered. The months offered do the same with no condition. *)
Theorem date_options_select (movies : list Movie) :
  (∀ m, m ∈ movies →
     parseInt (numberToString (yearOf m)) = Some (yearOf m) ∧
     (95%N ∉ numberToString (yearOf m))) →
  let years := (options movies).1 in
  let months := (options movies).2 in
  StronglySorted (λ a b, b < a) years ∧
  (∀ y, y ∈ years ↔ ∃ m, m ∈ movies ∧ yearOf m = y) ∧
  (∀ y, y ∈ years →
     selected (str "year_" ++ numberToString y) movies
     = filter (λ m, yearOf m = y) movies) ∧
  sumZ (λ y, Z.of_nat (length (selected (str "year_" ++ numberToString y)
                                 movies))) years
  = Z.of_nat (length movies) ∧
  NoDup months ∧
  (∀ ym, ym ∈ months ↔ ∃ m, m ∈ movies ∧ monthOf m = ym) ∧
  (∀ ym, selected (str "month_" ++ ym) movies
         = filter (λ m, monthOf m = ym) movies) ∧
  sumZ (λ ym, Z.of_nat (length (selected (str "month_" ++ ym) movies))) months
  = Z.of_nat (length movies).
Proof.
  intros Hhost years months.
  assert (Hsets : dateOptionSets numberToString getFullYear getMonth movies
                  = (foldl set_add [] (yearOf <$> movies),
                     foldl set_add [] (monthOf <$> movies))).
  { apply (foldl_pair_sets yearOf monthOf). }
  destruct (options_partition yearOf years movies) as (Hnd & Hin & Hsum).
  { unfold years, dateOptions. cbn [fst].
    by rewrite array_sort_Permutation, Hsets. }
  destruct (options_partition monthOf months movies) as (Hnd' & Hin' & Hsum').
  { unfold months, dateOptions. cbn [snd].
    by rewrite array_sort_Permutation, Hsets. }
  assert (Hyear : ∀ y, y ∈ years →
    selected (str "year_" ++ numberToString y) movies
    = filter (λ m, yearOf m = y) movies).
  { intros y (m0 & Hm0 & <-)%Hin. destruct (Hhost m0 Hm0) as [Hparse Hplain].
    rewrite selected_by_date. apply list_filter_iff. intros m.
    rewrite matchesDate_year, Hparse by done.
    destruct (Z.eqb_spec (yearOf m) (yearOf m0)); simpl; tauto. }
  assert (Hmonth : ∀ ym, selected (str "month_" ++ ym) movies
                         = filter (λ m, monthOf m = ym) movies).
  { intros ym. rewrite selected_by_date. apply list_filter_iff. intros m.
    rewrite matchesDate_month, bool_decide_spec. split; by intros ->. }
  split; [|split; [done|split; [done|split; [|split; [done|split;
    [done|split; [done|]]]]]]].
  - apply StronglySorted_strict; [|done].
    apply Sorted_StronglySorted; [intros a b c; lia|].
    unfold years, dateOptions. cbn [fst].
    apply array_sort_Sorted; intros a b; lia.
  - rewrite <- Hsum. apply sumZ_ext_in. intros y Hy. by rewrite Hyear.
  - rewrite <- Hsum'. apply sumZ_ext_in. intros ym _. by rewrite Hmonth.
Qed.
End DateOptionsFacts.

Lemma date_options_select_witness :
  (dateOptions (λ _, str "2024") (λ _, 2024) (λ _, 4) (λ _ _, 0)
     [sampleMovie "a" "Alien" None]).1 = [2024] ∧
  filteredMovies asciiLower (λ _, str "2024") (λ _, 2024) (λ _, 4) 0 0
    (mkFilterConfig [] allStatuses (str "year_" ++ str "2024") (str "all"))
    [sampleMovie "a" "Alien" None]
  = filter (λ m : Movie, 2024 = 2024) [sampleMovie "a" "Alien" None].
Proof.
  split; [reflexivity|].
  apply (date_options_select asciiLower (λ _, str "2024") (λ _, 2024)
           (λ _, 4) 0 0 (λ _ _, 0) [sampleMovie "a" "Alien" None]).
  - intros m _. split; [reflexivity|].
    eapply bool_decide_unpack. vm_compute. exact I.
  - left.
Defined.

(** *** The record form *)

Section MovieFormFacts.
Variable toLowerCase : jsstring → jsstring.
Variable numberToString : Z → jsstring.
Variables getFullYear getMonth getDate : Z → Z.
Variable Date_getTime : jsstring → Z.

Local Abbreviation found_in := (autoFillMatch toLowerCase).
Local Abbreviation filled := (autoFill toLowerCase numberToString).

(** X24. The auto-fill copies from the newest series entry whose title is the
    trimmed title typed, letter case aside: the entry it finds is such an
    entry of the list, none of them was added later, and it finds none only
    when there is none. It leaves the form alone when a record is being
    edited, when fewer than two characters are typed, and when it finds no
    entry; when it fills, it keeps the title, rating, status, review and date
    typed, makes the record a series, and suggests the episode after the one
    of the entry found. *)
Theorem autoFill_newest (existingMovies : list Movie) (title0 : jsstring) :
  let candidate m :=
    mediaType m = Some tv ∧ toLowerCase (title m) = toLowerCase (trim title0) in
  (found_in existingMovies title0 = None ↔
   ∀ m, m ∈ existingMovies → ¬ candidate m) ∧
  (∀ found, found_in existingMovies title0 = Some found →
     found ∈ existingMovies ∧ candidate found ∧
     ∀ m, m ∈ existingMovies → candidate m → addedAt m ≤ addedAt found) ∧
  (∀ initialData st,
     is_Some initialData ∨ (length (formTitle st) ≤ 1)%nat
     ∨ found_in existingMovies (formTitle st) = None →
     filled initialData existingMovies st = st) ∧
  (∀ st found ep,
     formTitle st = title0 → (1 < length title0)%nat →
     found_in existingMovies title0 = Some found →
     currentEpisode found = Some ep → ep ≠ 0 →
     let st' := filled None existingMovies st in
     formCurrentEpisode st' = numberToString (ep + 1) ∧
     formMediaType st' = tv ∧ formYear st' = year found ∧
     formTitle st' = formTitle st ∧ formRating st' = formRating st ∧
     formStatus st' = formStatus st ∧ formReview st' = formReview st ∧
     formWatchedDate st' = formWatchedDate st).
Proof.
  intros candidate.
  set (candidates := filter candidate existingMovies).
  set (sorted := array_sort (λ a b, addedAt b - addedAt a) candidates).
  assert (Hperm : sorted ≡ₚ candidates) by apply array_sort_Permutation.
  assert (Hsorted : StronglySorted (λ a b, addedAt b ≤ addedAt a) sorted).
  { apply Sorted_StronglySorted; [intros a b c; lia|].
    apply array_sort_Sorted; intros a b; lia. }
  assert (Hhead : found_in existingMovies title0 = head sorted) by done.
  split; [|split; [|split]].
  - rewrite Hhead. split.
    + intros Hnone m Hm Hcand.
      assert (Hin : m ∈ sorted).
      { rewrite Hperm. apply list_elem_of_filter. by split. }
      destruct sorted; [by apply elem_of_nil in Hin|discriminate].
    + intros Hno. destruct sorted as [|a rest] eqn:E; [done|].
      assert (Hin : a ∈ candidates) by (rewrite <- Hperm; left).
      apply list_elem_of_filter in Hin as [Hcand Hin].
      by destruct (Hno a Hin).
  - intros found Hfound. rewrite Hhead in Hfound.
    destruct sorted as [|a rest] eqn:E; [discriminate|].
    injection Hfound as ->.
    assert (Hin : found ∈ candidates) by (rewrite <- Hperm; left).
    apply list_elem_of_filter in Hin as [Hcand Hin].
    split; [done|]. split; [done|]. intros m Hm Hm'.
    assert (Hin' : m ∈ found :: rest).
    { rewrite Hperm. apply list_elem_of_filter. by split. }
    apply StronglySorted_inv in Hsorted as [_ Hall].
    rewrite Forall_forall in Hall.
    apply elem_of_cons in Hin' as [->|Hin']; [lia|by apply Hall].
  - intros initialData st Hcase. unfold autoFill.
    destruct initialData as [d|]; [done|].
    destruct Hcase as [[d Hd]|[Hshort|Hnone]]; [discriminate| |].
    + destruct (Nat.ltb_spec 1 (length (formTitle st))); [lia|done].
    + rewrite Hnone. by destruct (1 <? length (formTitle st))%nat.
  - intros st found ep Htitle Hlong Hfound Hep Hne st'.
    rewrite <- Htitle in Hfound, Hlong.
    unfold st', autoFill. rewrite Hfound, Hep.
    destruct (Nat.ltb_spec 1 (length (formTitle st))); [|lia].
    by destruct (Z.eqb_spec ep 0).
Qed.

(** X25. Opening a record in the form and saving it unchanged. Every record
    with that identity is replaced by one with the same identity, title, year,
    rating, status and review, the same texts where the record had any (an
    absent one becomes empty), and the same media kind, an absent one made a
    film; its last update is the time of the save and, unless the record's
    date was 0, its date added becomes the time of the calendar date it fell
    on. A film comes back without episode numbers. When numbers read back from
    their text, the duration and, for a series, the episode counted by the
    statistics are unchanged. Other records are not touched. *)
Theorem edit_saved_unchanged (m : Movie) (prev : list Movie)
    (today now saveTime : Z) :
  let form := initForm numberToString getFullYear getMonth getDate
                (Some m) today emptyForm in
  let saved := handleSubmit Date_getTime (Some m) now form in
  ∃ m',
    handleUpdateMovie saveTime saved prev
      = (λ r, if decide (id r = id m) then m' else r) <$> prev ∧
    id m' = id m ∧ title m' = title m ∧ year m' = year m ∧
    rating m' = rating m ∧ status m' = status m ∧ review m' = review m ∧
    country m' = Some (default [] (country m)) ∧
    genre m' = Some (default [] (genre m)) ∧
    director m' = Some (default [] (director m)) ∧
    posterImage m' = Some (default [] (posterImage m)) ∧
    mediaType m' = Some (default movie (mediaType m)) ∧
    isMovie m' = isMovie m ∧
    lastUpdated m' = saveTime ∧
    (addedAt m ≠ 0 →
     addedAt m' = Date_getTime (dateStr numberToString getFullYear getMonth
                                  getDate (addedAt m))) ∧
    (isMovie m = true → currentEpisode m' = None ∧ totalEpisodes m' = None) ∧
    ((∀ v, parseInt (numberToString v) = Some v) →
     durationOf m' = durationOf m ∧
     (mediaType m = Some tv → episodeOf m' = episodeOf m)).
Proof.
  intros form saved.
  exists (updatedMovie saveTime m saved). split.
  { unfold handleUpdateMovie. apply list_fmap_ext. intros i r _.
    change (id saved) with (id m). by destruct (decide (id r = id m)). }
  assert (Hnumber : (∀ v, parseInt (numberToString v) = Some v) →
    ∀ n, optNumOr (parseInt (numberText numberToString n)) 0 = optNumOr n 0).
  { intros Hhost [v|]; [|done]. unfold numberText.
    destruct (Z.eqb_spec v 0) as [->|Hv]; [done|]. by rewrite Hhost. }
  do 11 (split; [reflexivity|]).
  split; [|split; [reflexivity|split; [|split]]].
  - unfold isMovie. simpl. by destruct (mediaType m) as [[]|].
  - intros Hadded. simpl.
    destruct (Z.eqb_spec (addedAt m) 0) as [?|_]; [done|].
    unfold dateStr.
    by destruct (numberToString (getFullYear (addedAt m))).
  - intros Hfilm. unfold isMovie in Hfilm. simpl.
    by destruct (mediaType m) as [[]|].
  - intros Hhost. split.
    + unfold durationOf. simpl. rewrite (Hnumber Hhost).
      unfold optNumOr, numOr. destruct (duration m) as [v|]; [|done].
      destruct (Z.eqb_spec v 0) as [->|Hv]; [done|].
      by rewrite (proj2 (Z.eqb_neq v 0)).
    + intros Htv. unfold episodeOf. simpl. rewrite Htv. simpl.
      rewrite (Hnumber Hhost).
      unfold optNumOr, numOr. destruct (currentEpisode m) as [v|]; [|done].
      destruct (Z.eqb_spec v 0) as [->|Hv]; [done|].
      by rewrite (proj2 (Z.eqb_neq v 0)).
Qed.
End MovieFormFacts.

(** *** The edit distance as a metric *)

Lemma lev_length_diff (xs : jsstring) : ∀ ys,
  (length xs - length ys ≤ lev xs ys ∧ length ys - length xs ≤ lev xs ys)%nat.
Proof.
  induction xs as [|x xs IHx]; intros ys; [simpl; lia|].
  induction ys as [|y ys IHy]; [simpl; lia|].
  rewrite lev_cons. simpl length.
  pose proof (IHx (y :: ys)) as H1. pose proof (IHx ys) as H2.
  simpl length in H1, IHy.
  destruct (decide (x = y)); lia.
Qed.

Lemma lev_triangle_bounded (n : nat) : ∀ a b c : jsstring,
  (length a + length b + length c ≤ n)%nat →
  (lev a c ≤ lev a b + lev b c)%nat.
Proof.
  induction n as [|n IH]; intros a b c Hn.
  - destruct a, b, c; simpl in Hn; lia.
  - destruct a as [|x a'].
    { pose proof (lev_length_diff b c). simpl. lia. }
    destruct c as [|z c'].
    { rewrite !lev_nil_r. pose proof (lev_length_diff (x :: a') b). lia. }
    destruct b as [|y b'].
    { rewrite lev_nil_r. change (lev [] (z :: c')) with (length (z :: c')).
      pose proof (lev_le_max (x :: a') (z :: c')). lia. }
    simpl length in Hn.
    pose proof (IH a' (y :: b') (z :: c') ltac:(simpl; lia)) as T1.
    pose proof (IH (x :: a') b' (z :: c') ltac:(simpl; lia)) as T2.
    pose proof (IH (x :: a') (y :: b') c' ltac:(simpl; lia)) as T3.
    pose proof (IH (x :: a') b' c' ltac:(simpl; lia)) as T4.
    pose proof (IH a' b' (z :: c') ltac:(simpl; lia)) as T5.
    pose proof (IH a' b' c' ltac:(simpl; lia)) as T6.
    pose proof (lev_cons x a' z c') as Eac.
    pose proof (lev_cons x a' y b') as Eab.
    pose proof (lev_cons y b' z c') as Ebc.
    destruct (decide (x = y)), (decide (y = z)), (decide (x = z));
      try congruence; lia.
Qed.

(** X26. The edit distance obeys the triangle inequality, and it is never less
    than the difference of the two lengths. *)
Theorem levenshtein_triangle (a b c : jsstring) :
  (levenshtein a c ≤ levenshtein a b + levenshtein b c)%nat ∧
  lengthDiff a b ≤ Z.of_nat (levenshtein a b).
Proof.
  rewrite !levenshtein_lev. split.
  - by apply (lev_triangle_bounded _ _ _ _ (Nat.le_refl _)).
  - pose proof (lev_length_diff (rev a) (rev b)) as H.
    rewrite !length_rev in H. unfold lengthDiff. lia.
Qed.

Lemma levenshtein_length_diff (a b : jsstring) :
  lengthDiff a b ≤ Z.of_nat (levenshtein a b).
Proof.
  rewrite levenshtein_lev.
  pose proof (lev_length_diff (rev a) (rev b)) as H.
  rewrite !length_rev in H. unfold lengthDiff. lia.
Qed.

(** X27. The two tests on lengths in the fuzzy predicate are shortcuts only:
    since a distance within the budget implies lengths within the budget, the
    predicate gives the same answer as the one without them, for every text
    and term. *)
Theorem fuzzyMatch_length_tests (toLowerCase : jsstring → jsstring)
    (text : option jsstring) (search : jsstring) :
  fuzzyMatch toLowerCase text search
  = fuzzyMatch_untested toLowerCase text search.
Proof.
  unfold fuzzyMatch, fuzzyMatch_untested.
  destruct search as [|d search']; [done|].
  destruct text as [[|c text']|]; [done| |done].
  set (cleanText := toLowerCase (c :: text')).
  set (cleanSearch := toLowerCase (d :: search')). cbv zeta.
  destruct (includes cleanText cleanSearch); [done|].
  destruct (length cleanSearch <? 2)%nat; [done|].
  set (maxErrors := if (4 <? length cleanSearch)%nat then 2 else 1).
  assert (Hbudget : 0 ≤ maxErrors).
  { unfold maxErrors. destruct (4 <? length cleanSearch)%nat; lia. }
  assert (Hwords :
    existsb (λ word, if maxErrors <? lengthDiff word cleanSearch then false
                     else Z.of_nat (levenshtein cleanSearch word) <=? maxErrors)
      (split isWordSeparator cleanText)
    = existsb (λ word, Z.of_nat (levenshtein cleanSearch word) <=? maxErrors)
        (split isWordSeparator cleanText)).
  { induction (split isWordSeparator cleanText) as [|word words IH]; [done|].
    simpl. rewrite IH. f_equal.
    destruct (Z.ltb_spec maxErrors (lengthDiff word cleanSearch)) as [Hfar|_];
      [|done].
    symmetry. apply Z.leb_gt.
    pose proof (levenshtein_length_diff word cleanSearch).
    rewrite (levenshtein_sym cleanSearch word). lia. }
  rewrite Hwords.
  destruct (Z.leb_spec (Z.of_nat (levenshtein cleanText cleanSearch)) maxErrors)
    as [Hnear|Hfar].
  - pose proof (levenshtein_length_diff cleanText cleanSearch).
    rewrite (proj2 (Z.leb_le _ _)) by lia. done.
  - by rewrite andb_false_r.
Qed.

(** *** From the records to the pages *)

Lemma pages_concat {A} (sorted : list A) (size : Z) :
  0 < size →
  concat ((λ p, currentDisplayedMovies (mkPageState (Z.of_nat p) size) sorted)
            <$> seq 1 (Z.to_nat (totalPages (mkPageState 1 size) sorted)))
  = sorted.
Proof.
  intros Hs. set (pages := totalPages (mkPageState 1 size) sorted).
  pose proof (ceilDiv_spec (Z.of_nat (length sorted)) size Hs) as Hceil.
  change (ceilDiv (Z.of_nat (length sorted)) size) with pages in Hceil.
  assert (0 ≤ pages) by nia.
  etrans; [|apply (chunks_concat (Z.to_nat size) (Z.to_nat pages)); nia].
  f_equal. rewrite <- fmap_S_seq, <- list_fmap_compose.
  apply list_fmap_ext. intros _ k _. simpl.
  unfold currentDisplayedMovies, indexOfFirstItem, indexOfLastItem. simpl.
  rewrite slice_take_drop by nia. do 2 f_equal; lia.
Qed.

Section Browsing.
Variable toLowerCase : jsstring → jsstring.
Variable numberToString : Z → jsstring.
Variables getFullYear getMonth : Z → Z.
Variables cutoff7 cutoff30 : Z.
Variable localeCompare : jsstring → jsstring → Z.

(** X28. Filtering, sorting and paging together: for a positive page size, the
    pages 1 to the last, one after the other, hold exactly the records that
    pass the filter, each as often as it is in the record list; so with
    pairwise distinct identities no record is shown twice, and nothing is
    shown that is not in the list. *)
Theorem browsing_shows_each_match_once (cfg : FilterConfig)
    (sortConfig : SortConfig) (size : Z) (movies : list Movie) :
  0 < size →
  let filtered :=
    filteredMovies toLowerCase numberToString getFullYear getMonth
      cutoff7 cutoff30 cfg movies in
  let sorted := sortedMovies localeCompare sortConfig filtered in
  let browsed :=
    concat ((λ p, currentDisplayedMovies (mkPageState (Z.of_nat p) size) sorted)
              <$> seq 1 (Z.to_nat (totalPages (mkPageState 1 size) sorted))) in
  browsed ≡ₚ filtered ∧
  (∀ m, m ∈ browsed → m ∈ movies) ∧
  (NoDup (ids movies) → NoDup (ids browsed)).
Proof.
  intros Hs filtered sorted browsed.
  assert (Hbrowsed : browsed = sorted) by by apply pages_concat.
  assert (Hperm : sorted ≡ₚ filtered).
  { unfold sorted, sortedMovies. destruct (direction sortConfig).
    - apply array_sort_Permutation.
    - by rewrite reverse_Permutation, array_sort_Permutation. }
  rewrite Hbrowsed. split; [done|]. split.
  - intros m Hm. rewrite Hperm in Hm.
    by apply list_elem_of_filter in Hm as [_ Hm].
  - intros Hnd. unfold ids. rewrite Hperm.
    by apply ids_filter_NoDup.
Qed.
End Browsing.

Lemma browsing_shows_each_match_once_witness :
  concat
    ((λ p, currentDisplayedMovies (mkPageState (Z.of_nat p) 1)
             (sortedMovies (λ _ _, 0) (mkSortConfig ByRating desc)
                (filteredMovies asciiLower (λ _, []) (λ t, t) (λ t, t) 0 0
                   neutralFilter
                   [sampleMovie "a" "Alien" None; sampleMovie "b" "Brazil" None])))
       <$> seq 1 (Z.to_nat
                    (totalPages (mkPageState 1 1)
                       (sortedMovies (λ _ _, 0) (mkSortConfig ByRating desc)
                          (filteredMovies asciiLower (λ _, []) (λ t, t)
                             (λ t, t) 0 0 neutralFilter
                             [sampleMovie "a" "Alien" None;
                              sampleMovie "b" "Brazil" None])))))
  ≡ₚ filteredMovies asciiLower (λ _, []) (λ t, t) (λ t, t) 0 0 neutralFilter
       [sampleMovie "a" "Alien" None; sampleMovie "b" "Brazil" None].
Proof.
  apply (browsing_shows_each_match_once asciiLower (λ _, []) (λ t, t) (λ t, t)
           0 0 (λ _ _, 0) neutralFilter (mkSortConfig ByRating desc) 1
           [sampleMovie "a" "Alien" None; sampleMovie "b" "Brazil" None]).
  lia.
Defined.

Section ReadCsvFacts.
Variable parseFloat : jsstring → option Z.
Variable Date_parse : jsstring → option Z.
Variable Date_now : nat → nat → Z.
Variable randomUUID : nat → jsstring.

Local Abbreviation read := (readCsv parseFloat Date_parse Date_now randomUUID).
Local Abbreviation rowOf :=
  (readRow parseFloat Date_parse Date_now randomUUID).

(** The identity of a row is a text, when it has one. *)
Lemma row_id_text (i : nat) (values : list jsstring)
    (columns : list (nat * jsstring)) :
  let movie :=
    foldl (λ movie (column : nat * jsstring),
             assign movie column.2
               (cellValue parseFloat Date_parse Date_now i column.1 column.2
                  (trim (default [] (values !! column.1)))))
      [(str "posterColor", TextValue (str "#4f46e5"))] columns in
  property movie (str "id") = None
  ∨ ∃ s, property movie (str "id") = Some (TextValue s).
Proof.
  induction columns as [|[idx key] columns IH] using rev_ind; [by left|].
  cbv zeta in *. rewrite foldl_snoc, property_assign. cbn [fst snd].
  destruct (decide (str "id" = key)) as [<-|_]; [|exact IH].
  right. by eexists.
Qed.

Lemma readRow_identified (columns : list (nat * jsstring)) (i : nat)
    (line : jsstring) (row : list (jsstring * FieldValue)) :
  randomUUID i ≠ [] → rowOf columns i line = Some row →
  rowId row ≠ [] ∧ (2 ≤ length (parseCSVLine line))%nat.
Proof.
  intros Huuid. unfold readRow. cbv zeta.
  destruct (Nat.ltb_spec (length (parseCSVLine line)) 2) as [|Hcells];
    [done|].
  intros [= <-]. split; [|done].
  destruct (row_id_text i (parseCSVLine line) columns) as [Hnone|[s Hs]];
    cbv zeta in *.
  - rewrite Hnone. simpl. unfold rowId. by rewrite property_assign.
  - rewrite Hs. simpl. destruct s as [|c s].
    + simpl. unfold rowId. by rewrite property_assign.
    + simpl. unfold rowId. by rewrite Hs.
Qed.

(** X30. Reading any delimited text. The reading fails exactly when the text
    has no line that is not blank. Otherwise the first such line is the header
    and each row comes from a later one: there are fewer rows than such lines,
    and, when the identities made by the host are not empty, every row has an
    identity that is not empty, whatever the header and the cells. *)
Theorem readCsv_rows_identified (content : jsstring) :
  let lines := filter (λ line, trim line ≠ []) (splitLines content) in
  (read content = None ↔ lines = []) ∧
  ∀ rows, read content = Some rows →
    (length rows < length lines)%nat ∧
    ((∀ i, randomUUID i ≠ []) → ∀ row, row ∈ rows → rowId row ≠ []).
Proof.
  intros lines. unfold readCsv. fold lines.
  destruct lines as [|first rest]; [split; [done|by intros rows [=]]|].
  cbv zeta. split; [split; intros [=]|].
  intros rows [= <-].
  set (columns := keyIndex _).
  assert (Hrows : ∀ (f : nat → jsstring → option (list (jsstring * FieldValue)))
                    (l : list jsstring),
    (length (omap (λ row, row) (imap f l)) ≤ length l)%nat ∧
    ∀ row, row ∈ omap (λ row, row) (imap f l) →
           ∃ j line, f j line = Some row).
  { intros f l. revert f. induction l as [|line l IH]; intros f.
    - split; [done|]. by intros row ?%elem_of_nil.
    - rewrite imap_cons. cbn [omap list_omap].
      destruct (IH (f ∘ S)) as [Hlen Hin].
      destruct (f 0%nat line) as [row0|] eqn:E; simpl; split; try lia.
      + intros row [->|Hrow]%elem_of_cons; [by exists 0%nat, line|].
        destruct (Hin row Hrow) as (j & line' & Hj). by exists (S j), line'.
      + intros row Hrow.
        destruct (Hin row Hrow) as (j & line' & Hj). by exists (S j), line'. }
  destruct (Hrows (λ j line, rowOf columns (S j) line) rest) as [Hlen Hin].
  split; [simpl; lia|].
  intros Huuid row Hrow. destruct (Hin row Hrow) as (j & line & Hj).
  by destruct (readRow_identified columns (S j) line row (Huuid _) Hj).
Qed.
End ReadCsvFacts.

Lemma readCsv_rows_identified_witness :
  ∃ rows,
    readCsv (λ _, None) (λ _, None) (λ _ _, 0) (λ _, str "fresh")
      (str "Title,ID" ++ [10%N] ++ str "Alien,") = Some rows ∧
    Forall (λ row, rowId row ≠ []) rows.
Proof.
  eexists. split; [reflexivity|].
  apply Forall_forall.
  apply (readCsv_rows_identified (λ _, None) (λ _, None) (λ _ _, 0)
           (λ _, str "fresh") (str "Title,ID" ++ [10%N] ++ str "Alien,")).
  - reflexivity.
  - intros i. discriminate.
Defined.
